(** * poconflicts: conflict finder for Gettext PO files

    A shallow embedding of [translate/tools/poconflicts.py]
    ([ConflictOptionParser]) and the properties of its conflict detection
    and re-clustering pipeline.

    Conventions of the embedding.
    - A Python [str] is a [string]; its characters are bytes ([ascii]) and
      the character classes are those of the C locale.
    - A Python [dict] is an association list with pairwise distinct keys.
      The list records the insertion history; the order in which a loop
      visits the items ([iteritems], iteration over the keys) is not fixed
      by the language, so it is a parameter [iteritems] of the pipeline that
      is only known to enumerate a permutation of the items.
    - Translation units are objects that the output step mutates: they live
      in a heap and the entries of the maps refer to them by address.
    - Exceptions are explicit: a computation that can raise returns a
      [result]. *)

From Stdlib Require Import List String Ascii Bool Arith Lia Permutation.
From Stdlib Require Import DecimalString.
Import ListNotations.
Local Open Scope string_scope.
Local Open Scope list_scope.
Local Open Scope nat_scope.

(** ** Characters and the string methods the tool calls *)

Module Str.

Definition isdigit (c : ascii) : bool :=
  let n := nat_of_ascii c in (48 <=? n) && (n <=? 57).

Definition isupper (c : ascii) : bool :=
  let n := nat_of_ascii c in (65 <=? n) && (n <=? 90).

Definition islower (c : ascii) : bool :=
  let n := nat_of_ascii c in (97 <=? n) && (n <=? 122).

(** [c.isalnum()] for a one-character string. *)
Definition isalnum (c : ascii) : bool := isdigit c || isupper c || islower c.

(** [c.isspace()]: space, and the controls tab, line feed, vertical tab,
    form feed and carriage return. *)
Definition isspace (c : ascii) : bool :=
  let n := nat_of_ascii c in (n =? 32) || ((9 <=? n) && (n <=? 13)).

Definition lower_char (c : ascii) : ascii :=
  if isupper c then ascii_of_nat (nat_of_ascii c + 32) else c.

(** A character that lower-casing leaves alone. *)
Definition lowered (c : ascii) : bool := Ascii.eqb (lower_char c) c.

Fixpoint all (p : ascii -> bool) (s : string) : bool :=
  match s with
  | EmptyString => true
  | String c s' => p c && all p s'
  end.

(** [s.isalnum()]: false on the empty string. *)
Definition str_isalnum (s : string) : bool :=
  match s with
  | EmptyString => false
  | _ => all isalnum s
  end.

(** [c in chars]. *)
Fixpoint mem (c : ascii) (chars : string) : bool :=
  match chars with
  | EmptyString => false
  | String d chars' => Ascii.eqb c d || mem c chars'
  end.

(** [s.lower()]. *)
Fixpoint lower (s : string) : string :=
  match s with
  | EmptyString => EmptyString
  | String c s' => String (lower_char c) (lower s')
  end.

(** [s.replace(old, new)] for a one-character [old]. *)
Fixpoint replace (old : ascii) (new : string) (s : string) : string :=
  match s with
  | EmptyString => EmptyString
  | String c s' =>
      if Ascii.eqb c old then (new ++ replace old new s')%string
      else String c (replace old new s')
  end.

Fixpoint lstrip_by (p : ascii -> bool) (s : string) : string :=
  match s with
  | EmptyString => EmptyString
  | String c s' => if p c then lstrip_by p s' else s
  end.

Fixpoint rstrip_by (p : ascii -> bool) (s : string) : string :=
  match s with
  | EmptyString => EmptyString
  | String c s' =>
      match rstrip_by p s' with
      | EmptyString => if p c then EmptyString else String c EmptyString
      | r => String c r
      end
  end.

(** [s.strip()]. *)
Definition strip (s : string) : string :=
  lstrip_by isspace (rstrip_by isspace s).

(** [s.rstrip(chars)]: drops the trailing characters that occur in
    [chars]. *)
Definition rstrip (s chars : string) : string :=
  rstrip_by (fun c => mem c chars) s.

(** [s[-1:]]: the last character as a string, empty when [s] is. *)
Fixpoint last1 (s : string) : string :=
  match s with
  | EmptyString => EmptyString
  | String c EmptyString => s
  | String _ s' => last1 s'
  end.

(** [s.startswith(p)], [s.endswith(p)] and [sub in s]. *)
Definition startswith (s p : string) : bool := String.prefix p s.

Fixpoint endswith (s p : string) : bool :=
  String.eqb s p ||
  match s with
  | EmptyString => false
  | String _ s' => endswith s' p
  end.

Fixpoint contains (s sub : string) : bool :=
  String.prefix sub s ||
  match s with
  | EmptyString => false
  | String _ s' => contains s' sub
  end.

(** [s.split()]: the maximal runs of non-whitespace characters.  [cur] is
    the word being read. *)
Fixpoint split_from (cur : string) (s : string) : list string :=
  match s with
  | EmptyString => match cur with EmptyString => [] | _ => [cur] end
  | String c s' =>
      if isspace c then
        match cur with
        | EmptyString => split_from EmptyString s'
        | _ => cur :: split_from EmptyString s'
        end
      else split_from (cur ++ String c EmptyString)%string s'
  end.

Definition split (s : string) : list string := split_from EmptyString s.

End Str.

(** ** Command-line options read by the pipeline *)

Record Options := {
  ignorecase : bool;
  invert : bool;
  accelchars : string;
  output : string
}.

(** ** [clean] and [flatten] *)

(** The loop [for accelerator in options.accelchars:
    string = string.replace(accelerator, "")]. *)
Fixpoint remove_accelerators (accelchars : string) (s : string) : string :=
  match accelchars with
  | EmptyString => s
  | String accelerator rest =>
      remove_accelerators rest (Str.replace accelerator "" s)
  end.

Definition clean (s : string) (options : Options) : string :=
  let s := if ignorecase options then Str.lower s else s in
  let s := remove_accelerators (accelchars options) s in
  Str.strip s.

(** The loop of [flatten]; [flattext] is the text built so far. *)
Fixpoint flatten_loop (text flattext joinchar : string) : string :=
  match text with
  | EmptyString => flattext
  | String c text' =>
      if Str.isalnum c then
        flatten_loop text' (flattext ++ String c EmptyString)%string joinchar
      else if Str.str_isalnum (Str.last1 flattext) then
        flatten_loop text' (flattext ++ joinchar)%string joinchar
      else flatten_loop text' flattext joinchar
  end.

Definition flatten (text joinchar : string) : string :=
  Str.rstrip (flatten_loop text "" joinchar) joinchar.

(** ** Dictionaries *)

Module Dict.
#[local] Set Implicit Arguments.
Section Ops.
Variable V : Type.

Definition t := list (string * V).

Definition keys (d : t) : list string := map fst d.
Definition values (d : t) : list V := map snd d.

(** [d.get(k)]. *)
Fixpoint get (k : string) (d : t) : option V :=
  match d with
  | [] => None
  | (k', v) :: d' => if String.eqb k k' then Some v else get k d'
  end.

(** [k in d]. *)
Definition mem (k : string) (d : t) : bool :=
  match get k d with Some _ => true | None => false end.

(** [d[k] = v]: an existing key keeps its place, a new one is added. *)
Fixpoint set (k : string) (v : V) (d : t) : t :=
  match d with
  | [] => [(k, v)]
  | (k', v') :: d' =>
      if String.eqb k k' then (k, v) :: d' else (k', v') :: set k v d'
  end.

(** [del d[k]] for a key that may be absent. *)
Fixpoint remove (k : string) (d : t) : t :=
  match d with
  | [] => []
  | (k', v') :: d' =>
      if String.eqb k k' then remove k d' else (k', v') :: remove k d'
  end.
End Ops.

(** [dict.fromkeys(ks)]: every key once, mapped to [None]. *)
Definition fromkeys (ks : list string) : t unit :=
  fold_left (fun d k => set k tt d) ks [].

End Dict.

(** ** Exceptions *)

(** The exceptions that reach the tool.  [KeyboardInterrupt], [SystemExit]
    and [GeneratorExit] derive from [BaseException] only; every other
    class, the built-in errors and those of the libraries, derives from
    [Exception]. *)
Inductive exception :=
| KeyboardInterrupt
| SystemExit
| GeneratorExit
| KeyError (key : string)
| IndexError
| Error (classname : string).

Definition isinstance_Exception (e : exception) : bool :=
  match e with
  | KeyboardInterrupt | SystemExit | GeneratorExit => false
  | KeyError _ | IndexError | Error _ => true
  end.

Definition isinstance_KeyboardInterrupt (e : exception) : bool :=
  match e with
  | KeyboardInterrupt => true
  | _ => false
  end.

Inductive result (A : Type) :=
| Ok (a : A)
| Raise (e : exception).
Arguments Ok {A} a.
Arguments Raise {A} e.

Definition bind {A B : Type} (m : result A) (f : A -> result B) : result B :=
  match m with
  | Ok a => f a
  | Raise e => Raise e
  end.

Notation "x <- m ;; k" := (bind m (fun x => k))
  (at level 61, m at next level, right associativity).

(** A loop whose body can raise: the first exception ends it. *)
Fixpoint foreach {A S : Type} (body : S -> A -> result S) (items : list A)
    (s : S) : result S :=
  match items with
  | [] => Ok s
  | x :: items' => s' <- body s x ;; foreach body items' s'
  end.

(** ** Translation units *)

(** Modelled from the spec: the unit class of the catalog library
    ([translate.storage.po]) is not part of the tool.  A unit exposes its
    source and target texts, the three predicates the ingestion asks, and
    the list of comments the output step appends to. *)
Record pounit := {
  source : string;
  target : string;
  isheader : bool;
  istranslated : bool;
  hasplural : bool;
  othercomments : list string
}.

(** Units are objects: the heap holds them, an address is a position. *)
Definition heap := list pounit.

Definition null_unit : pounit :=
  {| source := ""; target := ""; isheader := false; istranslated := false;
     hasplural := false; othercomments := [] |}.

Definition deref (h : heap) (addr : nat) : pounit := nth addr h null_unit.

(** [unit.othercomments.append(comment)] on the object at [addr]. *)
Definition append_comment (comment : string) (unit : pounit) : pounit :=
  {| source := source unit; target := target unit;
     isheader := isheader unit; istranslated := istranslated unit;
     hasplural := hasplural unit;
     othercomments := othercomments unit ++ [comment] |}.

Fixpoint heap_update (addr : nat) (f : pounit -> pounit) (h : heap) : heap :=
  match h, addr with
  | [], _ => []
  | unit :: h', 0 => f unit :: h'
  | unit :: h', S addr' => unit :: heap_update addr' f h'
  end.

(** The tuple [(target, unit, fullinputpath)] stored in the maps. *)
Definition entry := (string * nat * string)%type.

Definition entry_target (e : entry) : string := fst (fst e).
Definition entry_unit (e : entry) : nat := snd (fst e).
Definition entry_filename (e : entry) : string := snd e.

Definition textmap_t := Dict.t (list entry).

(** ** The pipeline of [ConflictOptionParser] *)

(** [words.sort(key=str_len)]: a stable sort by length, by insertion. *)
Fixpoint insert_by_len (w : string) (sorted : list string) : list string :=
  match sorted with
  | [] => [w]
  | x :: sorted' =>
      if String.length w <=? String.length x then w :: sorted
      else x :: insert_by_len w sorted'
  end.

Fixpoint sort_by_len (words : list string) : list string :=
  match words with
  | [] => []
  | w :: words' => insert_by_len w (sort_by_len words')
  end.

(** [words[-1]]. *)
Fixpoint last_item (words : list string) : result string :=
  match words with
  | [] => Raise IndexError
  | [w] => Ok w
  | _ :: words' => last_item words'
  end.

(** The cluster key of a conflicting source: [source.split()], sorted by
    length, last item. *)
Definition cluster_key (source : string) : result string :=
  let words := Str.split source in
  let words := sort_by_len words in
  last_item words.

(** [os.path.join(a, b)] on a POSIX system, and [os.extsep]. *)
Definition os_path_join (a b : string) : string :=
  if Str.startswith b "/" then b
  else if String.eqb a "" || Str.endswith a "/" then (a ++ b)%string
  else (a ++ "/" ++ b)%string.

Definition os_extsep : string := ".".

(** ["%d" % n]. *)
Definition format_d (n : nat) : string :=
  NilEmpty.string_of_uint (Nat.to_uint n).

(** What a run leaves behind: the unit objects, the index, the warnings
    and the progress reports of the ingestion. *)
Record Ingested := {
  units_heap : heap;
  textmap : textmap_t;
  warnings : list string;
  progress : list (string * option bool)
}.

(** What [outputconflicts] produces: the line printed, the files written
    (path and units, in the order of writing) and the unit objects as the
    run leaves them. *)
Record Output := {
  printed : string;
  files : list (string * list pounit);
  final_heap : heap
}.

Definition nothing_ingested : Ingested :=
  {| units_heap := []; textmap := []; warnings := []; progress := [] |}.

Section Pipeline.

(** The order in which a loop visits a dictionary. *)
Variable iteritems : forall V : Type, Dict.t V -> list (string * V).
Arguments iteritems {V}.

(** Modelled from the spec: opening and parsing the catalog at a path
    ([openinputfile] of [optrecurse] and [factory.getobject]) are not
    part of the tool; together they yield the units of the catalog or
    raise. *)
Variable parse : string -> result (list pounit).

(** [getfullinputpath] of [optrecurse] is not part of the tool either: it
    joins [options.input], which the loop never changes, and an input
    path, so it is a parameter that maps an input path to the full one. *)
Variable getfullinputpath : string -> string.

(** The units a new catalog of the library, [po.pofile()], holds before
    the tool adds any: its header.  The library is not part of the tool,
    so they are a parameter. *)
Variable new_pofile : list pounit.

(** [open(path, "w")]: the file system lets the file be written or
    raises. *)
Variable open_write : string -> result unit.

(** The body of the loop of [processfile] for the unit at [addr]. *)
Definition index_unit (options : Options) (fullinputpath : string)
    (tm : textmap_t) (addr : nat) (unit : pounit) : textmap_t :=
  if isheader unit || negb (istranslated unit) then tm
  else if hasplural unit then tm
  else
    let '(source, target) :=
      if negb (invert options)
      then (clean (source unit) options, clean (target unit) options)
      else (clean (target unit) options, clean (source unit) options) in
    let translations :=
      match Dict.get source tm with Some l => l | None => [] end in
    Dict.set source (translations ++ [(target, addr, fullinputpath)]) tm.

Fixpoint index_units (options : Options) (fullinputpath : string)
    (addr : nat) (units : list pounit) (tm : textmap_t) : textmap_t :=
  match units with
  | [] => tm
  | unit :: units' =>
      index_units options fullinputpath (S addr) units'
        (index_unit options fullinputpath tm addr unit)
  end.

(** [processfile]: the units of the parsed catalog are new objects. *)
Definition processfile (options : Options) (fullinputpath : string)
    (h : heap) (tm : textmap_t) : result (heap * textmap_t) :=
  units <- parse fullinputpath ;;
  Ok (h ++ units,
      index_units options fullinputpath (List.length h) units tm).

(** The handler of the ingestion loop: a warning that names the full
    path, and a failure reported for the input path. *)
Definition skip_file (st : Ingested) (inputpath fullinputpath : string)
    : Ingested :=
  {| units_heap := units_heap st; textmap := textmap st;
     warnings := warnings st ++
       [("Error processing: input " ++ fullinputpath)%string];
     progress := progress st ++ [(inputpath, Some false)] |}.

(** The ingestion loop of [recursiveprocess] over the input paths found:
    the file is read and its entries are filed under the full path, the
    progress is reported under the input path. *)
Fixpoint process_inputs (options : Options) (inputfiles : list string)
    (st : Ingested) : result Ingested :=
  match inputfiles with
  | [] => Ok st
  | inputpath :: inputfiles' =>
      let fullinputpath := getfullinputpath inputpath in
      match processfile options fullinputpath (units_heap st) (textmap st) with
      | Ok (h, tm) =>
          process_inputs options inputfiles'
            {| units_heap := h; textmap := tm; warnings := warnings st;
               progress := progress st ++ [(inputpath, None)] |}
      | Raise error =>
          if isinstance_Exception error then
            if isinstance_KeyboardInterrupt error then Raise error
            else
              process_inputs options inputfiles'
                (skip_file st inputpath fullinputpath)
          else Raise error
      end
  end.

Definition ingest (options : Options) (inputfiles : list string)
    : result Ingested :=
  process_inputs options inputfiles nothing_ingested.

(** [buildconflictmap]. *)
Definition conflict_step (conflictmap : textmap_t)
    (item : string * list entry) : textmap_t :=
  let '(source, translations) := item in
  let source := flatten source " " in
  if String.length source <=? 1 then conflictmap
  else if 1 <? List.length translations then
    let uniquetranslations :=
      Dict.fromkeys (map entry_target translations) in
    if 1 <? List.length uniquetranslations
    then Dict.set source translations conflictmap
    else conflictmap
  else conflictmap.

Definition buildconflictmap (tm : textmap_t) : textmap_t :=
  fold_left conflict_step (iteritems tm) [].

(** [outputconflicts], first loop: one cluster per longest word. *)
Definition recluster_step (reducedmap : textmap_t)
    (item : string * list entry) : result textmap_t :=
  let '(source, translations) := item in
  source <- cluster_key source ;;
  let l := match Dict.get source reducedmap with Some l => l | None => [] end in
  Ok (Dict.set source (l ++ translations) reducedmap).

Definition recluster (conflictmap : textmap_t) : result textmap_t :=
  foreach recluster_step (iteritems conflictmap) [].

(** The dictionary [plurals]. *)
Definition plurals_step (reducedmap : textmap_t) (plurals : Dict.t string)
    (word : string) : Dict.t string :=
  if Dict.mem (word ++ "s")%string reducedmap
  then Dict.set word (word ++ "s")%string plurals
  else plurals.

Definition find_plurals (reducedmap : textmap_t) : Dict.t string :=
  fold_left (plurals_step reducedmap) (map fst (iteritems reducedmap)) [].

(** [reducedmap[word].extend(reducedmap.pop(pluralword))]: the subscript
    is evaluated first, then the argument. *)
Definition merge_plural (reducedmap : textmap_t) (item : string * string)
    : result textmap_t :=
  let '(word, pluralword) := item in
  match Dict.get word reducedmap with
  | None => Raise (KeyError word)
  | Some l =>
      match Dict.get pluralword reducedmap with
      | None => Raise (KeyError pluralword)
      | Some popped =>
          Ok (Dict.set word (l ++ popped) (Dict.remove pluralword reducedmap))
      end
  end.

Definition reduce_plurals (reducedmap : textmap_t) : result textmap_t :=
  foreach merge_plural (iteritems (find_plurals reducedmap)) reducedmap.

(** The inner loop of the last loop: tag each unit and collect it. *)
Fixpoint tag_units (translations : list entry) (h : heap)
    (units : list nat) : heap * list nat :=
  match translations with
  | [] => (h, units)
  | (target, unit, filename) :: translations' =>
      let h :=
        heap_update unit
          (append_comment
             ("# (poconflicts) " ++ filename ++ String "010" "")%string)
          h in
      tag_units translations' h (units ++ [unit])
  end.

(** One output catalog: a new catalog of the library, to which the tagged
    units are added; the file is opened once they are, and holds the units
    as they are when it is written. *)
Definition write_cluster (options : Options)
    (st : heap * list (string * list pounit))
    (item : string * list entry)
    : result (heap * list (string * list pounit)) :=
  let '(h, written) := st in
  let '(source, translations) := item in
  let flatsource := flatten source "-" in
  let fulloutputpath :=
    os_path_join (output options) (flatsource ++ os_extsep ++ "po")%string in
  let '(h, units) := tag_units translations h [] in
  opened <- open_write fulloutputpath ;;
  Ok (h, written ++ [(fulloutputpath, new_pofile ++ map (deref h) units)]).

Definition outputconflicts (options : Options) (h : heap)
    (tm conflictmap : textmap_t) : result Output :=
  let line :=
    (format_d (List.length conflictmap) ++ "/" ++ format_d (List.length tm)
       ++ " different strings have conflicts")%string in
  reducedmap <- recluster conflictmap ;;
  reducedmap <- reduce_plurals reducedmap ;;
  st <- foreach (write_cluster options) (iteritems reducedmap) (h, []) ;;
  Ok {| printed := line; files := snd st; final_heap := fst st |}.

(** [recursiveprocess] from the ingestion loop on. *)
Definition recursiveprocess (options : Options) (inputfiles : list string)
    : result Output :=
  st <- ingest options inputfiles ;;
  outputconflicts options (units_heap st) (textmap st)
    (buildconflictmap (textmap st)).

End Pipeline.

(** The insertion order, and its reverse, as iteration orders. *)
Definition insertion_order (V : Type) (d : Dict.t V) : list (string * V) := d.
Definition reverse_order (V : Type) (d : Dict.t V) : list (string * V) := rev d.


(** ** Reference notions the properties are stated with *)

(** The maximal alphanumeric runs of a text, left to right. *)
Fixpoint spec_alnum_runs (text : string) : list string :=
  match text with
  | EmptyString => []
  | String c text' =>
      if Str.isalnum c then
        match text' with
        | EmptyString => [String c EmptyString]
        | String c' _ =>
            if Str.isalnum c' then
              match spec_alnum_runs text' with
              | run :: runs => String c run :: runs
              | [] => [String c EmptyString]
              end
            else String c EmptyString :: spec_alnum_runs text'
        end
      else spec_alnum_runs text'
  end.

(** What [flatten] promises for a text and a join character: the result
    neither begins nor ends with the join character, never has two of them
    in a row, and is the maximal alphanumeric runs of the text joined by
    one join character each. *)
Definition flatten_claim (text : string) (cj : ascii) : Prop :=
  let j := String cj EmptyString in
  Str.startswith (flatten text j) j = false /\
  Str.endswith (flatten text j) j = false /\
  Str.contains (flatten text j) (j ++ j) = false /\
  flatten text j = String.concat j (spec_alnum_runs text).

(** What the loop of [flatten] appends to [flattext] while it reads a text,
    given whether [flattext] ends with an alphanumeric character. *)
Fixpoint flatten_tail (cj : ascii) (after_alnum : bool) (text : string)
    : string :=
  match text with
  | EmptyString => EmptyString
  | String c text' =>
      if Str.isalnum c then String c (flatten_tail cj true text')
      else if after_alnum then String cj (flatten_tail cj false text')
      else flatten_tail cj false text'
  end.

Definition starts_alnum (text : string) : bool :=
  match text with
  | EmptyString => false
  | String c _ => Str.isalnum c
  end.

(** No separator [cj] first, last or twice in a row; [after_sep] tells
    that a separator comes just before the string. *)
Fixpoint well_separated (cj : ascii) (after_sep : bool) (s : string) : bool :=
  match s with
  | EmptyString => negb after_sep
  | String c s' =>
      if Ascii.eqb c cj then negb after_sep && well_separated cj true s'
      else well_separated cj false s'
  end.

(** The longest word, the first one among those of the same length. *)
Fixpoint spec_first_longest (words : list string) : option string :=
  match words with
  | [] => None
  | w :: words' =>
      match spec_first_longest words' with
      | None => Some w
      | Some m => if String.length m <=? String.length w then Some w else Some m
      end
  end.

(** What the re-clustering promises for a conflicting source: its cluster
    key is the longest of its words, the first one among equals. *)
Definition cluster_key_claim (source : string) : Prop :=
  exists w, spec_first_longest (Str.split source) = Some w /\
            cluster_key source = Ok w.

(** A catalog with the source and the target of every unit swapped. *)
Definition swap_fields (unit : pounit) : pounit :=
  {| source := target unit; target := source unit;
     isheader := isheader unit; istranslated := istranslated unit;
     hasplural := hasplural unit; othercomments := othercomments unit |}.

Definition swapped (parse : string -> result (list pounit))
    (path : string) : result (list pounit) :=
  units <- parse path ;; Ok (map swap_fields units).

Definition with_invert (b : bool) (options : Options) : Options :=
  {| ignorecase := ignorecase options; invert := b;
     accelchars := accelchars options; output := output options |}.

(** The index as the program sees it: every entry with the unit object it
    refers to. *)
Definition resolve (h : heap) (tm : textmap_t)
    : list (string * list (string * pounit * string)) :=
  map (fun item =>
         (fst item,
          map (fun e : entry =>
                 (entry_target e, deref h (entry_unit e), entry_filename e))
              (snd item))) tm.

(** All the entries a map holds, and the units they refer to. *)
Definition all_entries (d : textmap_t) : list entry :=
  List.concat (Dict.values d).
Definition addresses (d : textmap_t) : list nat :=
  map entry_unit (all_entries d).

(** A translation list that is a conflict: more than one entry and two
    different targets. *)
Definition conflicting (translations : list entry) : Prop :=
  1 < List.length translations /\
  exists e1 e2, In e1 translations /\ In e2 translations /\
                entry_target e1 <> entry_target e2.

(** The test [buildconflictmap] applies to an item of the index. *)
Definition is_conflict (source : string) (translations : list entry) : bool :=
  negb (String.length (flatten source " ") <=? 1) &&
  (1 <? List.length translations) &&
  (1 <? List.length (Dict.fromkeys (map entry_target translations))).

(** What the conflict detection promises for a key of the index and its
    translation list: the conflict map holds the flattened key with that
    list exactly when the flattened key has more than one character and
    the list is a conflict, and holds nothing under the flattened key
    otherwise. *)
Definition conflict_claim (cm : textmap_t) (source : string)
    (translations : list entry) : Prop :=
  (Dict.get (flatten source " ") cm = Some translations <->
   1 < String.length (flatten source " ") /\ conflicting translations) /\
  (~ (1 < String.length (flatten source " ") /\ conflicting translations) ->
   Dict.get (flatten source " ") cm = None).

(** An item of the index that [buildconflictmap] records under key [k]. *)
Definition conflict_hit (k : string) (item : string * list entry) : bool :=
  is_conflict (fst item) (snd item) && String.eqb (flatten (fst item) " ") k.

(** The comment the output step appends for a file. *)
Definition provenance (filename : string) : string :=
  ("# (poconflicts) " ++ filename ++ String "010" "")%string.

(** The index a run builds, when the ingestion ends normally. *)
Definition built_index (parse : string -> result (list pounit))
    (getfullinputpath : string -> string)
    (options : Options) (inputfiles : list string) : option textmap_t :=
  match ingest parse getfullinputpath options inputfiles with
  | Ok st => Some (textmap st)
  | Raise _ => None
  end.

(** What the ingestion promises when reading the file at [path] raises
    [error], with [rest] the files still to read: a user interrupt leaves
    the loop at once, any other exception is logged and the loop goes on
    with the rest. *)
Definition failure_policy_claim (parse : string -> result (list pounit))
    (getfullinputpath : string -> string)
    (options : Options) (path : string) (rest : list string) (st : Ingested)
    (error : exception) : Prop :=
  parse (getfullinputpath path) = Raise error ->
  process_inputs parse getfullinputpath options (path :: rest) st =
  if isinstance_KeyboardInterrupt error then Raise error
  else process_inputs parse getfullinputpath options rest
         (skip_file st path (getfullinputpath path)).

(** What inverting promises: the run with the invert flag builds the index
    that the run without it builds on the catalogs with swapped fields. *)
Definition invert_claim (parse : string -> result (list pounit))
    (getfullinputpath : string -> string)
    (options : Options) (inputfiles : list string) : Prop :=
  match ingest parse getfullinputpath (with_invert true options) inputfiles,
        ingest (swapped parse) getfullinputpath (with_invert false options)
          inputfiles with
  | Ok st1, Ok st2 =>
      resolve (units_heap st1) (textmap st1) =
      resolve (units_heap st2) (textmap st2)
  | Raise e1, Raise e2 => e1 = e2
  | _, _ => False
  end.

(** The two runs agree up to the swap of the units they carry. *)
Definition same_index_swapped_units (st1 st2 : Ingested) : Prop :=
  textmap st2 = textmap st1 /\
  units_heap st2 = map swap_fields (units_heap st1) /\
  warnings st2 = warnings st1 /\
  progress st2 = progress st1.

(** The catalogs of the two runs have the same paths, in the same order,
    begin with the units of a new catalog and go on with the same units,
    swapped in the second run. *)
Definition same_output_swapped_units (new_pofile : list pounit)
    (o1 o2 : Output) : Prop :=
  printed o2 = printed o1 /\
  (exists bodies : list (string * list pounit),
     files o1 = map (fun body => (fst body, new_pofile ++ snd body)) bodies /\
     files o2 =
       map (fun body => (fst body, new_pofile ++ map swap_fields (snd body)))
         bodies) /\
  final_heap o2 = map swap_fields (final_heap o1).

Definition related_results {A : Type} (R : A -> A -> Prop)
    (r1 r2 : result A) : Prop :=
  match r1, r2 with
  | Ok a1, Ok a2 => R a1 a2
  | Raise e1, Raise e2 => e1 = e2
  | _, _ => False
  end.

(** A unit that is in the catalog at a full input path of the run. *)
Definition from_input (parse : string -> result (list pounit))
    (fullinputpaths : list string) (path : string) (unit : pounit) : Prop :=
  In path fullinputpaths /\
  exists units, parse path = Ok units /\ In unit units.

(** The index refers to distinct units, each one read from the file its
    entry names. *)
Definition index_wf (parse : string -> result (list pounit))
    (fullinputpaths : list string) (h : heap) (tm : textmap_t) : Prop :=
  NoDup (Dict.keys tm) /\
  NoDup (addresses tm) /\
  forall e, In e (all_entries tm) ->
    entry_unit e < List.length h /\
    from_input parse fullinputpaths (entry_filename e) (deref h (entry_unit e)).

(** A written unit: a unit of an input catalog, with the same fields and
    with one more comment, the last one, which names the file of the
    catalog. *)
Definition traced (parse : string -> result (list pounit))
    (fullinputpaths : list string) (unit : pounit) : Prop :=
  exists path unit0,
    from_input parse fullinputpaths path unit0 /\
    source unit = source unit0 /\
    target unit = target unit0 /\
    isheader unit = isheader unit0 /\
    istranslated unit = istranslated unit0 /\
    hasplural unit = hasplural unit0 /\
    othercomments unit =
      othercomments unit0 ++
      [("# (poconflicts) " ++ path ++ String "010" "")%string].

(** The units of a written catalog after those a new catalog holds. *)
Definition added_units (new_pofile : list pounit) (file : string * list pounit)
    (units : list pounit) : Prop :=
  snd file = new_pofile ++ units.

(** ** Sample catalogs *)

Definition default_options : Options :=
  {| ignorecase := false; invert := false; accelchars := ""; output := "out" |}.

Definition translated (src tgt : string) : pounit :=
  {| source := src; target := tgt; isheader := false; istranslated := true;
     hasplural := false; othercomments := [] |}.

(** The input paths are full paths already. *)
Definition same_path (inputpath : string) : string := inputpath.

(** The input paths are relative to the directory [dir]. *)
Definition in_directory (dir : string) (inputpath : string) : string :=
  os_path_join dir inputpath.

(** A new catalog that holds a header, a unit with an empty source that
    comes from no input file. *)
Definition pofile_header : pounit :=
  {| source := ""; target := "Project-Id-Version: PACKAGE VERSION";
     isheader := true; istranslated := false; hasplural := false;
     othercomments := [] |}.

Definition fresh_pofile : list pounit := [pofile_header].

(** Every output file can be opened, or none. *)
Definition writable (path : string) : result unit := Ok tt.


(** A file system: the catalogs by path; any other path fails to open. *)
Fixpoint catalogs (fs : list (string * list pounit)) (path : string)
    : result (list pounit) :=
  match fs with
  | [] => Raise (Error "IOError")
  | (p, units) :: fs' =>
      if String.eqb path p then Ok units else catalogs fs' path
  end.

(** Two catalogs in the directory [po]; a third path cannot be read. *)
Definition po_directory_fs : list (string * list pounit) :=
  [("po/A.po", [translated "Open file" "Abrir archivo"]);
   ("po/B.po", [translated "Open file" "Abrir fichero"])].

(** Two sources that differ by punctuation only. *)
Definition save_as_fs : list (string * list pounit) :=
  [("A.po", [translated "Save as" "Guardar como";
             translated "Save as:" "Guardar como:"]);
   ("B.po", [translated "Save as" "Salvar como";
             translated "Save as:" "Salvar como:"])].

Definition save_as_entries : list entry :=
  [("Guardar como", 0, "A.po"); ("Salvar como", 2, "B.po")].

Definition save_as_colon_entries : list entry :=
  [("Guardar como:", 1, "A.po"); ("Salvar como:", 3, "B.po")].

Definition save_as_index : textmap_t :=
  [("Save as", save_as_entries); ("Save as:", save_as_colon_entries)].

Definition save_as_ingested : Ingested :=
  {| units_heap :=
       [translated "Save as" "Guardar como";
        translated "Save as:" "Guardar como:";
        translated "Save as" "Salvar como";
        translated "Save as:" "Salvar como:"];
     textmap := save_as_index;
     warnings := [];
     progress := [("A.po", None); ("B.po", None)] |}.

(** A source whose two words have the same length. *)
Definition open_file_fs : list (string * list pounit) :=
  [("A.po", [translated "Open file" "Abrir archivo"]);
   ("B.po", [translated "Open file" "Abrir fichero"])].

Definition open_file_entries : list entry :=
  [("Abrir archivo", 0, "A.po"); ("Abrir fichero", 1, "B.po")].

Definition open_file_index : textmap_t := [("Open file", open_file_entries)].

(** Three cluster keys in a chain of plurals. *)
Definition caress_map : textmap_t :=
  [("care", [("cuidado", 0, "A.po"); ("atencion", 3, "B.po")]);
   ("cares", [("cuidados", 1, "A.po"); ("penas", 4, "B.po")]);
   ("caress", [("caricia", 2, "A.po"); ("acariciar", 5, "B.po")])].

Definition caress_fs : list (string * list pounit) :=
  [("A.po", [translated "care" "cuidado"; translated "cares" "cuidados";
             translated "caress" "caricia"]);
   ("B.po", [translated "care" "atencion"; translated "cares" "penas";
             translated "caress" "acariciar"])].

Definition file_files_map : textmap_t :=
  [("file", [("archivo", 0, "A.po"); ("fichero", 2, "B.po")]);
   ("files", [("archivos", 1, "A.po"); ("ficheros", 3, "B.po")])].


(** ** The command line: [parse_args] *)

(** The value of [options.input] after the option parser of the library
    has run: unset, one path, or a list of paths. *)
Inductive input_value :=
| InputNone
| InputStr (path : string)
| InputList (paths : list string).

(** Truth values, as [if] and [not] test them. *)
Definition input_true (input : input_value) : bool :=
  match input with
  | InputNone => false
  | InputStr path => negb (String.eqb path "")
  | InputList paths => match paths with [] => false | _ => true end
  end.

Definition output_true (output : option string) : bool :=
  match output with
  | None => false
  | Some path => negb (String.eqb path "")
  end.

Definition args_true (args : list string) : bool :=
  match args with [] => false | _ => true end.

(** [args[-1:]]. *)
Definition last_slice (args : list string) : list string :=
  match args with
  | [] => []
  | _ => [last args ""]
  end.

(** [self.error(msg)] of the option parser prints the message and leaves
    the program with status 2: the command line is either accepted or
    rejected with a message. *)
Inductive cli_result (A : Type) :=
| Accepted (a : A)
| Rejected (msg : string).
Arguments Accepted {A} a.
Arguments Rejected {A} msg.

Definition msg_output_required : string := "output file is required".

Definition msg_invalid_combination : string :=
  "You have used an invalid combination of --input, --output and freestanding args".

(** [parse_args], from the options and free arguments the option parser
    of the library returns. *)
Definition parse_args (input : input_value) (output : option string)
    (args : list string)
    : cli_result (input_value * option string * list string) :=
  let '(input, args) :=
    if args_true args && negb (input_true input) then
      if negb (output_true output)
      then (InputList (removelast args), last_slice args)
      else (InputList args, [])
    else (input, args) in
  let '(output, args) :=
    if args_true args && negb (output_true output)
    then (Some (last args ""), removelast args)
    else (output, args) in
  if negb (output_true output) then Rejected msg_output_required
  else if args_true args then Rejected msg_invalid_combination
  else
    let input :=
      match input with
      | InputList [path] => InputStr path
      | _ => input
      end in
    Accepted (input, output, args).

(** The unwrapping of a list of one path at the end of [parse_args]. *)
Definition unwrap_single (input : input_value) : input_value :=
  match input with
  | InputList [path] => InputStr path
  | _ => input
  end.

(** The command line names no output: the output option is unset or empty
    and there is no free argument, or the last one is empty. *)
Definition no_output (output : option string) (args : list string) : bool :=
  negb (output_true output) &&
  (negb (args_true args) || String.eqb (last args "") "").

(** Free arguments are left over: the input option is set and there are
    free arguments besides the one that can serve as output. *)
Definition leftover_args (input : input_value) (output : option string)
    (args : list string) : bool :=
  input_true input && args_true args &&
  (output_true output || (2 <=? List.length args)).

(** ** Reference notions for the ingestion *)

(** A unit the loop of [processfile] does not skip. *)
Definition indexable (unit : pounit) : bool :=
  negb (isheader unit || negb (istranslated unit)) && negb (hasplural unit).

(** The addresses of the indexable units among [units], laid out from
    [addr] on. *)
Fixpoint indexable_from (addr : nat) (units : list pounit) : list nat :=
  match units with
  | [] => []
  | unit :: units' =>
      (if indexable unit then [addr] else []) ++ indexable_from (S addr) units'
  end.

(** The units a path contributes: those of its catalog, none when reading
    it raises. *)
Definition parsed_units (parse : string -> result (list pounit))
    (path : string) : list pounit :=
  match parse path with
  | Ok units => units
  | Raise _ => []
  end.

Definition parse_fails (parse : string -> result (list pounit))
    (path : string) : bool :=
  match parse path with
  | Ok _ => false
  | Raise _ => true
  end.

(** An entry under a key that agrees with its unit: the unit is indexable,
    the key is its cleaned source and the target of the entry its cleaned
    target, or the other way round with the invert flag. *)
Definition entry_agrees (options : Options) (key : string) (e : entry)
    (unit : pounit) : Prop :=
  indexable unit = true /\
  if invert options
  then key = clean (target unit) options /\
       entry_target e = clean (source unit) options
  else key = clean (source unit) options /\
       entry_target e = clean (target unit) options.

(** The entries of the index agree with the units they refer to. *)
Definition index_agrees (options : Options) (h : heap) (tm : textmap_t)
    : Prop :=
  forall key L e, In (key, L) tm -> In e L ->
    entry_unit e < List.length h /\
    entry_agrees options key e (deref h (entry_unit e)).

(** Reading the file raises an exception the ingestion loop lets through. *)
Definition parse_fatal (parse : string -> result (list pounit))
    (path : string) : bool :=
  match parse path with
  | Ok _ => false
  | Raise e => negb (isinstance_Exception e)
  end.

(** The report and the warning of the ingestion loop for a path. *)
Definition progress_report (parse : string -> result (list pounit))
    (getfullinputpath : string -> string) (inputpath : string)
    : string * option bool :=
  (inputpath,
   if parse_fails parse (getfullinputpath inputpath) then Some false
   else None).

Definition warning_for (path : string) : string :=
  ("Error processing: input " ++ path)%string.

(** The number of alphanumeric characters of a text. *)
Fixpoint count_alnum (text : string) : nat :=
  match text with
  | EmptyString => 0
  | String c text' => (if Str.isalnum c then 1 else 0) + count_alnum text'
  end.

(** A string that neither begins nor ends with whitespace. *)
Definition no_outer_space (s : string) : bool :=
  match s with
  | EmptyString => true
  | String c _ => negb (Str.isspace c)
  end &&
  match Str.last1 s with
  | EmptyString => true
  | String c _ => negb (Str.isspace c)
  end.

(** A cluster key as the pipeline produces them: a non-empty
    alphanumeric word. *)
Definition is_word (w : string) : Prop :=
  w <> "" /\ Str.all Str.isalnum w = true.

(** The path of the output catalog of a cluster key. *)
Definition cluster_path (options : Options) (key : string) : string :=
  os_path_join (output options) (flatten key "-" ++ os_extsep ++ "po")%string.

(** An item of the conflict map that the re-clustering puts under the
    cluster key [k]. *)
Definition has_cluster_key (k : string) (item : string * list entry) : bool :=
  match cluster_key (fst item) with
  | Ok w => String.eqb w k
  | Raise _ => false
  end.

(** The translation lists of the items under [k], one after the other. *)
Definition cluster_entries (k : string) (items : list (string * list entry))
    : list entry :=
  List.concat (map snd (filter (has_cluster_key k) items)).

(** Addresses in strictly increasing order. *)
Fixpoint increasing (bound : nat) (addrs : list nat) : bool :=
  match addrs with
  | [] => true
  | a :: addrs' => (bound <=? a) && increasing (S a) addrs'
  end.

(** Every list of the index is non-empty, in increasing order of address
    and below [bound]. *)
Definition index_ordered (bound : nat) (tm : textmap_t) : Prop :=
  forall key L, In (key, L) tm ->
    L <> [] /\
    increasing 0 (map entry_unit L) = true /\
    forall e, In e L -> entry_unit e < bound.

(** * Properties *)

(** ** Strings *)

Module StrFacts.
Import Str.

Lemma append_nil_r (s : string) : (s ++ "")%string = s.
Proof. induction s; simpl; congruence. Qed.

Lemma append_assoc (s1 s2 s3 : string) :
  ((s1 ++ s2) ++ s3)%string = (s1 ++ (s2 ++ s3))%string.
Proof. induction s1; simpl; congruence. Qed.

Lemma length_append (s1 s2 : string) :
  String.length (s1 ++ s2) = String.length s1 + String.length s2.
Proof. induction s1; simpl; auto. Qed.

Lemma lower_char_idem (c : ascii) : lower_char (lower_char c) = lower_char c.
Proof. destruct c as [[] [] [] [] [] [] [] []]; reflexivity. Qed.

Lemma all_impl (p q : ascii -> bool) (s : string) :
  (forall c, p c = true -> q c = true) -> all p s = true -> all q s = true.
Proof.
  intros Hpq; induction s as [|c s IH]; simpl; auto.
  rewrite !andb_true_iff; intros [Hc Hs]; auto.
Qed.

Lemma all_append (p : ascii -> bool) (s1 s2 : string) :
  all p (s1 ++ s2) = all p s1 && all p s2.
Proof.
  induction s1 as [|c s1 IH]; simpl; auto.
  now rewrite IH, andb_assoc.
Qed.

(** *** Stripping *)

Lemma all_lstrip_by (p q : ascii -> bool) (s : string) :
  all q s = true -> all q (lstrip_by p s) = true.
Proof.
  induction s as [|c s IH]; simpl; auto.
  intros H; destruct (p c); auto.
  apply andb_true_iff in H; tauto.
Qed.

Lemma all_rstrip_by (p q : ascii -> bool) (s : string) :
  all q s = true -> all q (rstrip_by p s) = true.
Proof.
  induction s as [|c s IH]; simpl; auto.
  intros H; apply andb_true_iff in H as [Hc Hs].
  specialize (IH Hs).
  destruct (rstrip_by p s) eqn:E.
  - destruct (p c); simpl; auto. now rewrite Hc.
  - cbn [all]. cbn [all] in IH. now rewrite Hc, IH.
Qed.

Lemma lstrip_by_idem (p : ascii -> bool) (s : string) :
  lstrip_by p (lstrip_by p s) = lstrip_by p s.
Proof.
  induction s as [|c s IH]; simpl; auto.
  destruct (p c) eqn:E; auto. simpl. now rewrite E.
Qed.

(** A string that [rstrip_by] leaves alone stays so when its head goes. *)
Lemma rstrip_by_fixed_tail (p : ascii -> bool) (c : ascii) (s : string) :
  rstrip_by p (String c s) = String c s -> rstrip_by p s = s.
Proof.
  simpl. destruct (rstrip_by p s) eqn:E.
  - destruct (p c); [discriminate|]. now intros [= <-].
  - now intros [= <-].
Qed.

Lemma rstrip_by_lstrip_by (p : ascii -> bool) (s : string) :
  rstrip_by p s = s -> rstrip_by p (lstrip_by p s) = lstrip_by p s.
Proof.
  induction s as [|c s IH]; auto.
  intros H. cbn [lstrip_by]. destruct (p c); auto.
  apply IH. eapply rstrip_by_fixed_tail; eauto.
Qed.

Lemma rstrip_by_idem (p : ascii -> bool) (s : string) :
  rstrip_by p (rstrip_by p s) = rstrip_by p s.
Proof.
  induction s as [|c s IH]; simpl; auto.
  destruct (rstrip_by p s) eqn:E.
  - destruct (p c) eqn:Ec; simpl; auto. now rewrite Ec.
  - cbn [rstrip_by]. cbn [rstrip_by] in IH. now rewrite IH.
Qed.

Lemma strip_idem (s : string) : strip (strip s) = strip s.
Proof.
  unfold strip.
  rewrite (rstrip_by_lstrip_by isspace (rstrip_by isspace s)).
  - apply lstrip_by_idem.
  - apply rstrip_by_idem.
Qed.

Lemma all_strip (q : ascii -> bool) (s : string) :
  all q s = true -> all q (strip s) = true.
Proof. intros H. unfold strip. now apply all_lstrip_by, all_rstrip_by. Qed.

(** *** Lower-casing and removing characters *)


Lemma all_lowered_lower (s : string) : all lowered (lower s) = true.
Proof.
  induction s as [|c s IH]; simpl; auto.
  rewrite IH, andb_true_r. unfold lowered.
  rewrite lower_char_idem. apply Ascii.eqb_refl.
Qed.

Lemma lower_fixed (s : string) : all lowered s = true -> lower s = s.
Proof.
  induction s as [|c s IH]; simpl; auto.
  rewrite andb_true_iff. intros [Hc Hs].
  apply Ascii.eqb_eq in Hc. now rewrite Hc, IH.
Qed.

Lemma all_replace_empty (q : ascii -> bool) (a : ascii) (s : string) :
  all q s = true -> all q (replace a "" s) = true.
Proof.
  induction s as [|c s IH]; simpl; auto.
  rewrite andb_true_iff. intros [Hc Hs].
  destruct (Ascii.eqb c a); simpl; auto. now rewrite Hc, IH.
Qed.

Lemma replace_empty_absent (a : ascii) (s : string) :
  all (fun c => negb (Ascii.eqb c a)) (replace a "" s) = true.
Proof.
  induction s as [|c s IH]; simpl; auto.
  destruct (Ascii.eqb c a) eqn:E; simpl; auto. now rewrite E, IH.
Qed.

Lemma replace_empty_fixed (a : ascii) (s : string) :
  all (fun c => negb (Ascii.eqb c a)) s = true -> replace a "" s = s.
Proof.
  induction s as [|c s IH]; simpl; auto.
  rewrite andb_true_iff. intros [Hc Hs].
  apply negb_true_iff in Hc. now rewrite Hc, IH.
Qed.

End StrFacts.

(** ** [clean] *)

Lemma all_remove_accelerators (q : ascii -> bool) (accel s : string) :
  Str.all q s = true -> Str.all q (remove_accelerators accel s) = true.
Proof.
  revert s; induction accel as [|a accel IH]; simpl; auto.
  intros s H. now apply IH, StrFacts.all_replace_empty.
Qed.

Lemma remove_accelerators_absent (accel s : string) :
  Str.all (fun c => negb (Str.mem c accel)) (remove_accelerators accel s) = true.
Proof.
  revert s; induction accel as [|a accel IH]; simpl; intros s.
  - induction s; simpl; auto.
  - specialize (IH (Str.replace a "" s)).
    assert (Ha : Str.all (fun c => negb (Ascii.eqb c a))
                   (remove_accelerators accel (Str.replace a "" s)) = true)
      by apply all_remove_accelerators, StrFacts.replace_empty_absent.
    revert IH Ha.
    generalize (remove_accelerators accel (Str.replace a "" s)) as r.
    induction r as [|c r IHr]; simpl; auto.
    rewrite !andb_true_iff. intros [H1 H2] [H3 H4].
    rewrite negb_orb, H1, H3. simpl. auto.
Qed.

Lemma remove_accelerators_fixed (accel s : string) :
  Str.all (fun c => negb (Str.mem c accel)) s = true ->
  remove_accelerators accel s = s.
Proof.
  revert s; induction accel as [|a accel IH]; simpl; auto.
  intros s H.
  rewrite StrFacts.replace_empty_fixed.
  - apply IH. eapply StrFacts.all_impl; [|exact H].
    intros c Hc. simpl in Hc. rewrite negb_orb in Hc.
    apply andb_true_iff in Hc. tauto.
  - eapply StrFacts.all_impl; [|exact H].
    intros c Hc. simpl in Hc. rewrite negb_orb in Hc.
    apply andb_true_iff in Hc. tauto.
Qed.

(** C7. [clean] is idempotent: for every string and every fixed choice of
    the ignore-case flag and of the accelerator characters, cleaning a
    cleaned string gives the same string; [clean] is a function of its
    arguments alone. *)
Theorem clean_idempotent (s : string) (options : Options) :
  clean (clean s options) options = clean s options.
Proof.
  unfold clean.
  set (s1 := if ignorecase options then Str.lower s else s).
  set (s2 := remove_accelerators (accelchars options) s1).
  assert (Hacc : Str.all (fun c => negb (Str.mem c (accelchars options)))
                   (Str.strip s2) = true)
    by apply StrFacts.all_strip, remove_accelerators_absent.
  assert (Hlow : (if ignorecase options then Str.lower (Str.strip s2)
                  else Str.strip s2) = Str.strip s2).
  { destruct (ignorecase options) eqn:E; auto.
    apply StrFacts.lower_fixed, StrFacts.all_strip.
    apply all_remove_accelerators. subst s1. apply StrFacts.all_lowered_lower. }
  rewrite Hlow, (remove_accelerators_fixed _ _ Hacc).
  apply StrFacts.strip_idem.
Qed.

(** ** [flatten] *)

Section FlattenFacts.
Import Str.

Variable cj : ascii.
Hypothesis cj_not_alnum : isalnum cj = false.

Let j : string := String cj EmptyString.

Lemma alnum_not_sep (c : ascii) : isalnum c = true -> Ascii.eqb c cj = false.
Proof.
  intros Hc. destruct (Ascii.eqb c cj) eqn:E; auto.
  apply Ascii.eqb_eq in E. congruence.
Qed.

Lemma last1_append_char (s : string) (c : ascii) :
  last1 (s ++ String c "") = String c "".
Proof.
  induction s as [|d s IH]; auto.
  simpl. rewrite IH. destruct s; reflexivity.
Qed.

Lemma flatten_loop_tail (text flattext : string) :
  flatten_loop text flattext j =
  (flattext ++ flatten_tail cj (str_isalnum (last1 flattext)) text)%string.
Proof.
  revert flattext; induction text as [|c text IH]; intros flattext; simpl.
  - now rewrite StrFacts.append_nil_r.
  - destruct (isalnum c) eqn:Ec.
    + rewrite IH, last1_append_char, StrFacts.append_assoc. simpl.
      now rewrite Ec.
    + destruct (str_isalnum (last1 flattext)) eqn:El.
      * rewrite IH. unfold j. rewrite last1_append_char, StrFacts.append_assoc.
        simpl. now rewrite cj_not_alnum.
      * rewrite IH. now rewrite El.
Qed.

Lemma rstrip_alnum (c : ascii) (s : string) :
  isalnum c = true -> rstrip (String c s) j = String c (rstrip s j).
Proof.
  intros Hc. unfold rstrip. simpl.
  rewrite (alnum_not_sep c Hc). simpl.
  now destruct (rstrip_by _ s).
Qed.

Lemma rstrip_sep (s : string) :
  rstrip (String cj s) j =
  match rstrip s j with EmptyString => EmptyString | r => String cj r end.
Proof. unfold rstrip. simpl. now rewrite Ascii.eqb_refl. Qed.

(** The runs are non-empty and alphanumeric. *)
Lemma spec_alnum_runs_wf (text : string) :
  Forall (fun run => run <> "" /\ all isalnum run = true)
    (spec_alnum_runs text).
Proof.
  induction text as [|c text IH]; simpl; auto.
  destruct (isalnum c) eqn:Ec; auto.
  destruct text as [|c' text'];
    [repeat constructor; simpl; try congruence; now rewrite Ec|].
  destruct (isalnum c') eqn:Ec'.
  - destruct (spec_alnum_runs (String c' text')) as [|run runs].
    + repeat constructor; simpl; try congruence. now rewrite Ec.
    + inversion IH as [|? ? [_ Hrun] Hruns]; subst.
      constructor; auto. split; [congruence|]. simpl. now rewrite Ec.
  - constructor; auto. split; [congruence|]. simpl. now rewrite Ec.
Qed.

Lemma spec_alnum_runs_starts (text : string) :
  starts_alnum text = true -> spec_alnum_runs text <> [].
Proof.
  destruct text as [|c text]; simpl; [discriminate|].
  intros ->. destruct text as [|c' text']; [discriminate|].
  destruct (isalnum c'); [|discriminate].
  destruct (spec_alnum_runs (String c' text')); discriminate.
Qed.

Lemma concat_runs_empty (runs : list string) :
  Forall (fun run => run <> "" /\ all isalnum run = true) runs ->
  String.concat j runs = "" -> runs = [].
Proof.
  intros H. destruct runs as [|run runs]; auto.
  inversion H as [|? ? [Hne _] _]; subst.
  simpl. destruct runs; [congruence|].
  destruct run; [congruence|discriminate].
Qed.

(** What the stripped output is, from either state of the loop. *)
Lemma rstrip_flatten_tail (text : string) :
  rstrip (flatten_tail cj false text) j = String.concat j (spec_alnum_runs text)
  /\
  rstrip (flatten_tail cj true text) j =
    if starts_alnum text then String.concat j (spec_alnum_runs text)
    else match spec_alnum_runs text with
         | [] => ""
         | runs => String cj (String.concat j runs)
         end.
Proof.
  induction text as [|c text [IHf IHt]]; [split; reflexivity|].
  pose proof (spec_alnum_runs_wf text) as Hwf.
  cbn [flatten_tail starts_alnum].
  destruct (isalnum c) eqn:Ec.
  - assert (H : rstrip (String c (flatten_tail cj true text)) j =
                String.concat j (spec_alnum_runs (String c text))).
    { rewrite (rstrip_alnum _ _ Ec), IHt.
      cbn [spec_alnum_runs]. rewrite Ec.
      destruct text as [|c' text']; [reflexivity|].
      cbn [starts_alnum]. destruct (isalnum c') eqn:Ec'.
      - pose proof (spec_alnum_runs_starts (String c' text')) as Hne.
        cbn [starts_alnum] in Hne. specialize (Hne Ec').
        destruct (spec_alnum_runs (String c' text')) as [|run runs];
          [congruence|].
        destruct runs; reflexivity.
      - destruct (spec_alnum_runs (String c' text')) as [|run runs];
          reflexivity. }
    split; exact H.
  - split.
    + rewrite IHf. cbn [spec_alnum_runs]. now rewrite Ec.
    + rewrite rstrip_sep, IHf. cbn [spec_alnum_runs]. rewrite Ec.
      destruct (spec_alnum_runs text) as [|run runs]; [reflexivity|].
      destruct (String.concat j (run :: runs)) eqn:E; [|reflexivity].
      apply concat_runs_empty in E; [discriminate|assumption].
Qed.

Lemma flatten_runs (text : string) :
  flatten text j = String.concat j (spec_alnum_runs text).
Proof.
  unfold flatten. rewrite flatten_loop_tail. simpl.
  apply rstrip_flatten_tail.
Qed.

(** *** The separators of a joined list of runs *)

Lemma well_separated_run (after_sep : bool) (run rest : string) :
  run <> "" -> all isalnum run = true ->
  well_separated cj after_sep (run ++ rest) = well_separated cj false rest.
Proof.
  revert after_sep; induction run as [|c run IH]; intros after_sep Hne Hall;
    [congruence|].
  simpl in Hall. apply andb_true_iff in Hall as [Hc Hall].
  simpl. rewrite (alnum_not_sep c Hc).
  destruct run as [|c' run']; [reflexivity|].
  apply IH; [discriminate|assumption].
Qed.

Lemma well_separated_concat (runs : list string) :
  Forall (fun run => run <> "" /\ all isalnum run = true) runs ->
  runs <> [] -> well_separated cj true (String.concat j runs) = true.
Proof.
  induction runs as [|run runs IH]; [congruence|].
  intros Hwf _. inversion Hwf as [|? ? [Hne Hall] Hwf']; subst.
  destruct runs as [|run' runs].
  - simpl. rewrite <- (StrFacts.append_nil_r run).
    now rewrite well_separated_run.
  - change (String.concat j (run :: run' :: runs))
      with (run ++ j ++ String.concat j (run' :: runs))%string.
    rewrite well_separated_run by assumption.
    unfold j at 1. simpl. rewrite Ascii.eqb_refl. simpl.
    apply IH; [assumption|discriminate].
Qed.

Lemma well_separated_no_prefix (s : string) :
  well_separated cj true s = true -> String.prefix j s = false.
Proof.
  destruct s as [|c s]; simpl; auto.
  destruct (Ascii.eqb c cj) eqn:E; [discriminate|].
  intros _. destruct (ascii_dec cj c) as [->|]; auto.
  now rewrite Ascii.eqb_refl in E.
Qed.

Lemma well_separated_no_suffix (after_sep : bool) (s : string) :
  well_separated cj after_sep s = true -> endswith s j = false.
Proof.
  revert after_sep; induction s as [|c s IH]; intros after_sep; simpl; auto.
  destruct (Ascii.eqb c cj) eqn:E.
  - rewrite andb_true_iff. intros [_ H].
    rewrite (IH _ H), orb_false_r.
    destruct s; [discriminate H|reflexivity].
  - intros H. now rewrite (IH _ H).
Qed.

Lemma well_separated_no_double (after_sep : bool) (s : string) :
  well_separated cj after_sep s = true ->
  contains s (String cj (String cj "")) = false.
Proof.
  revert after_sep; induction s as [|c s IH]; intros after_sep;
    [reflexivity|].
  cbn [well_separated contains String.prefix].
  destruct (Ascii.eqb c cj) eqn:E.
  - rewrite andb_true_iff. intros [_ H].
    rewrite (IH _ H), orb_false_r.
    destruct (ascii_dec cj c); auto.
    apply well_separated_no_prefix in H. unfold j in H.
    destruct s as [|c' s]; auto.
  - intros H. rewrite (IH _ H), orb_false_r.
    destruct (ascii_dec cj c) as [->|]; auto.
    now rewrite Ascii.eqb_refl in E.
Qed.

Lemma flatten_claim_holds (text : string) : flatten_claim text cj.
Proof.
  unfold flatten_claim. fold j. rewrite flatten_runs.
  pose proof (spec_alnum_runs_wf text) as Hwf.
  destruct (spec_alnum_runs text) as [|run runs] eqn:E.
  - repeat split; reflexivity.
  - assert (H : well_separated cj true (String.concat j (run :: runs)) = true)
      by (apply well_separated_concat; [assumption|discriminate]).
    repeat split.
    + now apply well_separated_no_prefix.
    + eapply well_separated_no_suffix; eauto.
    + apply (well_separated_no_double true _ H).
Qed.

End FlattenFacts.

(** C4, as amended.  For every text and every join character that is not
    alphanumeric, [flatten] never begins or ends with the join character,
    has no two of them in a row, and is the maximal alphanumeric runs of
    the text joined by exactly one join character each. *)
Theorem flatten_separators (text : string) (cj : ascii) :
  Str.isalnum cj = false -> flatten_claim text cj.
Proof. intros H. now apply flatten_claim_holds. Qed.

Lemma flatten_separators_witness :
  Str.isalnum "-" = false /\ flatten_claim "a--b.c-" "-".
Proof. split; [reflexivity|]. apply flatten_separators. reflexivity. Defined.

(** C4 as stated fails for an alphanumeric join character: with ["x"],
    the text ["xa"] is returned unchanged and begins with it. *)
Lemma flatten_separators_counterexample : ~ flatten_claim "xa" "x".
Proof. intros [H _]. vm_compute in H. discriminate. Qed.

(** ** Sorting the words and the cluster key *)

Lemma insert_by_len_in (x w : string) (l : list string) :
  In x (insert_by_len w l) <-> x = w \/ In x l.
Proof.
  induction l as [|y l IH]; simpl; [intuition congruence|].
  destruct (String.length w <=? String.length y); simpl;
    [intuition congruence|].
  rewrite IH. intuition congruence.
Qed.

Lemma sort_by_len_in (x : string) (l : list string) :
  In x (sort_by_len l) <-> In x l.
Proof.
  induction l as [|y l IH]; simpl; [tauto|].
  rewrite insert_by_len_in, IH. intuition congruence.
Qed.

Lemma insert_by_len_not_nil (w : string) (l : list string) :
  insert_by_len w l <> [].
Proof.
  destruct l as [|y l]; simpl; [discriminate|].
  destruct (String.length w <=? String.length y); discriminate.
Qed.

Lemma last_item_cons (x : string) (l : list string) :
  l <> [] -> last_item (x :: l) = last_item l.
Proof. destruct l; [congruence|reflexivity]. Qed.

(** Inserting into a list whose last item is a longest one. *)
Lemma last_item_insert (w m : string) (l : list string) :
  (forall y, In y l -> String.length y <= String.length m) ->
  last_item l = Ok m ->
  last_item (insert_by_len w l) =
  Ok (if String.length w <=? String.length m then m else w).
Proof.
  induction l as [|y l IH]; intros Hmax Hlast; [discriminate|].
  cbn [insert_by_len].
  destruct (String.length w <=? String.length y) eqn:E.
  - rewrite last_item_cons by discriminate. rewrite Hlast.
    apply Nat.leb_le in E.
    assert (String.length y <= String.length m) by (apply Hmax; now left).
    destruct (String.length w <=? String.length m) eqn:E'; auto.
    apply Nat.leb_gt in E'. lia.
  - rewrite last_item_cons by apply insert_by_len_not_nil.
    destruct l as [|z l].
    + injection Hlast as <-. simpl. now rewrite E.
    + apply IH.
      * intros y' Hy'. apply Hmax. now right.
      * now rewrite last_item_cons in Hlast by discriminate.
Qed.

(** The last item of the sorted words is a longest word and every word
    after it in the original order is strictly shorter. *)
Lemma last_item_sort_by_len (words : list string) :
  words <> [] ->
  exists w pre post,
    last_item (sort_by_len words) = Ok w /\
    words = pre ++ w :: post /\
    (forall x, In x pre -> String.length x <= String.length w) /\
    (forall x, In x post -> String.length x < String.length w).
Proof.
  induction words as [|x words IH]; [congruence|]. intros _.
  destruct words as [|x' words'].
  - exists x, [], []. simpl. repeat split; intros ? [].
  - destruct IH as (m & pre & post & Hlast & Hsplit & Hpre & Hpost);
      [discriminate|].
    assert (Hmax : forall y, In y (sort_by_len (x' :: words')) ->
                             String.length y <= String.length m).
    { intros y Hy. rewrite sort_by_len_in, Hsplit in Hy.
      apply in_app_or in Hy as [Hy|[<-|Hy]]; auto.
      apply Hpost in Hy. lia. }
    change (sort_by_len (x :: x' :: words'))
      with (insert_by_len x (sort_by_len (x' :: words'))).
    rewrite (last_item_insert x m _ Hmax Hlast).
    destruct (String.length x <=? String.length m) eqn:E.
    + apply Nat.leb_le in E.
      exists m, (x :: pre), post. rewrite Hsplit. repeat split; auto.
      intros y [<-|Hy]; auto.
    + apply Nat.leb_gt in E.
      exists x, [], (x' :: words'). repeat split; [intros ? []|].
      intros y Hy. rewrite <- sort_by_len_in in Hy. apply Hmax in Hy. lia.
Qed.

(** [sort_by_len] is a stable sort: a permutation, ascending by length,
    with the words of each length in their original order. *)
Lemma sort_by_len_perm (words : list string) :
  Permutation (sort_by_len words) words.
Proof.
  induction words as [|w words IH]; simpl; auto.
  transitivity (w :: sort_by_len words); [|now constructor].
  generalize (sort_by_len words) as l. clear.
  induction l as [|y l IH]; simpl; auto.
  destruct (String.length w <=? String.length y); auto.
  transitivity (y :: w :: l); [now constructor|apply perm_swap].
Qed.

Lemma sort_by_len_stable (n : nat) (words : list string) :
  filter (fun w => String.length w =? n) (sort_by_len words) =
  filter (fun w => String.length w =? n) words.
Proof.
  induction words as [|w words IH]; simpl; auto.
  rewrite <- IH.
  clear IH.
  generalize (sort_by_len words) as l.
  induction l as [|y l IHl]; simpl; auto.
  destruct (String.length w <=? String.length y) eqn:E; simpl; auto.
  apply Nat.leb_gt in E.
  destruct (String.length w =? n) eqn:Ew.
  - apply Nat.eqb_eq in Ew.
    assert (Ey : (String.length y =? n) = false) by (apply Nat.eqb_neq; lia).
    rewrite Ey. rewrite IHl. reflexivity.
  - destruct (String.length y =? n); rewrite IHl; reflexivity.
Qed.

Lemma isalnum_not_space (c : ascii) :
  Str.isalnum c = true -> Str.isspace c = false.
Proof. destruct c as [[] [] [] [] [] [] [] []]; vm_compute; congruence. Qed.

Lemma split_from_word (cur s : string) :
  cur <> "" -> Str.split_from cur s <> [].
Proof.
  revert cur; induction s as [|c s IH]; intros cur Hcur; simpl.
  - destruct cur; congruence.
  - destruct (Str.isspace c).
    + destruct cur; [congruence|discriminate].
    + apply IH. destruct cur; discriminate.
Qed.

(** A flattened text that is not empty has a word. *)
Lemma split_flatten_not_nil (text : string) :
  flatten text " " <> "" -> Str.split (flatten text " ") <> [].
Proof.
  rewrite (flatten_runs " " eq_refl).
  pose proof (spec_alnum_runs_wf text) as Hwf.
  destruct (spec_alnum_runs text) as [|run runs]; [simpl; congruence|].
  intros _. inversion Hwf as [|? ? [Hne Hall] _]; subst.
  destruct run as [|c run]; [congruence|].
  simpl in Hall. apply andb_true_iff in Hall as [Hc _].
  assert (E : exists rest,
            String.concat " " (String c run :: runs) = String c rest).
  { destruct runs; simpl; eauto. }
  destruct E as [rest ->].
  unfold Str.split. simpl. rewrite (isalnum_not_space c Hc).
  apply split_from_word. discriminate.
Qed.

(** ** Dictionaries *)

Module DictFacts.
Section Facts.
Context {V : Type}.
Implicit Types (d : Dict.t V) (k : string) (v : V).

Lemma get_set_same k v d : Dict.get k (Dict.set k v d) = Some v.
Proof.
  induction d as [|[k' v'] d IH]; simpl.
  - now rewrite String.eqb_refl.
  - destruct (String.eqb k k') eqn:E; simpl; rewrite ?String.eqb_refl, ?E; auto.
Qed.

Lemma get_set_other k k' v d :
  k <> k' -> Dict.get k' (Dict.set k v d) = Dict.get k' d.
Proof.
  intros Hne. induction d as [|[k0 v0] d IH]; simpl.
  - apply String.eqb_neq in Hne. now rewrite String.eqb_sym, Hne.
  - destruct (String.eqb k k0) eqn:E; simpl.
    + apply String.eqb_eq in E. subst k0.
      apply String.eqb_neq in Hne. now rewrite String.eqb_sym, Hne.
    + now rewrite IH.
Qed.

Lemma get_set k k' v d :
  Dict.get k' (Dict.set k v d) =
  if String.eqb k k' then Some v else Dict.get k' d.
Proof.
  destruct (String.eqb k k') eqn:E.
  - apply String.eqb_eq in E. subst. apply get_set_same.
  - apply String.eqb_neq in E. now apply get_set_other.
Qed.

Lemma get_in k v d : Dict.get k d = Some v -> In (k, v) d.
Proof.
  induction d as [|[k' v'] d IH]; simpl; [discriminate|].
  destruct (String.eqb k k') eqn:E; auto.
  apply String.eqb_eq in E. intros [= ->]. subst. now left.
Qed.

Lemma get_none k d : Dict.get k d = None <-> ~ In k (Dict.keys d).
Proof.
  induction d as [|[k' v'] d IH]; simpl; [tauto|].
  destruct (String.eqb k k') eqn:E.
  - apply String.eqb_eq in E. subst. split; [discriminate|]. tauto.
  - apply String.eqb_neq in E. rewrite IH. intuition congruence.
Qed.

Lemma in_get k v d :
  NoDup (Dict.keys d) -> In (k, v) d -> Dict.get k d = Some v.
Proof.
  induction d as [|[k' v'] d IH]; simpl; [tauto|].
  intros Hnd [[= -> ->]|Hin].
  - now rewrite String.eqb_refl.
  - inversion Hnd as [|? ? Hk Hnd']; subst.
    destruct (String.eqb k k') eqn:E; auto.
    apply String.eqb_eq in E. subst. exfalso. apply Hk.
    change k' with (fst (k', v)). now apply in_map.
Qed.

Lemma in_set k v k' v' d :
  In (k', v') (Dict.set k v d) -> (k' = k /\ v' = v) \/ In (k', v') d.
Proof.
  induction d as [|[k0 v0] d IH]; simpl.
  - intros [[= <- <-]|[]]. auto.
  - destruct (String.eqb k k0); simpl.
    + intros [[= <- <-]|H]; auto.
    + intros [H|H]; auto. apply IH in H. tauto.
Qed.

Lemma keys_set k v d :
  forall x, In x (Dict.keys (Dict.set k v d)) <-> x = k \/ In x (Dict.keys d).
Proof.
  intros x. induction d as [|[k0 v0] d IH]; simpl; [intuition congruence|].
  destruct (String.eqb k k0) eqn:E; simpl.
  - apply String.eqb_eq in E. subst. intuition congruence.
  - rewrite IH. intuition congruence.
Qed.

Lemma nodup_keys_set k v d :
  NoDup (Dict.keys d) -> NoDup (Dict.keys (Dict.set k v d)).
Proof.
  induction d as [|[k0 v0] d IH]; simpl; intros Hnd.
  - repeat constructor. intros [].
  - inversion Hnd as [|? ? Hk Hnd']; subst.
    destruct (String.eqb k k0) eqn:E; simpl.
    + apply String.eqb_eq in E. subst. now constructor.
    + constructor; auto. rewrite keys_set. intros [->|H]; auto.
      now rewrite String.eqb_refl in E.
Qed.

Lemma get_remove k k' d :
  Dict.get k' (Dict.remove k d) =
  if String.eqb k k' then None else Dict.get k' d.
Proof.
  induction d as [|[k0 v0] d IH]; simpl.
  - now destruct (String.eqb k k').
  - destruct (String.eqb k k0) eqn:E.
    + apply String.eqb_eq in E. subst k0. rewrite IH.
      rewrite (String.eqb_sym k' k). now destruct (String.eqb k k').
    + simpl. rewrite IH. destruct (String.eqb k' k0) eqn:E'; auto.
      apply String.eqb_eq in E'. subst k0. now rewrite E.
Qed.

Lemma keys_remove k d :
  forall x, In x (Dict.keys (Dict.remove k d)) <-> x <> k /\ In x (Dict.keys d).
Proof.
  intros x. induction d as [|[k0 v0] d IH]; simpl; [tauto|].
  destruct (String.eqb k k0) eqn:E.
  - apply String.eqb_eq in E. subst. rewrite IH. intuition congruence.
  - apply String.eqb_neq in E. simpl. rewrite IH. intuition congruence.
Qed.

Lemma nodup_keys_remove k d :
  NoDup (Dict.keys d) -> NoDup (Dict.keys (Dict.remove k d)).
Proof.
  induction d as [|[k0 v0] d IH]; simpl; intros Hnd; auto.
  inversion Hnd as [|? ? Hk Hnd']; subst.
  destruct (String.eqb k k0); auto.
  simpl. constructor; auto. rewrite keys_remove. tauto.
Qed.
End Facts.

(** A list without repetition has two or more items exactly when it has
    two different ones. *)
Lemma two_distinct {A : Type} (l : list A) :
  NoDup l ->
  (1 < List.length l <-> exists x y, In x l /\ In y l /\ x <> y).
Proof.
  intros Hnd. split.
  - destruct l as [|a [|b l]]; simpl; try lia. intros _.
    exists a, b. repeat split; auto.
    inversion Hnd as [|? ? Ha _]; subst. intros ->. apply Ha. now left.
  - intros (x & y & Hx & Hy & Hne).
    destruct l as [|a [|b l]]; simpl in *; try lia; intuition congruence.
Qed.

Lemma fromkeys_keys (ks : list string) :
  NoDup (Dict.keys (Dict.fromkeys ks)) /\
  forall k, In k (Dict.keys (Dict.fromkeys ks)) <-> In k ks.
Proof.
  unfold Dict.fromkeys.
  assert (H : forall (d : Dict.t unit),
    NoDup (Dict.keys d) ->
    NoDup (Dict.keys (fold_left (fun d k => Dict.set k tt d) ks d)) /\
    forall k, In k (Dict.keys (fold_left (fun d k => Dict.set k tt d) ks d))
              <-> In k (Dict.keys d) \/ In k ks).
  { induction ks as [|k0 ks IH]; intros d Hnd; simpl; [tauto|].
    destruct (IH (Dict.set k0 tt d) (nodup_keys_set k0 tt d Hnd)) as [H1 H2].
    split; auto. intros k. rewrite H2, keys_set. intuition congruence. }
  destruct (H [] (NoDup_nil _)) as [H1 H2]. split; auto.
  intros k. rewrite H2. simpl. tauto.
Qed.

(** [len(dict.fromkeys(ks)) > 1]: two different keys. *)
Lemma fromkeys_two (ks : list string) :
  1 < List.length (Dict.fromkeys ks) <->
  exists x y, In x ks /\ In y ks /\ x <> y.
Proof.
  destruct (fromkeys_keys ks) as [Hnd Hin].
  replace (List.length (Dict.fromkeys ks))
    with (List.length (Dict.keys (Dict.fromkeys ks)))
    by apply length_map.
  rewrite (two_distinct _ Hnd).
  split; intros (x & y & Hx & Hy & Hne); exists x, y.
  - rewrite <- !Hin. auto.
  - rewrite !Hin. auto.
Qed.

End DictFacts.

(** ** [buildconflictmap] *)

Lemma conflict_step_eq (cm : textmap_t) (s : string) (L : list entry) :
  conflict_step cm (s, L) =
  if is_conflict s L then Dict.set (flatten s " ") L cm else cm.
Proof.
  unfold conflict_step, is_conflict.
  destruct (String.length (flatten s " ") <=? 1); simpl; auto.
  destruct (1 <? List.length L); simpl; auto.
Qed.

Lemma is_conflict_spec (s : string) (L : list entry) :
  is_conflict s L = true <->
  1 < String.length (flatten s " ") /\ conflicting L.
Proof.
  unfold is_conflict, conflicting.
  rewrite !andb_true_iff, negb_true_iff, Nat.leb_gt, !Nat.ltb_lt.
  rewrite DictFacts.fromkeys_two.
  split.
  - intros [[H1 H2] (x & y & Hx & Hy & Hne)].
    apply in_map_iff in Hx as (e1 & <- & He1).
    apply in_map_iff in Hy as (e2 & <- & He2).
    repeat split; auto. exists e1, e2. auto.
  - intros [H1 [H2 (e1 & e2 & He1 & He2 & Hne)]].
    repeat split; auto.
    exists (entry_target e1), (entry_target e2).
    repeat split; auto; now apply in_map.
Qed.

Lemma get_fold_conflict (k : string) (items : list (string * list entry))
    (cm : textmap_t) :
  Dict.get k (fold_left conflict_step items cm) =
  fold_left
    (fun found item => if conflict_hit k item then Some (snd item) else found)
    items (Dict.get k cm).
Proof.
  revert cm; induction items as [|[s L] items IH]; intros cm;
    cbn [fold_left]; auto.
  rewrite IH. f_equal. rewrite conflict_step_eq.
  unfold conflict_hit; simpl.
  destruct (is_conflict s L); simpl; auto.
  apply DictFacts.get_set.
Qed.

Lemma fold_no_hit (k : string) (items : list (string * list entry))
    (found : option (list entry)) :
  (forall item, In item items -> conflict_hit k item = false) ->
  fold_left
    (fun found item => if conflict_hit k item then Some (snd item) else found)
    items found = found.
Proof.
  revert found; induction items as [|item items IH]; intros found H; simpl; auto.
  rewrite (H item) by now left.
  apply IH. intros item' Hin. apply H. now right.
Qed.

(** The item processed last among those recorded under a key is the one
    the conflict map holds. *)
Lemma conflictmap_last_wins
    (iteritems : forall V : Type, Dict.t V -> list (string * V))
    (tm : textmap_t) (pre post : list (string * list entry))
    (s : string) (L : list entry) :
  iteritems _ tm = pre ++ (s, L) :: post ->
  is_conflict s L = true ->
  (forall item, In item post -> conflict_hit (flatten s " ") item = false) ->
  Dict.get (flatten s " ") (buildconflictmap iteritems tm) = Some L.
Proof.
  intros Hsplit Hc Hpost. unfold buildconflictmap.
  rewrite get_fold_conflict, Hsplit, fold_left_app. simpl.
  rewrite fold_no_hit by assumption.
  unfold conflict_hit. simpl. now rewrite Hc, String.eqb_refl.
Qed.

Lemma in_fold_conflict (k : string) (L : list entry)
    (items : list (string * list entry)) (cm : textmap_t) :
  In (k, L) (fold_left conflict_step items cm) ->
  In (k, L) cm \/
  exists s, In (s, L) items /\ k = flatten s " " /\ is_conflict s L = true.
Proof.
  revert cm; induction items as [|[s L'] items IH]; intros cm;
    cbn [fold_left]; auto.
  intros H. apply IH in H as [H|(s' & Hin & Hk & Hc)].
  - rewrite conflict_step_eq in H.
    destruct (is_conflict s L') eqn:E; auto.
    apply DictFacts.in_set in H as [[-> ->]|H]; auto.
    right. exists s. simpl. auto.
  - right. exists s'. simpl. auto.
Qed.

Section ConflictMap.

Variable iteritems : forall V : Type, Dict.t V -> list (string * V).
Hypothesis iteritems_perm : forall V (d : Dict.t V), Permutation (iteritems V d) d.

(** Every entry of the conflict map comes from a conflicting key of the
    index that flattens to its key. *)
Lemma conflictmap_sound (tm : textmap_t) (k : string) (L : list entry) :
  In (k, L) (buildconflictmap iteritems tm) ->
  exists s, In (s, L) tm /\ k = flatten s " " /\ is_conflict s L = true.
Proof.
  intros H. apply in_fold_conflict in H as [[]|(s & Hin & Hk & Hc)].
  exists s. repeat split; auto.
  eapply Permutation_in; [apply iteritems_perm|exact Hin].
Qed.

Lemma conflictmap_no_collision (tm : textmap_t) (s : string) (L : list entry) :
  NoDup (Dict.keys tm) ->
  In (s, L) tm ->
  (forall s' L', In (s', L') tm -> flatten s' " " = flatten s " " -> s' = s) ->
  Dict.get (flatten s " ") (buildconflictmap iteritems tm) =
  if is_conflict s L then Some L else None.
Proof.
  intros Hnd Hin Hcol.
  pose proof (iteritems_perm _ tm) as Hperm.
  assert (Hin' : In (s, L) (iteritems _ tm))
    by (eapply Permutation_in; [symmetry; exact Hperm|exact Hin]).
  assert (Hnd' : NoDup (map fst (iteritems _ tm))).
  { eapply Permutation_NoDup; [|exact Hnd].
    symmetry. apply Permutation_map. exact Hperm. }
  apply in_split in Hin' as (pre & post & Hsplit).
  assert (Hother : forall item, In item (pre ++ post) ->
                     conflict_hit (flatten s " ") item = false).
  { intros [s' L'] Hitem. unfold conflict_hit. simpl.
    destruct (String.eqb (flatten s' " ") (flatten s " ")) eqn:E;
      [|apply andb_false_r].
    apply String.eqb_eq in E. exfalso.
    assert (s' = s).
    { apply (Hcol s' L'); auto.
      eapply Permutation_in; [exact Hperm|]. rewrite Hsplit.
      apply in_app_or in Hitem as [?|?]; apply in_or_app; simpl; auto. }
    subst s'. rewrite Hsplit, map_app in Hnd'. simpl in Hnd'.
    apply NoDup_remove_2 in Hnd'. apply Hnd'.
    rewrite <- map_app. change s with (fst (s, L')). now apply in_map. }
  unfold buildconflictmap.
  rewrite get_fold_conflict, Hsplit, fold_left_app. simpl.
  rewrite fold_no_hit
    by (intros item Hitem; apply Hother, in_or_app; auto).
  rewrite fold_no_hit
    by (intros item Hitem; apply Hother, in_or_app; auto).
  unfold conflict_hit. simpl. rewrite String.eqb_refl, andb_true_r.
  reflexivity.
Qed.

(** C1, as amended.  For every key of the index that is the only key with
    its flattened form, the conflict map holds the flattened key with the
    translation list of that key exactly when the flattened key has more
    than one character and the list has more than one entry and two
    different targets; otherwise it holds nothing under the flattened
    key. *)
Theorem conflict_detection (tm : textmap_t) (s : string) (L : list entry) :
  NoDup (Dict.keys tm) ->
  In (s, L) tm ->
  (forall s' L', In (s', L') tm -> flatten s' " " = flatten s " " -> s' = s) ->
  conflict_claim (buildconflictmap iteritems tm) s L.
Proof.
  intros Hnd Hin Hcol. unfold conflict_claim.
  rewrite (conflictmap_no_collision tm s L Hnd Hin Hcol).
  rewrite <- is_conflict_spec.
  destruct (is_conflict s L); split; try split; try congruence; auto.
Qed.

Lemma conflictmap_cluster_key (tm : textmap_t) (source : string)
    (translations : list entry) :
  In (source, translations) (buildconflictmap iteritems tm) ->
  exists w pre post,
    cluster_key source = Ok w /\
    Str.split source = pre ++ w :: post /\
    (forall x, In x pre -> String.length x <= String.length w) /\
    (forall x, In x post -> String.length x < String.length w).
Proof.
  intros H. apply in_fold_conflict in H as [[]|(s & _ & -> & Hc)].
  apply is_conflict_spec in Hc as [Hlen _].
  apply last_item_sort_by_len, split_flatten_not_nil.
  intros E. rewrite E in Hlen. simpl in Hlen. lia.
Qed.

(** C2, as amended.  For every conflicting source in the conflict map the
    re-clustering splits it into its words and takes the longest one as
    the cluster key; among words of the same length it takes the one met
    last from left to right. *)
Theorem cluster_key_longest_last (tm : textmap_t) (source : string)
    (translations : list entry) :
  In (source, translations) (buildconflictmap iteritems tm) ->
  exists w pre post,
    cluster_key source = Ok w /\
    Str.split source = pre ++ w :: post /\
    (forall x, In x pre -> String.length x <= String.length w) /\
    (forall x, In x post -> String.length x < String.length w).
Proof. apply conflictmap_cluster_key. Qed.

End ConflictMap.

Lemma insertion_order_perm (V : Type) (d : Dict.t V) :
  Permutation (insertion_order V d) d.
Proof. apply Permutation_refl. Qed.

Lemma reverse_order_perm (V : Type) (d : Dict.t V) :
  Permutation (reverse_order V d) d.
Proof. symmetry. apply Permutation_rev. Qed.

Lemma conflict_detection_witness :
  NoDup (Dict.keys open_file_index) /\
  In ("Open file", open_file_entries) open_file_index /\
  conflict_claim (buildconflictmap insertion_order open_file_index)
    "Open file" open_file_entries.
Proof.
  assert (Hnd : NoDup (Dict.keys open_file_index))
    by (repeat constructor; simpl; tauto).
  assert (Hin : In ("Open file", open_file_entries) open_file_index)
    by (now left).
  split; [exact Hnd|]. split; [exact Hin|].
  apply (conflict_detection insertion_order insertion_order_perm
           open_file_index "Open file" open_file_entries Hnd Hin).
  intros s' L' [[= <- <-]|[]] _. reflexivity.
Defined.

(** C1 as stated fails when two keys of the index have the same flattened
    form: ["Save as"] and ["Save as:"] are both conflicts, and the conflict
    map holds the list of the second under ["Save as"], not the list of the
    first. *)
Lemma conflict_detection_counterexample :
  built_index (catalogs save_as_fs) same_path default_options ["A.po"; "B.po"]
    = Some save_as_index /\
  In ("Save as", save_as_entries) save_as_index /\
  ~ conflict_claim (buildconflictmap insertion_order save_as_index)
      "Save as" save_as_entries.
Proof.
  split; [reflexivity|]. split; [now left|].
  intros [[_ H] _].
  assert (Hget : Dict.get (flatten "Save as" " ")
                   (buildconflictmap insertion_order save_as_index)
                 = Some save_as_entries).
  { apply H. apply is_conflict_spec. reflexivity. }
  vm_compute in Hget. discriminate.
Qed.

Lemma cluster_key_longest_last_witness :
  In ("Open file", open_file_entries)
     (buildconflictmap insertion_order open_file_index) /\
  exists w pre post,
    cluster_key "Open file" = Ok w /\
    Str.split "Open file" = pre ++ w :: post /\
    (forall x, In x pre -> String.length x <= String.length w) /\
    (forall x, In x post -> String.length x < String.length w).
Proof.
  assert (Hin : In ("Open file", open_file_entries)
                  (buildconflictmap insertion_order open_file_index))
    by (now left).
  split; [exact Hin|].
  exact (cluster_key_longest_last insertion_order open_file_index
           "Open file" open_file_entries Hin).
Defined.

(** C2 as stated fails on a tie: ["Open file"] is a conflicting source whose
    words have the same length, its cluster key is ["file"], the word met
    last, and not ["Open"]. *)
Lemma cluster_key_first_counterexample :
  built_index (catalogs open_file_fs) same_path default_options ["A.po"; "B.po"]
    = Some open_file_index /\
  In ("Open file", open_file_entries)
     (buildconflictmap insertion_order open_file_index) /\
  cluster_key "Open file" = Ok "file" /\
  ~ cluster_key_claim "Open file".
Proof.
  split; [reflexivity|]. split; [now left|]. split; [reflexivity|].
  intros (w & H1 & H2). vm_compute in H1, H2. congruence.
Qed.

(** C10.  Two different cleaned sources that are both conflicts can have the
    same flattened form: ["Save as"] and ["Save as:"].  The conflict map
    then holds one entry, with the translation list of the key processed
    last; the entries of the other key are in no value of the conflict map
    and their units are in no output catalog. *)
Theorem flattened_key_collision_loses_entries :
  built_index (catalogs save_as_fs) same_path default_options ["A.po"; "B.po"]
    = Some save_as_index /\
  "Save as" <> "Save as:" /\
  flatten "Save as" " " = flatten "Save as:" " " /\
  is_conflict "Save as" save_as_entries = true /\
  is_conflict "Save as:" save_as_colon_entries = true /\
  buildconflictmap insertion_order save_as_index
    = [("Save as", save_as_colon_entries)] /\
  buildconflictmap reverse_order save_as_index
    = [("Save as", save_as_entries)] /\
  Forall (fun e => ~ In e (all_entries
                             (buildconflictmap insertion_order save_as_index)))
    save_as_entries /\
  exists out,
    recursiveprocess insertion_order (catalogs save_as_fs) same_path
      fresh_pofile writable default_options ["A.po"; "B.po"] = Ok out /\
    files out =
      [("out/Save.po",
        fresh_pofile ++
        [append_comment (provenance "A.po")
           (translated "Save as:" "Guardar como:");
         append_comment (provenance "B.po")
           (translated "Save as:" "Salvar como:")])] /\
    Forall (fun file => Forall (fun unit => source unit <> "Save as") (snd file))
      (files out).
Proof.
  repeat (split; [first [reflexivity | discriminate]|]).
  split.
  - repeat constructor; vm_compute; intros [H|[H|[]]]; discriminate.
  - eexists. split; [vm_compute; reflexivity|]. split; [reflexivity|].
    repeat constructor; simpl; discriminate.
Qed.

(** ** The ingestion loop *)

Lemma process_inputs_app (parse : string -> result (list pounit))
    (getfullinputpath : string -> string)
    (options : Options) (pre rest : list string) (st : Ingested) :
  process_inputs parse getfullinputpath options (pre ++ rest) st =
  (st' <- process_inputs parse getfullinputpath options pre st ;;
   process_inputs parse getfullinputpath options rest st').
Proof.
  revert st; induction pre as [|path pre IH]; intros st; simpl; auto.
  destruct (processfile parse options (getfullinputpath path)
              (units_heap st) (textmap st)) as [[h tm]|e]; auto.
  destruct (isinstance_Exception e); auto.
  destruct (isinstance_KeyboardInterrupt e); auto.
Qed.

(** C6, as amended.  When reading an input file raises an exception that
    derives from [Exception], a warning that names the file is logged, the
    index is left as it was and the loop goes on with the remaining files.
    When it raises any other exception, a user interrupt in particular,
    the exception leaves the loop at once and ends the run. *)
Theorem per_file_failure_policy (parse : string -> result (list pounit))
    (getfullinputpath : string -> string)
    (options : Options) (pre : list string) (path : string)
    (rest : list string) (st : Ingested) (error : exception) :
  process_inputs parse getfullinputpath options pre nothing_ingested = Ok st ->
  parse (getfullinputpath path) = Raise error ->
  (isinstance_Exception error = true ->
     ingest parse getfullinputpath options (pre ++ path :: rest) =
       process_inputs parse getfullinputpath options rest
         (skip_file st path (getfullinputpath path)) /\
     textmap (skip_file st path (getfullinputpath path)) = textmap st /\
     In ("Error processing: input " ++ getfullinputpath path)%string
        (warnings (skip_file st path (getfullinputpath path)))) /\
  (isinstance_Exception error = false ->
     ingest parse getfullinputpath options (pre ++ path :: rest)
       = Raise error /\
     forall iteritems new_pofile open_write,
       recursiveprocess iteritems parse getfullinputpath new_pofile open_write
         options (pre ++ path :: rest)
       = Raise error) /\
  (error = KeyboardInterrupt ->
     ingest parse getfullinputpath options (pre ++ path :: rest)
       = Raise KeyboardInterrupt /\
     forall iteritems new_pofile open_write,
       recursiveprocess iteritems parse getfullinputpath new_pofile open_write
         options (pre ++ path :: rest)
       = Raise KeyboardInterrupt).
Proof.
  intros Hpre Hparse.
  assert (Hstep :
    ingest parse getfullinputpath options (pre ++ path :: rest) =
    process_inputs parse getfullinputpath options (path :: rest) st).
  { unfold ingest. now rewrite process_inputs_app, Hpre. }
  assert (Hraise : isinstance_Exception error = false ->
            ingest parse getfullinputpath options (pre ++ path :: rest)
              = Raise error /\
            forall iteritems new_pofile open_write,
              recursiveprocess iteritems parse getfullinputpath new_pofile
                open_write options (pre ++ path :: rest)
              = Raise error).
  { intros Hexc.
    assert (E : ingest parse getfullinputpath options (pre ++ path :: rest)
                = Raise error).
    { rewrite Hstep. simpl. unfold processfile. rewrite Hparse. simpl.
      now rewrite Hexc. }
    split; auto. intros iteritems new_pofile open_write.
    unfold recursiveprocess. now rewrite E. }
  split; [|split].
  - intros Hexc. split; [|split].
    + rewrite Hstep. simpl. unfold processfile. rewrite Hparse. simpl.
      rewrite Hexc. now destruct error.
    + reflexivity.
    + simpl. apply in_or_app. right. now left.
  - exact Hraise.
  - intros ->. now apply Hraise.
Qed.

Lemma per_file_failure_policy_witness :
  ingest (catalogs open_file_fs) same_path default_options
    (["A.po"] ++ "C.po" :: ["B.po"])
  = process_inputs (catalogs open_file_fs) same_path default_options ["B.po"]
      (skip_file
         {| units_heap := [translated "Open file" "Abrir archivo"];
            textmap := [("Open file", [("Abrir archivo", 0, "A.po")])];
            warnings := []; progress := [("A.po", None)] |}
         "C.po" (same_path "C.po")).
Proof.
  refine (proj1 (proj1 (per_file_failure_policy (catalogs open_file_fs)
            same_path default_options ["A.po"] "C.po" ["B.po"] _
            (Error "IOError") _ _) _)); reflexivity.
Defined.

(** C6 as stated fails for an exception that is neither a user interrupt
    nor derived from [Exception]: [SystemExit] is not caught, no warning is
    logged and the run ends. *)
Lemma per_file_failure_policy_counterexample :
  ~ failure_policy_claim (fun _ => Raise SystemExit) same_path default_options
      "A.po" [] nothing_ingested SystemExit.
Proof. intros H. specialize (H eq_refl). discriminate H. Qed.

(** ** Invert mode *)

Lemma clean_with_invert (s : string) (b : bool) (options : Options) :
  clean s (with_invert b options) = clean s options.
Proof. reflexivity. Qed.

Lemma index_unit_swap (options : Options) (path : string) (tm : textmap_t)
    (addr : nat) (unit : pounit) :
  index_unit (with_invert false options) path tm addr (swap_fields unit) =
  index_unit (with_invert true options) path tm addr unit.
Proof. reflexivity. Qed.

Lemma index_units_swap (options : Options) (path : string) (addr : nat)
    (units : list pounit) (tm : textmap_t) :
  index_units (with_invert false options) path addr (map swap_fields units) tm =
  index_units (with_invert true options) path addr units tm.
Proof.
  revert addr tm; induction units as [|unit units IH]; intros addr tm;
    cbn [map index_units]; [reflexivity|].
  now rewrite index_unit_swap, IH.
Qed.

Lemma process_inputs_swap (parse : string -> result (list pounit))
    (getfullinputpath : string -> string)
    (options : Options) (inputfiles : list string) (st1 st2 : Ingested) :
  same_index_swapped_units st1 st2 ->
  related_results same_index_swapped_units
    (process_inputs parse getfullinputpath (with_invert true options)
       inputfiles st1)
    (process_inputs (swapped parse) getfullinputpath
       (with_invert false options) inputfiles st2).
Proof.
  revert st1 st2; induction inputfiles as [|path inputfiles IH];
    intros st1 st2 (Htm & Hheap & Hwarn & Hprog); cbn [process_inputs].
  - simpl. repeat split; auto.
  - unfold processfile, swapped.
    destruct (parse (getfullinputpath path)) as [units|e]; simpl.
    + apply IH. repeat split; simpl.
      * rewrite Htm, Hheap, length_map. apply index_units_swap.
      * now rewrite Hheap, map_app.
      * assumption.
      * now rewrite Hprog.
    + destruct (isinstance_Exception e); simpl; auto.
      destruct (isinstance_KeyboardInterrupt e); simpl; auto.
      apply IH. repeat split; simpl; congruence.
Qed.

Lemma heap_update_map (g f : pounit -> pounit) (addr : nat) (h : heap) :
  (forall unit, f (g unit) = g (f unit)) ->
  heap_update addr f (map g h) = map g (heap_update addr f h).
Proof.
  intros Hfg. revert addr; induction h as [|unit h IH]; intros [|addr];
    simpl; auto.
  - now rewrite Hfg.
  - now rewrite IH.
Qed.

Lemma deref_swap (h : heap) (addr : nat) :
  deref (map swap_fields h) addr = swap_fields (deref h addr).
Proof.
  unfold deref. change null_unit with (swap_fields null_unit) at 1.
  apply map_nth.
Qed.

Lemma tag_units_swap (translations : list entry) (h : heap) (units : list nat) :
  tag_units translations (map swap_fields h) units =
  (map swap_fields (fst (tag_units translations h units)),
   snd (tag_units translations h units)).
Proof.
  revert h units; induction translations as [|[[target unit] filename] L IH];
    intros h units; cbn [tag_units]; auto.
  rewrite heap_update_map by reflexivity. apply IH.
Qed.

(** The state of the writing loop in the two runs: the same paths, and after
    the units of a new catalog the same units, swapped in the second. *)
Lemma write_cluster_swap (new_pofile : list pounit)
    (open_write : string -> result unit) (o1 o2 : Options) (h : heap)
    (bodies : list (string * list pounit)) (item : string * list entry) :
  output o2 = output o1 ->
  match write_cluster new_pofile open_write o1
          (h, map (fun body => (fst body, new_pofile ++ snd body)) bodies)
          item,
        write_cluster new_pofile open_write o2
          (map swap_fields h,
           map (fun body => (fst body, new_pofile ++ map swap_fields (snd body)))
             bodies) item with
  | Ok (h1, written1), Ok (h2, written2) =>
      h2 = map swap_fields h1 /\
      exists bodies',
        written1 = map (fun body => (fst body, new_pofile ++ snd body)) bodies' /\
        written2 =
          map (fun body => (fst body, new_pofile ++ map swap_fields (snd body)))
            bodies'
  | Raise e1, Raise e2 => e1 = e2
  | _, _ => False
  end.
Proof.
  intros Hout. destruct item as [source translations].
  unfold write_cluster. rewrite tag_units_swap, Hout.
  destruct (tag_units translations h []) as [h' units]. cbn [fst snd].
  destruct (open_write _) as [[]|e]; cbn [bind]; [|reflexivity].
  split; [reflexivity|].
  exists (bodies ++
          [(os_path_join (output o1)
              (flatten source "-" ++ os_extsep ++ "po")%string,
            map (deref h') units)]).
  rewrite !map_app. cbn [map fst snd]. split; [reflexivity|].
  do 4 f_equal. rewrite map_map. apply map_ext. intros addr. apply deref_swap.
Qed.

Lemma foreach_write_cluster_swap (new_pofile : list pounit)
    (open_write : string -> result unit) (o1 o2 : Options)
    (items : list (string * list entry)) (h : heap)
    (bodies : list (string * list pounit)) :
  output o2 = output o1 ->
  match foreach (write_cluster new_pofile open_write o1) items
          (h, map (fun body => (fst body, new_pofile ++ snd body)) bodies),
        foreach (write_cluster new_pofile open_write o2) items
          (map swap_fields h,
           map (fun body => (fst body, new_pofile ++ map swap_fields (snd body)))
             bodies) with
  | Ok (h1, written1), Ok (h2, written2) =>
      h2 = map swap_fields h1 /\
      exists bodies',
        written1 = map (fun body => (fst body, new_pofile ++ snd body)) bodies' /\
        written2 =
          map (fun body => (fst body, new_pofile ++ map swap_fields (snd body)))
            bodies'
  | Raise e1, Raise e2 => e1 = e2
  | _, _ => False
  end.
Proof.
  intros Hout. revert h bodies; induction items as [|item items IH];
    intros h bodies; cbn [foreach].
  - split; [reflexivity|]. now exists bodies.
  - pose proof (write_cluster_swap new_pofile open_write o1 o2 h bodies item
                  Hout) as H.
    destruct (write_cluster new_pofile open_write o1 _ item)
      as [[h1 written1]|e1],
      (write_cluster new_pofile open_write o2 _ item)
      as [[h2 written2]|e2]; cbn [bind]; try contradiction; auto.
    destruct H as (-> & bodies' & -> & ->). apply IH.
Qed.

Lemma outputconflicts_swap
    (iteritems : forall V : Type, Dict.t V -> list (string * V))
    (new_pofile : list pounit) (open_write : string -> result unit)
    (o1 o2 : Options) (h : heap) (tm cm : textmap_t) :
  output o2 = output o1 ->
  related_results (same_output_swapped_units new_pofile)
    (outputconflicts iteritems new_pofile open_write o1 h tm cm)
    (outputconflicts iteritems new_pofile open_write o2
       (map swap_fields h) tm cm).
Proof.
  intros Hout. unfold outputconflicts.
  destruct (recluster iteritems cm) as [rm|e]; cbn [bind];
    [|reflexivity].
  destruct (reduce_plurals iteritems rm) as [rm'|e]; cbn [bind];
    [|reflexivity].
  pose proof (foreach_write_cluster_swap new_pofile open_write o1 o2
                (iteritems _ rm') h [] Hout) as H.
  cbn [map] in H.
  destruct (foreach (write_cluster new_pofile open_write o1) _ _)
    as [[h1 written1]|e1],
    (foreach (write_cluster new_pofile open_write o2) _ _)
    as [[h2 written2]|e2]; cbn [bind related_results]; try contradiction;
    auto.
  destruct H as (-> & bodies & -> & ->).
  split; [reflexivity|]. split; [|reflexivity]. now exists bodies.
Qed.

(** C8, as amended.  The run with the invert flag and the run without it
    on the catalogs with swapped fields build the same index, entry by
    entry: same keys, same cleaned targets, same unit positions and origin
    paths; they log the same warnings and raise the same exceptions.  The
    units themselves differ: the second run carries the swapped copies of
    the units of the first, in the index and in the output catalogs, which
    otherwise have the same paths and the same order. *)
Theorem invert_equivalence (parse : string -> result (list pounit))
    (getfullinputpath : string -> string)
    (options : Options) (inputfiles : list string) :
  related_results same_index_swapped_units
    (ingest parse getfullinputpath (with_invert true options) inputfiles)
    (ingest (swapped parse) getfullinputpath (with_invert false options)
       inputfiles) /\
  forall iteritems new_pofile open_write,
    related_results (same_output_swapped_units new_pofile)
      (recursiveprocess iteritems parse getfullinputpath new_pofile open_write
         (with_invert true options) inputfiles)
      (recursiveprocess iteritems (swapped parse) getfullinputpath new_pofile
         open_write (with_invert false options) inputfiles).
Proof.
  assert (H : related_results same_index_swapped_units
    (ingest parse getfullinputpath (with_invert true options) inputfiles)
    (ingest (swapped parse) getfullinputpath (with_invert false options)
       inputfiles)).
  { apply process_inputs_swap. repeat split. }
  split; [exact H|]. intros iteritems new_pofile open_write.
  unfold recursiveprocess.
  destruct (ingest parse getfullinputpath (with_invert true options)
              inputfiles) as [st1|e1],
    (ingest (swapped parse) getfullinputpath (with_invert false options)
       inputfiles) as [st2|e2];
    simpl in *; auto; try contradiction.
  destruct H as (Htm & Hheap & _). rewrite Htm, Hheap.
  now apply outputconflicts_swap.
Qed.

(** C8 as stated fails on the units: with the invert flag the index refers
    to the units as they are in the catalog, without it and on the swapped
    catalog it refers to the swapped units. *)
Lemma invert_equivalence_counterexample :
  ~ invert_claim (catalogs open_file_fs) same_path default_options ["A.po"].
Proof. unfold invert_claim. vm_compute. discriminate. Qed.

(** ** Folding plurals *)

Lemma mem_keys {V : Type} (k : string) (d : Dict.t V) :
  Dict.mem k d = true <-> In k (Dict.keys d).
Proof.
  unfold Dict.mem. destruct (Dict.get k d) eqn:E.
  - split; auto. intros _. apply DictFacts.get_in in E.
    change k with (fst (k, v)). now apply in_map.
  - apply DictFacts.get_none in E. split; [discriminate|tauto].
Qed.

Lemma permutation_3 {A : Type} (a b c : A) (l : list A) :
  Permutation l [a; b; c] ->
  l = [a; b; c] \/ l = [a; c; b] \/ l = [b; a; c] \/
  l = [b; c; a] \/ l = [c; a; b] \/ l = [c; b; a].
Proof.
  intros H. destruct l as [|x l]; [now apply Permutation_nil in H|].
  assert (Hx : In x [a; b; c]) by (eapply Permutation_in; [exact H|now left]).
  destruct Hx as [<-|[<-|[<-|[]]]].
  - apply Permutation_cons_inv in H. symmetry in H.
    apply Permutation_length_2_inv in H as [->| ->]; auto.
  - apply (Permutation_cons_app_inv [a] [c]) in H. symmetry in H.
    apply Permutation_length_2_inv in H as [->| ->]; simpl; auto 6.
  - apply (Permutation_cons_app_inv [a; b] []) in H. symmetry in H.
    apply Permutation_length_2_inv in H as [->| ->]; simpl; auto 7.
Qed.

Section Plurals.

Variable iteritems : forall V : Type, Dict.t V -> list (string * V).
Hypothesis iteritems_perm : forall V (d : Dict.t V), Permutation (iteritems V d) d.

Lemma iteritems_single {V : Type} (item : string * V) :
  iteritems V [item] = [item].
Proof.
  apply Permutation_length_1_inv. symmetry. apply iteritems_perm.
Qed.

Lemma find_plurals_single_pair (rm : textmap_t) (w : string) :
  In w (Dict.keys rm) ->
  Dict.mem (w ++ "s")%string rm = true ->
  (forall x, Dict.mem x rm = true -> Dict.mem (x ++ "s")%string rm = true ->
             x = w) ->
  find_plurals iteritems rm = [(w, (w ++ "s")%string)].
Proof.
  intros Hw Hws Honly. unfold find_plurals.
  assert (Hwords : forall x, In x (map fst (iteritems _ rm)) ->
                             In x (Dict.keys rm)).
  { intros x. apply Permutation_in, Permutation_map, iteritems_perm. }
  assert (Hin : In w (map fst (iteritems _ rm))).
  { revert Hw. apply Permutation_in, Permutation_map.
    symmetry. apply iteritems_perm. }
  set (p := (w, (w ++ "s")%string)).
  assert (H : forall words plurals,
    (forall x, In x words -> In x (Dict.keys rm)) ->
    plurals = [] \/ plurals = [p] ->
    (In w words \/ plurals = [p]) ->
    fold_left (plurals_step rm) words plurals = [p]).
  { induction words as [|x words IH]; intros plurals Hsub Hpl Hfile.
    - simpl. destruct Hfile as [[]|]; assumption.
    - cbn [fold_left]. apply IH.
      + intros y Hy. apply Hsub. now right.
      + unfold plurals_step.
        destruct (Dict.mem (x ++ "s")%string rm) eqn:E; auto.
        rewrite (Honly x) by (auto; apply mem_keys, Hsub; now left).
        right. destruct Hpl as [-> | ->]; simpl; auto.
        now rewrite String.eqb_refl.
      + unfold plurals_step.
        destruct (Dict.mem (x ++ "s")%string rm) eqn:E.
        * right.
          rewrite (Honly x) by (auto; apply mem_keys, Hsub; now left).
          destruct Hpl as [-> | ->]; simpl; auto.
          now rewrite String.eqb_refl.
        * destruct Hfile as [[<-|Hfile]|Hfile]; auto. congruence. }
  apply H; auto.
Qed.

(** C9.  When ["file"] and ["files"] are cluster keys and are the only
    singular and plural pair of the reduced map, the folding ends with the
    key ["file"] holding its list followed by the list of ["files"], the
    key ["files"] is gone and every other key is as it was. *)
Theorem plural_folding_file_files (rm : textmap_t) (L1 L2 : list entry) :
  Dict.get "file" rm = Some L1 ->
  Dict.get "files" rm = Some L2 ->
  (forall w, Dict.mem w rm = true -> Dict.mem (w ++ "s")%string rm = true ->
             w = "file") ->
  exists rm',
    reduce_plurals iteritems rm = Ok rm' /\
    Dict.get "file" rm' = Some (L1 ++ L2) /\
    Dict.get "files" rm' = None /\
    (forall k, k <> "file" -> k <> "files" -> Dict.get k rm' = Dict.get k rm).
Proof.
  intros H1 H2 Honly.
  exists (Dict.set "file" (L1 ++ L2) (Dict.remove "files" rm)).
  split; [|split; [|split]].
  - unfold reduce_plurals.
    rewrite (find_plurals_single_pair rm "file").
    + rewrite iteritems_single. simpl. now rewrite H1, H2.
    + apply DictFacts.get_in in H1.
      change "file" with (fst ("file", L1)). now apply in_map.
    + unfold Dict.mem. simpl. now rewrite H2.
    + exact Honly.
  - apply DictFacts.get_set_same.
  - rewrite DictFacts.get_set_other by discriminate.
    rewrite DictFacts.get_remove. now rewrite String.eqb_refl.
  - intros k Hk1 Hk2.
    rewrite DictFacts.get_set_other by congruence.
    rewrite DictFacts.get_remove.
    destruct (String.eqb "files" k) eqn:E; auto.
    apply String.eqb_eq in E. congruence.
Qed.

(** C3, on the chain of plurals ["care"], ["cares"], ["caress"].  Whatever
    the order in which the dictionaries are visited, the folding either
    stops with a [KeyError] for ["cares"], which the merge of ["care"] has
    removed, or chains the three lists under ["care"]. *)
Theorem plural_chain_breaks_folding :
  reduce_plurals iteritems caress_map = Raise (KeyError "cares") \/
  reduce_plurals iteritems caress_map =
    Ok [("care",
         [("cuidado", 0, "A.po"); ("atencion", 3, "B.po");
          ("cuidados", 1, "A.po"); ("penas", 4, "B.po");
          ("caricia", 2, "A.po"); ("acariciar", 5, "B.po")])].
Proof.
  unfold reduce_plurals, find_plurals.
  pose proof (iteritems_perm _ caress_map) as H3.
  apply permutation_3 in H3.
  assert (Hp : fold_left (plurals_step caress_map)
                 (map fst (iteritems _ caress_map)) []
               = [("care", "cares"); ("cares", "caress")] \/
               fold_left (plurals_step caress_map)
                 (map fst (iteritems _ caress_map)) []
               = [("cares", "caress"); ("care", "cares")]).
  { destruct H3 as [E|[E|[E|[E|[E|E]]]]]; rewrite E; vm_compute; auto. }
  destruct Hp as [E|E]; rewrite E;
    match goal with
    | |- context [iteritems _ ?d] =>
        pose proof (iteritems_perm _ d) as H2; symmetry in H2;
        apply Permutation_length_2_inv in H2 as [-> | ->]
    end; vm_compute; auto.
Qed.

End Plurals.

Lemma plural_folding_file_files_witness :
  exists rm',
    reduce_plurals insertion_order file_files_map = Ok rm' /\
    Dict.get "file" rm' =
      Some ([("archivo", 0, "A.po"); ("fichero", 2, "B.po")] ++
            [("archivos", 1, "A.po"); ("ficheros", 3, "B.po")]) /\
    Dict.get "files" rm' = None /\
    (forall k, k <> "file" -> k <> "files" ->
               Dict.get k rm' = Dict.get k file_files_map).
Proof.
  apply (plural_folding_file_files insertion_order insertion_order_perm
           file_files_map); try reflexivity.
  intros w Hw Hs. apply mem_keys in Hw, Hs. simpl in Hw, Hs.
  destruct Hw as [<-|[<-|[]]]; auto.
  exfalso. destruct Hs as [Hs|[Hs|[]]]; discriminate Hs.
Defined.

Lemma plural_chain_breaks_folding_witness :
  reduce_plurals insertion_order caress_map = Raise (KeyError "cares") \/
  reduce_plurals insertion_order caress_map =
    Ok [("care",
         [("cuidado", 0, "A.po"); ("atencion", 3, "B.po");
          ("cuidados", 1, "A.po"); ("penas", 4, "B.po");
          ("caricia", 2, "A.po"); ("acariciar", 5, "B.po")])].
Proof.
  exact (plural_chain_breaks_folding insertion_order insertion_order_perm).
Defined.

(** The chain comes from real catalogs, and the run on them, with the
    dictionaries visited in insertion order, ends with the [KeyError]. *)
Lemma plural_chain_run :
  built_index (catalogs caress_fs) same_path default_options ["A.po"; "B.po"]
    = Some caress_map /\
  recluster insertion_order (buildconflictmap insertion_order caress_map)
    = Ok caress_map /\
  recursiveprocess insertion_order (catalogs caress_fs) same_path
    fresh_pofile writable default_options ["A.po"; "B.po"]
    = Raise (KeyError "cares").
Proof. repeat split; reflexivity. Qed.

(** ** The entries of a map *)

Lemma all_entries_cons (k : string) (l : list entry) (d : textmap_t) :
  all_entries ((k, l) :: d) = l ++ all_entries d.
Proof. reflexivity. Qed.

(** [d.setdefault(k, []).extend(l)] adds the entries of [l]. *)
Lemma all_entries_extend (k : string) (l : list entry) (d : textmap_t) :
  Permutation
    (all_entries
       (Dict.set k (match Dict.get k d with Some x => x | None => [] end ++ l) d))
    (all_entries d ++ l).
Proof.
  induction d as [|[k' v'] d IH]; simpl.
  - unfold all_entries. simpl. now rewrite app_nil_r.
  - destruct (String.eqb k k'); rewrite !all_entries_cons.
    + rewrite <- !app_assoc. apply Permutation_app_head, Permutation_app_comm.
    + rewrite <- app_assoc. now apply Permutation_app_head.
Qed.

(** [d[k] = l] adds the entries of [l] and drops those [k] held. *)
Lemma all_entries_set (k : string) (l : list entry) (d : textmap_t) :
  exists dropped,
    Permutation (dropped ++ all_entries (Dict.set k l d)) (all_entries d ++ l).
Proof.
  induction d as [|[k' v'] d [dropped IH]]; simpl.
  - exists []. unfold all_entries. simpl. now rewrite app_nil_r.
  - destruct (String.eqb k k'); rewrite !all_entries_cons.
    + exists v'. rewrite <- app_assoc.
      apply Permutation_app_head, Permutation_app_comm.
    + exists dropped. rewrite <- app_assoc.
      etransitivity; [apply Permutation_app_swap_app|].
      now apply Permutation_app_head.
Qed.

Lemma remove_absent {V : Type} (k : string) (d : Dict.t V) :
  ~ In k (Dict.keys d) -> Dict.remove k d = d.
Proof.
  induction d as [|[k' v'] d IH]; simpl; auto.
  intros H. destruct (String.eqb k k') eqn:E.
  - apply String.eqb_eq in E. subst. exfalso. apply H. now left.
  - rewrite IH; tauto.
Qed.

(** [d.pop(k)] takes the entries of [k] out and nothing else. *)
Lemma all_entries_remove (k : string) (l : list entry) (d : textmap_t) :
  NoDup (Dict.keys d) ->
  Dict.get k d = Some l ->
  Permutation (l ++ all_entries (Dict.remove k d)) (all_entries d).
Proof.
  induction d as [|[k' v'] d IH]; simpl; [discriminate|].
  intros Hnd. inversion Hnd as [|? ? Hk Hnd']; subst.
  destruct (String.eqb k k') eqn:E.
  - apply String.eqb_eq in E. subst k'. intros [= ->].
    now rewrite remove_absent.
  - intros Hget. rewrite !all_entries_cons.
    etransitivity; [apply Permutation_app_swap_app|].
    now apply Permutation_app_head, IH.
Qed.

Lemma all_entries_items (items d : textmap_t) :
  Permutation items d ->
  Permutation (List.concat (map snd items)) (all_entries d).
Proof.
  intros H. unfold all_entries, Dict.values.
  rewrite <- !flat_map_concat_map. now apply Permutation_flat_map.
Qed.

(** ** The units of the index *)


Lemma index_unit_entries (options : Options) (path : string) (tm : textmap_t)
    (addr : nat) (unit : pounit) :
  let tm' := index_unit options path tm addr unit in
  (NoDup (Dict.keys tm) -> NoDup (Dict.keys tm')) /\
  exists new,
    Permutation (all_entries tm') (all_entries tm ++ new) /\
    (new = [] \/ exists tgt, new = [(tgt, addr, path)]).
Proof.
  unfold index_unit.
  destruct (isheader unit || negb (istranslated unit));
    [split; auto; exists []; rewrite app_nil_r; auto|].
  destruct (hasplural unit);
    [split; auto; exists []; rewrite app_nil_r; auto|].
  destruct (if negb (invert options)
            then (clean (source unit) options, clean (target unit) options)
            else (clean (target unit) options, clean (source unit) options))
    as [src tgt].
  split; [apply DictFacts.nodup_keys_set|].
  exists [(tgt, addr, path)]. split; [apply all_entries_extend|eauto].
Qed.

Lemma index_units_entries (options : Options) (path : string) (addr : nat)
    (units : list pounit) (tm : textmap_t) :
  let tm' := index_units options path addr units tm in
  (NoDup (Dict.keys tm) -> NoDup (Dict.keys tm')) /\
  exists new,
    Permutation (all_entries tm') (all_entries tm ++ new) /\
    NoDup (map entry_unit new) /\
    forall e, In e new ->
      entry_filename e = path /\
      addr <= entry_unit e < addr + List.length units.
Proof.
  revert addr tm; induction units as [|unit units IH]; intros addr tm;
    cbn [index_units].
  - split; auto. exists []. rewrite app_nil_r.
    split; [reflexivity|]. split; [constructor|intros ? []].
  - destruct (index_unit_entries options path tm addr unit)
      as [Hk (new1 & Hp1 & Hnew1)].
    destruct (IH (S addr) (index_unit options path tm addr unit))
      as [Hk' (new2 & Hp2 & Hnd2 & Hnew2)].
    split; [auto|].
    exists (new1 ++ new2). split; [|split].
    + rewrite Hp2, Hp1. now rewrite app_assoc.
    + destruct Hnew1 as [->|[tgt ->]]; simpl; auto.
      constructor; auto. intros Hin.
      apply in_map_iff in Hin as (e & He & Hin).
      apply Hnew2 in Hin as [_ Hin]. unfold entry_unit in *. simpl in He. lia.
    + intros e Hin. apply in_app_or in Hin as [Hin|Hin].
      * destruct Hnew1 as [->|[tgt ->]]; [destruct Hin|].
        destruct Hin as [<-|[]]. unfold entry_filename, entry_unit. simpl.
        split; [reflexivity|lia].
      * apply Hnew2 in Hin as [Hfile Hrange]. cbn [List.length].
        split; [assumption|lia].
Qed.

Lemma deref_app_old (h units : heap) (addr : nat) :
  addr < List.length h -> deref (h ++ units) addr = deref h addr.
Proof. intros H. unfold deref. now apply app_nth1. Qed.

Lemma deref_app_new (h units : heap) (addr : nat) :
  List.length h <= addr < List.length h + List.length units ->
  In (deref (h ++ units) addr) units.
Proof.
  intros H. unfold deref. rewrite app_nth2 by lia. apply nth_In. lia.
Qed.

Lemma processfile_wf (parse : string -> result (list pounit))
    (inputfiles : list string) (options : Options) (path : string)
    (h h' : heap) (tm tm' : textmap_t) :
  In path inputfiles ->
  index_wf parse inputfiles h tm ->
  processfile parse options path h tm = Ok (h', tm') ->
  index_wf parse inputfiles h' tm'.
Proof.
  intros Hpath (Hkeys & Haddr & Hent). unfold processfile.
  destruct (parse path) as [units|e] eqn:Hparse; [|discriminate].
  simpl. intros [= <- <-].
  destruct (index_units_entries options path (List.length h) units tm)
    as [Hk (new & Hperm & Hnd & Hnew)].
  split; [auto|]. split.
  - unfold addresses. eapply Permutation_NoDup.
    + symmetry. apply Permutation_map. exact Hperm.
    + rewrite map_app. apply NoDup_app; auto.
      intros a Hold Hnew'.
      apply in_map_iff in Hold as (e1 & <- & He1).
      apply in_map_iff in Hnew' as (e2 & Heq & He2).
      apply Hent in He1 as [Hlt _]. apply Hnew in He2 as [_ Hge]. lia.
  - intros e He. eapply Permutation_in in He; [|exact Hperm].
    rewrite length_app. apply in_app_or in He as [He|He].
    + apply Hent in He as [Hlt Hfrom]. split; [lia|].
      now rewrite deref_app_old.
    + apply Hnew in He as [Hfile Hrange]. split; [lia|].
      rewrite Hfile. split; auto. exists units. split; auto.
      now apply deref_app_new.
Qed.

Lemma process_inputs_wf (parse : string -> result (list pounit))
    (getfullinputpath : string -> string)
    (fullinputpaths : list string) (options : Options) (paths : list string)
    (st st' : Ingested) :
  incl (map getfullinputpath paths) fullinputpaths ->
  index_wf parse fullinputpaths (units_heap st) (textmap st) ->
  process_inputs parse getfullinputpath options paths st = Ok st' ->
  index_wf parse fullinputpaths (units_heap st') (textmap st').
Proof.
  revert st; induction paths as [|path paths IH]; intros st Hincl Hwf;
    cbn [process_inputs].
  - now intros [= <-].
  - assert (Hpath : In (getfullinputpath path) fullinputpaths)
      by (apply Hincl; now left).
    assert (Hincl' : incl (map getfullinputpath paths) fullinputpaths)
      by (intros x Hx; apply Hincl; now right).
    destruct (processfile parse options (getfullinputpath path)
                (units_heap st) (textmap st)) as [[h tm]|e] eqn:E.
    + apply IH; auto. simpl. eapply processfile_wf; eauto.
    + destruct (isinstance_Exception e); [|discriminate].
      destruct (isinstance_KeyboardInterrupt e); [discriminate|].
      apply IH; auto.
Qed.

Lemma ingest_wf (parse : string -> result (list pounit))
    (getfullinputpath : string -> string)
    (options : Options) (inputfiles : list string) (st : Ingested) :
  ingest parse getfullinputpath options inputfiles = Ok st ->
  index_wf parse (map getfullinputpath inputfiles)
    (units_heap st) (textmap st).
Proof.
  apply process_inputs_wf; [apply incl_refl|].
  split; [constructor|]. split; [constructor|]. intros ? [].
Qed.

(** ** The entries through the pipeline *)

Lemma conflict_step_entries (cm : textmap_t) (item : string * list entry) :
  exists dropped,
    Permutation (dropped ++ all_entries (conflict_step cm item))
      (all_entries cm ++ snd item).
Proof.
  destruct item as [s L]. rewrite conflict_step_eq. simpl.
  destruct (is_conflict s L).
  - apply all_entries_set.
  - exists L. apply Permutation_app_comm.
Qed.

Lemma fold_conflict_entries (items : list (string * list entry))
    (cm : textmap_t) :
  exists dropped,
    Permutation (dropped ++ all_entries (fold_left conflict_step items cm))
      (all_entries cm ++ List.concat (map snd items)).
Proof.
  revert cm; induction items as [|item items IH]; intros cm; cbn [fold_left].
  - exists []. simpl. now rewrite app_nil_r.
  - destruct (conflict_step_entries cm item) as [d1 H1].
    destruct (IH (conflict_step cm item)) as [d2 H2].
    exists (d1 ++ d2). cbn [map List.concat].
    rewrite <- app_assoc, H2, !app_assoc. now rewrite H1.
Qed.

Lemma recluster_step_entries (rm rm' : textmap_t) (item : string * list entry) :
  recluster_step rm item = Ok rm' ->
  Permutation (all_entries rm') (all_entries rm ++ snd item) /\
  (NoDup (Dict.keys rm) -> NoDup (Dict.keys rm')).
Proof.
  destruct item as [source translations]. unfold recluster_step.
  destruct (cluster_key source) as [w|e]; [|discriminate].
  simpl. intros [= <-]. split.
  - apply all_entries_extend.
  - apply DictFacts.nodup_keys_set.
Qed.

Lemma foreach_recluster_entries (items : list (string * list entry))
    (rm rm' : textmap_t) :
  foreach recluster_step items rm = Ok rm' ->
  Permutation (all_entries rm') (all_entries rm ++ List.concat (map snd items))
  /\ (NoDup (Dict.keys rm) -> NoDup (Dict.keys rm')).
Proof.
  revert rm; induction items as [|item items IH]; intros rm; cbn [foreach].
  - intros [= <-]. simpl. now rewrite app_nil_r.
  - destruct (recluster_step rm item) as [rm1|e] eqn:E; [|discriminate].
    cbn [bind]. intros H.
    apply recluster_step_entries in E as [E1 E2].
    apply IH in H as [H1 H2]. split; [|auto].
    cbn [map List.concat]. now rewrite H1, E1, app_assoc.
Qed.

Lemma foreach_recluster_total (items : list (string * list entry))
    (rm : textmap_t) :
  (forall item, In item items -> exists w, cluster_key (fst item) = Ok w) ->
  exists rm', foreach recluster_step items rm = Ok rm'.
Proof.
  revert rm; induction items as [|[source translations] items IH];
    intros rm H; cbn [foreach]; eauto.
  destruct (H (source, translations)) as [w Hw]; [now left|].
  unfold recluster_step at 1. simpl in Hw. rewrite Hw. cbn [bind].
  apply IH. intros item Hitem. apply H. now right.
Qed.

Lemma find_plurals_items
    (iteritems : forall V : Type, Dict.t V -> list (string * V))
    (rm : textmap_t) (w p : string) :
  In (w, p) (find_plurals iteritems rm) -> p = (w ++ "s")%string.
Proof.
  unfold find_plurals.
  assert (H : forall words plurals,
    (forall w p, In (w, p) plurals -> p = (w ++ "s")%string) ->
    forall w p, In (w, p) (fold_left (plurals_step rm) words plurals) ->
                p = (w ++ "s")%string).
  { induction words as [|x words IH]; intros plurals Hpl; cbn [fold_left];
      auto.
    apply IH. unfold plurals_step.
    destruct (Dict.mem (x ++ "s")%string rm); auto.
    intros w' p' Hin. apply DictFacts.in_set in Hin as [[-> ->]|Hin]; auto. }
  apply H. intros ? ? [].
Qed.

Lemma append_s_neq (w : string) : w <> (w ++ "s")%string.
Proof.
  intros H. apply (f_equal String.length) in H.
  rewrite StrFacts.length_append in H. simpl in H. lia.
Qed.

Lemma merge_plural_entries (rm rm' : textmap_t) (w p : string) :
  NoDup (Dict.keys rm) -> w <> p ->
  merge_plural rm (w, p) = Ok rm' ->
  Permutation (all_entries rm') (all_entries rm) /\ NoDup (Dict.keys rm').
Proof.
  intros Hnd Hne. unfold merge_plural.
  destruct (Dict.get w rm) as [l|] eqn:Hw; [|discriminate].
  destruct (Dict.get p rm) as [popped|] eqn:Hp; [|discriminate].
  intros [= <-]. split.
  - assert (Hw' : Dict.get w (Dict.remove p rm) = Some l).
    { rewrite DictFacts.get_remove.
      destruct (String.eqb p w) eqn:E; auto.
      apply String.eqb_eq in E. congruence. }
    pose proof (all_entries_extend w popped (Dict.remove p rm)) as H.
    rewrite Hw' in H. rewrite H.
    rewrite Permutation_app_comm. now apply all_entries_remove.
  - now apply DictFacts.nodup_keys_set, DictFacts.nodup_keys_remove.
Qed.

Lemma foreach_merge_entries (items : list (string * string))
    (rm rm' : textmap_t) :
  NoDup (Dict.keys rm) ->
  (forall w p, In (w, p) items -> w <> p) ->
  foreach merge_plural items rm = Ok rm' ->
  Permutation (all_entries rm') (all_entries rm) /\ NoDup (Dict.keys rm').
Proof.
  revert rm; induction items as [|[w p] items IH]; intros rm Hnd Hne;
    cbn [foreach].
  - intros [= <-]. auto.
  - destruct (merge_plural rm (w, p)) as [rm1|e] eqn:E; [|discriminate].
    cbn [bind]. intros H.
    apply merge_plural_entries in E as [E1 E2]; auto;
      [|apply Hne; now left].
    apply IH in H as [H1 H2]; auto.
    + split; auto. now rewrite H1.
    + intros w' p' Hin. apply Hne. now right.
Qed.

Section Entries.

Variable iteritems : forall V : Type, Dict.t V -> list (string * V).
Hypothesis iteritems_perm : forall V (d : Dict.t V), Permutation (iteritems V d) d.

(** The entries of the conflict map are entries of the index, each at most
    as often. *)
Lemma conflictmap_entries (tm : textmap_t) :
  exists dropped,
    Permutation (dropped ++ all_entries (buildconflictmap iteritems tm))
      (all_entries tm).
Proof.
  destruct (fold_conflict_entries (iteritems _ tm) []) as [dropped H].
  exists dropped. unfold buildconflictmap. rewrite H. simpl.
  apply all_entries_items, iteritems_perm.
Qed.

(** The first loop of [outputconflicts] ends normally on a conflict map
    and keeps every entry, once. *)
Lemma recluster_entries (tm : textmap_t) :
  exists rm,
    recluster iteritems (buildconflictmap iteritems tm) = Ok rm /\
    Permutation (all_entries rm) (all_entries (buildconflictmap iteritems tm))
    /\ NoDup (Dict.keys rm).
Proof.
  set (cm := buildconflictmap iteritems tm).
  destruct (foreach_recluster_total (iteritems _ cm) []) as [rm Hrm].
  { intros [source translations] Hin.
    eapply Permutation_in in Hin; [|apply iteritems_perm].
    destruct (conflictmap_cluster_key iteritems tm source translations Hin)
      as (w & _ & _ & Hw & _).
    exists w. exact Hw. }
  exists rm. split; [exact Hrm|].
  apply foreach_recluster_entries in Hrm as [H1 H2]. split.
  - rewrite H1. simpl. apply all_entries_items, iteritems_perm.
  - apply H2. constructor.
Qed.

Lemma reduce_plurals_entries (rm rm' : textmap_t) :
  NoDup (Dict.keys rm) ->
  reduce_plurals iteritems rm = Ok rm' ->
  Permutation (all_entries rm') (all_entries rm) /\ NoDup (Dict.keys rm').
Proof.
  intros Hnd. apply foreach_merge_entries; auto.
  intros w p Hin.
  eapply Permutation_in in Hin; [|apply iteritems_perm].
  apply find_plurals_items in Hin. subst p. apply append_s_neq.
Qed.

End Entries.

(** ** Writing the output catalogs *)

Lemma nodup_app_disjoint {A : Type} (l1 l2 : list A) (a : A) :
  NoDup (l1 ++ l2) -> In a l1 -> In a l2 -> False.
Proof.
  induction l1 as [|x l1 IH]; simpl; [tauto|].
  intros Hnd [->|H1] H2; inversion Hnd as [|? ? Hx Hnd']; subst.
  - apply Hx, in_or_app. now right.
  - now apply IH.
Qed.

Lemma length_heap_update (addr : nat) (f : pounit -> pounit) (h : heap) :
  List.length (heap_update addr f h) = List.length h.
Proof.
  revert addr; induction h as [|unit h IH]; intros [|addr]; simpl; auto.
Qed.

Lemma deref_update_same (addr : nat) (f : pounit -> pounit) (h : heap) :
  addr < List.length h -> deref (heap_update addr f h) addr = f (deref h addr).
Proof.
  revert addr; induction h as [|unit h IH]; intros [|addr]; simpl;
    try lia; auto.
  intros H. apply IH. lia.
Qed.

Lemma deref_update_other (addr addr' : nat) (f : pounit -> pounit) (h : heap) :
  addr <> addr' -> deref (heap_update addr f h) addr' = deref h addr'.
Proof.
  revert addr addr'; induction h as [|unit h IH]; intros [|addr] [|addr'];
    simpl; auto; try congruence.
  intros H. apply IH. congruence.
Qed.

Lemma tag_units_collected (translations : list entry) (h : heap)
    (units : list nat) :
  snd (tag_units translations h units) = units ++ map entry_unit translations.
Proof.
  revert h units; induction translations as [|[[target unit] filename] L IH];
    intros h units; cbn [tag_units].
  - simpl. now rewrite app_nil_r.
  - rewrite IH, <- app_assoc. reflexivity.
Qed.

Lemma tag_units_length (translations : list entry) (h : heap)
    (units : list nat) :
  List.length (fst (tag_units translations h units)) = List.length h.
Proof.
  revert h units; induction translations as [|[[target unit] filename] L IH];
    intros h units; cbn [tag_units]; auto.
  now rewrite IH, length_heap_update.
Qed.

Lemma tag_units_other (translations : list entry) (h : heap)
    (units : list nat) (addr : nat) :
  ~ In addr (map entry_unit translations) ->
  deref (fst (tag_units translations h units)) addr = deref h addr.
Proof.
  revert h units; induction translations as [|[[target unit] filename] L IH];
    intros h units Hnot; cbn [tag_units]; auto.
  rewrite IH by (intros H; apply Hnot; now right).
  apply deref_update_other. intros ->. apply Hnot. now left.
Qed.

(** A unit that is tagged once carries the comment of its entry. *)
Lemma tag_units_tagged (translations : list entry) (h : heap)
    (units : list nat) (e : entry) :
  NoDup (map entry_unit translations) ->
  In e translations ->
  entry_unit e < List.length h ->
  deref (fst (tag_units translations h units)) (entry_unit e) =
  append_comment (provenance (entry_filename e)) (deref h (entry_unit e)).
Proof.
  revert h units; induction translations as [|[[target unit] filename] L IH];
    intros h units Hnd Hin Hlt; [destruct Hin|].
  cbn [tag_units]. cbn [map] in Hnd.
  inversion Hnd as [|? ? Hfresh Hnd']; subst.
  destruct Hin as [<-|Hin].
  - change (entry_unit (target, unit, filename)) with unit in *.
    rewrite (tag_units_other L _ _ unit Hfresh).
    now apply deref_update_same.
  - rewrite IH; auto; [|now rewrite length_heap_update].
    f_equal. apply deref_update_other.
    intros Heq. apply Hfresh.
    change (entry_unit (target, unit, filename)) with unit.
    rewrite Heq. now apply in_map.
Qed.

(** One step of the last loop that ends normally: the units are tagged,
    the file is opened, and the new catalog with the tagged units goes to
    the path of the cluster. *)
Lemma write_cluster_ok (new_pofile : list pounit)
    (open_write : string -> result unit) (options : Options) (h h' : heap)
    (written written' : list (string * list pounit)) (source : string)
    (translations : list entry) :
  write_cluster new_pofile open_write options (h, written)
    (source, translations) = Ok (h', written') ->
  open_write (cluster_path options source) = Ok tt /\
  h' = fst (tag_units translations h []) /\
  written' =
    written ++
    [(cluster_path options source,
      new_pofile ++ map (deref h') (map entry_unit translations))].
Proof.
  unfold write_cluster, cluster_path.
  pose proof (tag_units_collected translations h []) as Hunits.
  destruct (tag_units translations h []) as [h1 units]. cbn [fst snd] in *.
  simpl in Hunits. subst units.
  destruct (open_write _) as [[]|e]; cbn [bind]; [|discriminate].
  intros [= <- <-]. auto.
Qed.


Lemma append_comment_traced (parse : string -> result (list pounit))
    (fullinputpaths : list string) (path : string) (unit0 : pounit) :
  from_input parse fullinputpaths path unit0 ->
  traced parse fullinputpaths (append_comment (provenance path) unit0).
Proof.
  intros H. exists path, unit0. split; [exact H|].
  unfold append_comment, provenance. cbn. repeat split; reflexivity.
Qed.

Section Provenance.

Variable parse : string -> result (list pounit).
Variable fullinputpaths : list string.
Variable new_pofile : list pounit.
Variable open_write : string -> result unit.

Lemma foreach_write_cluster_traced (options : Options)
    (items : list (string * list entry)) (h h' : heap)
    (written written' : list (string * list pounit)) :
  NoDup (map entry_unit (List.concat (map snd items))) ->
  (forall e, In e (List.concat (map snd items)) ->
     entry_unit e < List.length h /\
     from_input parse fullinputpaths (entry_filename e)
       (deref h (entry_unit e))) ->
  Forall (fun file =>
            exists units, added_units new_pofile file units /\
                          Forall (traced parse fullinputpaths) units) written ->
  foreach (write_cluster new_pofile open_write options) items (h, written)
    = Ok (h', written') ->
  Forall (fun file =>
            exists units, added_units new_pofile file units /\
                          Forall (traced parse fullinputpaths) units) written'.
Proof.
  revert h written; induction items as [|[source L] items IH];
    intros h written Hnd Hent Hwritten; cbn [foreach].
  { now intros [= <- <-]. }
  cbn [map List.concat snd] in Hnd, Hent.
  rewrite map_app in Hnd.
  destruct (write_cluster new_pofile open_write options (h, written)
              (source, L)) as [[h1 written1]|e] eqn:E; cbn [bind];
    [|discriminate].
  apply write_cluster_ok in E as (_ & Hh1 & Hw1).
  pose proof (tag_units_length L h []) as Hlen.
  pose proof (tag_units_other L h []) as Hother.
  pose proof (tag_units_tagged L h []) as Htagged.
  rewrite <- Hh1 in Hlen, Hother, Htagged.
  apply IH.
  - now apply NoDup_app_remove_l in Hnd.
  - intros e He.
    assert (Hnot : ~ In (entry_unit e) (map entry_unit L)).
    { intros Hin. apply (nodup_app_disjoint _ _ (entry_unit e) Hnd Hin).
      now apply in_map. }
    rewrite Hlen, (Hother _ Hnot).
    apply Hent, in_or_app. now right.
  - rewrite Hw1. apply Forall_app. split; auto.
    repeat constructor.
    exists (map (deref h1) (map entry_unit L)). split; [reflexivity|].
    apply Forall_forall. intros unit Hin.
    apply in_map_iff in Hin as (addr & <- & Hin).
    apply in_map_iff in Hin as (e & <- & He).
    destruct (Hent e) as [Hlt Hfrom]; [apply in_or_app; now left|].
    rewrite Htagged; auto; [|now apply NoDup_app_remove_r in Hnd].
    now apply append_comment_traced.
Qed.

End Provenance.

Section RoundTrip.

Variable iteritems : forall V : Type, Dict.t V -> list (string * V).
Hypothesis iteritems_perm : forall V (d : Dict.t V), Permutation (iteritems V d) d.

(** C5, as amended.  When the ingestion has ended normally, the
    re-clustering of the conflict map ends normally and keeps every entry
    exactly once, so the reduced map holds as many entries as the conflict
    map, also after the plurals are folded.  Every output catalog begins
    with the units a new catalog of the library holds, and every unit after
    them is a unit of an input catalog, with the same fields and with one
    more comment, ["# (poconflicts) <path>"] and a line end, which is its
    last comment and names the file of that catalog. *)
Theorem provenance_and_entry_count (parse : string -> result (list pounit))
    (getfullinputpath : string -> string) (new_pofile : list pounit)
    (open_write : string -> result unit)
    (options : Options) (inputfiles : list string) (st : Ingested) :
  ingest parse getfullinputpath options inputfiles = Ok st ->
  let cm := buildconflictmap iteritems (textmap st) in
  (exists rm,
     recluster iteritems cm = Ok rm /\
     Permutation (all_entries rm) (all_entries cm) /\
     List.length (all_entries rm) = List.length (all_entries cm) /\
     forall rm', reduce_plurals iteritems rm = Ok rm' ->
       Permutation (all_entries rm') (all_entries cm) /\
       List.length (all_entries rm') = List.length (all_entries cm)) /\
  (forall out,
     recursiveprocess iteritems parse getfullinputpath new_pofile open_write
       options inputfiles = Ok out ->
     Forall (fun file =>
               exists units,
                 snd file = new_pofile ++ units /\
                 Forall (fun unit =>
                    exists path unit0 units0,
                      In path (map getfullinputpath inputfiles) /\
                      parse path = Ok units0 /\ In unit0 units0 /\
                      source unit = source unit0 /\
                      target unit = target unit0 /\
                      othercomments unit =
                        othercomments unit0 ++
                        [("# (poconflicts) " ++ path ++ String "010" "")%string])
                   units)
       (files out)).
Proof.
  intros Hingest cm.
  destruct (ingest_wf parse getfullinputpath options inputfiles st Hingest)
    as (Hkeys & Haddr & Hent).
  destruct (conflictmap_entries iteritems iteritems_perm (textmap st))
    as [dropped Hcm]. fold cm in Hcm.
  destruct (recluster_entries iteritems iteritems_perm (textmap st))
    as (rm & Hrm & Hperm & Hrmkeys). fold cm in Hrm, Hperm.
  split.
  - exists rm. split; [exact Hrm|]. split; [exact Hperm|].
    split; [now apply Permutation_length|].
    intros rm' Hrm'.
    apply (reduce_plurals_entries iteritems iteritems_perm) in Hrm'
      as [Hperm' _]; auto.
    split; [now rewrite Hperm'|].
    apply Permutation_length. now rewrite Hperm'.
  - intros out. unfold recursiveprocess. rewrite Hingest. cbn [bind].
    unfold outputconflicts. fold cm. rewrite Hrm. cbn [bind].
    destruct (reduce_plurals iteritems rm) as [rm'|e] eqn:Hrm';
      [|discriminate].
    cbn [bind].
    apply (reduce_plurals_entries iteritems iteritems_perm) in Hrm'
      as [Hperm' _]; auto.
    assert (Hitems : Permutation (List.concat (map snd (iteritems _ rm')))
                       (all_entries cm)).
    { rewrite (all_entries_items (iteritems _ rm') rm')
        by apply iteritems_perm.
      now rewrite Hperm'. }
    assert (Hsub : forall e, In e (all_entries cm) ->
                             In e (all_entries (textmap st))).
    { intros e He. eapply Permutation_in; [exact Hcm|].
      apply in_or_app. now right. }
    destruct (foreach (write_cluster new_pofile open_write options)
                (iteritems _ rm') (units_heap st, []))
      as [[h written]|e] eqn:Hrun; cbn [bind]; [|discriminate].
    intros [= <-]. cbn [files snd].
    apply (foreach_write_cluster_traced parse
             (map getfullinputpath inputfiles) new_pofile open_write options
             (iteritems _ rm') (units_heap st) h [] written) in Hrun.
    + eapply Forall_impl; [|exact Hrun].
      intros file (units & Hfile & Hunits). exists units.
      split; [exact Hfile|].
      eapply Forall_impl; [|exact Hunits].
      intros unit (path & unit0 & (Hpath & units0 & Hparse & Hin) & Hs & Ht
                   & _ & _ & _ & Hc).
      exists path, unit0, units0. auto 10.
    + eapply Permutation_NoDup;
        [symmetry; apply Permutation_map; exact Hitems|].
      unfold addresses in Haddr.
      eapply Permutation_NoDup in Haddr;
        [|symmetry; apply Permutation_map; exact Hcm].
      rewrite map_app in Haddr. now apply NoDup_app_remove_l in Haddr.
    + intros e He. apply Hent, Hsub.
      eapply Permutation_in; [exact Hitems|exact He].
    + constructor.
Qed.

End RoundTrip.

Lemma provenance_and_entry_count_witness :
  ingest (catalogs save_as_fs) same_path default_options ["A.po"; "B.po"]
    = Ok save_as_ingested /\
  forall out,
    recursiveprocess insertion_order (catalogs save_as_fs) same_path
      fresh_pofile writable default_options ["A.po"; "B.po"] = Ok out ->
    Forall (fun file =>
              exists units,
                snd file = fresh_pofile ++ units /\
                Forall (fun unit =>
                   exists path unit0 units0,
                     In path (map same_path ["A.po"; "B.po"]) /\
                     catalogs save_as_fs path = Ok units0 /\ In unit0 units0 /\
                     source unit = source unit0 /\
                     target unit = target unit0 /\
                     othercomments unit =
                       othercomments unit0 ++
                       [("# (poconflicts) " ++ path ++ String "010" "")%string])
                  units)
      (files out).
Proof.
  split; [reflexivity|].
  exact (proj2 (provenance_and_entry_count insertion_order insertion_order_perm
                  (catalogs save_as_fs) same_path fresh_pofile writable
                  default_options ["A.po"; "B.po"] save_as_ingested eq_refl)).
Defined.

(** C5 as stated fails on the units a new catalog of the library holds
    before the tool adds any: with a library whose new catalog has a
    header, the output catalog of the run on the two sample catalogs
    begins with that header, which has no comment and is a unit of no
    input catalog. *)
Lemma provenance_and_entry_count_counterexample :
  exists out file,
    recursiveprocess insertion_order (catalogs save_as_fs) same_path
      fresh_pofile writable default_options ["A.po"; "B.po"] = Ok out /\
    In file (files out) /\
    In pofile_header (snd file) /\
    ~ traced (catalogs save_as_fs) (map same_path ["A.po"; "B.po"])
        pofile_header /\
    forall path units,
      catalogs save_as_fs path = Ok units -> ~ In pofile_header units.
Proof.
  eexists. eexists. split; [vm_compute; reflexivity|].
  split; [now left|]. split; [now left|]. split.
  - intros (path & unit0 & _ & _ & _ & _ & _ & _ & Hc).
    cbn [othercomments pofile_header] in Hc.
    destruct (othercomments unit0); discriminate Hc.
  - intros path units Hparse Hin. cbn [catalogs save_as_fs] in Hparse.
    destruct (String.eqb path "A.po");
      [|destruct (String.eqb path "B.po"); [|discriminate Hparse]];
      injection Hparse as <-;
      repeat (destruct Hin as [Hin|Hin]; [discriminate Hin|]);
      destruct Hin.
Qed.

(** * Further properties of the tool *)

(** ** [parse_args] *)

Lemma last_slice_removelast (args : list string) :
  args <> [] -> removelast args ++ last_slice args = args.
Proof.
  intros H. unfold last_slice. destruct args as [|a args]; [congruence|].
  symmetry. apply app_removelast_last. discriminate.
Qed.

Lemma removelast_nil_length (args : list string) :
  args <> [] -> (removelast args = [] <-> List.length args < 2).
Proof.
  destruct args as [|a [|b args]]; simpl; try congruence; intros _.
  - split; auto.
  - split; [discriminate|lia].
Qed.

(** X1.  When [parse_args] accepts a command line, no free argument is
    left, the output is set and not empty, and the input is never a list
    of exactly one path. *)
Theorem parse_args_accepted (input : input_value) (output : option string)
    (args : list string) (input' : input_value) (output' : option string)
    (args' : list string) :
  parse_args input output args = Accepted (input', output', args') ->
  args' = [] /\
  output_true output' = true /\
  (forall path, input' <> InputList [path]).
Proof.
  unfold parse_args.
  destruct (args_true args && negb (input_true input)).
  - destruct (negb (output_true output)) eqn:Eo.
    + destruct (args_true (last_slice args) && true) eqn:E1;
        destruct (negb (output_true _)) eqn:E2 in |- *; try discriminate.
      all: match goal with
           | |- (if args_true ?a then _ else _) = _ -> _ =>
               destruct a as [|? ?] eqn:Ea; simpl; try discriminate
           end.
      all: intros [= <- <- <-]; apply negb_false_iff in E2;
        repeat split; auto;
        destruct (removelast args) as [|? [|? ?]]; discriminate.
    + rewrite andb_false_l, Eo. simpl.
      intros [= <- <- <-]. apply negb_false_iff in Eo.
      repeat split; auto. destruct args as [|? [|? ?]]; discriminate.
  - destruct (args_true args && negb (output_true output)) eqn:E1.
    + destruct (negb (output_true (Some (last args "")))) eqn:E2;
        [discriminate|].
      destruct (removelast args) as [|? ?] eqn:Ea; simpl; [|discriminate].
      intros [= <- <- <-]. apply negb_false_iff in E2.
      repeat split; auto.
      destruct input as [| |[|? [|? ?]]]; discriminate.
    + destruct (negb (output_true output)) eqn:E2; [discriminate|].
      destruct args as [|? ?]; simpl; [|discriminate].
      intros [= <- <- <-]. apply negb_false_iff in E2.
      repeat split; auto.
      destruct input as [| |[|? [|? ?]]]; discriminate.
Qed.

Lemma parse_args_accepted_witness :
  parse_args InputNone None ["a.po"; "out"] =
    Accepted (InputStr "a.po", Some "out", []) /\
  ([] : list string) = [] /\
  output_true (Some "out") = true /\
  (forall path, InputStr "a.po" <> InputList [path]).
Proof.
  split; [reflexivity|].
  apply (parse_args_accepted InputNone None ["a.po"; "out"]).
  reflexivity.
Defined.

Lemma args_true_snoc (pre : list string) (out : string) :
  args_true (pre ++ [out]) = true.
Proof. destruct pre; reflexivity. Qed.

Lemma last_slice_snoc (pre : list string) (out : string) :
  last_slice (pre ++ [out]) = [out].
Proof.
  unfold last_slice. rewrite last_last. now destruct pre.
Qed.

(** [parse_args] on a command line with at least one free argument. *)
Lemma parse_args_snoc (input : input_value) (output : option string)
    (pre : list string) (out : string) :
  parse_args input output (pre ++ [out]) =
  if input_true input then
    if output_true output then Rejected msg_invalid_combination
    else if String.eqb out "" then Rejected msg_output_required
    else if args_true pre then Rejected msg_invalid_combination
    else Accepted (unwrap_single input, Some out, [])
  else
    if output_true output
    then Accepted (unwrap_single (InputList (pre ++ [out])), output, [])
    else if String.eqb out "" then Rejected msg_output_required
    else Accepted (unwrap_single (InputList pre), Some out, []).
Proof.
  unfold parse_args. rewrite args_true_snoc.
  destruct (input_true input), (output_true output) eqn:Eo; cbn [andb negb];
    rewrite ?last_slice_snoc, ?args_true_snoc, ?Eo; cbn [andb negb args_true];
    rewrite ?removelast_last, ?last_last, ?Eo; cbn [negb output_true].
  all: rewrite ?args_true_snoc; cbn [last removelast args_true];
    try reflexivity.
  all: destruct (String.eqb out ""); cbn [negb]; try reflexivity.
  all: destruct pre as [|? [|? ?]]; reflexivity.
Qed.

Lemma parse_args_nil (input : input_value) (output : option string) :
  parse_args input output [] =
  if output_true output then Accepted (unwrap_single input, output, [])
  else Rejected msg_output_required.
Proof.
  unfold parse_args. simpl. now destruct (output_true output).
Qed.

(** X2.  With neither option set, the free arguments give both: the last
    one, when it is not empty, is the output and the ones before it are
    the input, as one path when there is exactly one and as a list
    otherwise; a single free argument leaves the input list empty. *)
Theorem parse_args_free_arguments (input : input_value)
    (output : option string) (pre : list string) (out : string) :
  input_true input = false ->
  output_true output = false ->
  out <> "" ->
  parse_args input output (pre ++ [out]) =
  Accepted (unwrap_single (InputList pre), Some out, []).
Proof.
  intros Hi Ho Hout. rewrite parse_args_snoc, Hi, Ho.
  apply String.eqb_neq in Hout. now rewrite Hout.
Qed.

Lemma parse_args_free_arguments_witness :
  parse_args InputNone None (["a.po"; "b.po"] ++ ["out"]) =
    Accepted (InputList ["a.po"; "b.po"], Some "out", []) /\
  parse_args InputNone None ([] ++ ["out"]) =
    Accepted (InputList [], Some "out", []).
Proof.
  split.
  - apply (parse_args_free_arguments InputNone None ["a.po"; "b.po"] "out");
      [reflexivity|reflexivity|discriminate].
  - apply (parse_args_free_arguments InputNone None [] "out");
      [reflexivity|reflexivity|discriminate].
Defined.



(** X4.  [parse_args] rejects a command line in two cases only: with
    "output file is required" exactly when neither the output option nor
    the last free argument names an output, and otherwise with the
    invalid-combination message exactly when the input option is set and
    free arguments remain besides the one taken as output. *)
Theorem parse_args_rejected (input : input_value) (output : option string)
    (args : list string) (msg : string) :
  parse_args input output args = Rejected msg <->
  (no_output output args = true /\ msg = msg_output_required) \/
  (no_output output args = false /\ leftover_args input output args = true /\
   msg = msg_invalid_combination).
Proof.
  assert (Hcase : forall (r : cli_result (input_value * option string * list string))
                         (b1 b2 : bool),
    r = (if b1 then Rejected msg_output_required
         else if b2 then Rejected msg_invalid_combination
         else r) ->
    (b1 = false -> b2 = false -> forall m, r <> Rejected m) ->
    r = Rejected msg <->
    (b1 = true /\ msg = msg_output_required) \/
    (b1 = false /\ b2 = true /\ msg = msg_invalid_combination)).
  { intros r b1 b2 Hr Hacc. destruct b1, b2.
    - rewrite Hr. split; [intros [= <-]; auto|].
      intros [[_ ->]|(H & _)]; [reflexivity|discriminate].
    - rewrite Hr. split; [intros [= <-]; auto|].
      intros [[_ ->]|(H & _)]; [reflexivity|discriminate].
    - rewrite Hr. split; [intros [= <-]; auto|].
      intros [[H _]|(_ & _ & ->)]; [discriminate|reflexivity].
    - split; [intros H; now apply Hacc in H|].
      intros [[H _]|(_ & H & _)]; discriminate. }
  destruct args as [|a args'] eqn:Ea.
  - apply Hcase.
    + rewrite parse_args_nil. unfold no_output, leftover_args. simpl.
      destruct (output_true output), (input_true input); reflexivity.
    + rewrite parse_args_nil. unfold no_output. simpl.
      destruct (output_true output); simpl; intros; discriminate.
  - assert (Hne : a :: args' <> []) by discriminate.
    destruct (exists_last Hne) as (pre & out & E). rewrite E.
    assert (Hlen : (2 <=? List.length (pre ++ [out])) = args_true pre).
    { rewrite length_app. destruct pre; [reflexivity|].
      apply Nat.leb_le. cbn [List.length]. lia. }
    apply Hcase.
    + rewrite parse_args_snoc. unfold no_output, leftover_args.
      rewrite args_true_snoc, last_last, Hlen.
      destruct (input_true input), (output_true output),
        (String.eqb out ""), (args_true pre); reflexivity.
    + rewrite parse_args_snoc. unfold no_output, leftover_args.
      rewrite args_true_snoc, last_last, Hlen.
      destruct (input_true input), (output_true output),
        (String.eqb out ""), (args_true pre); simpl; intros; discriminate.
Qed.

(** ** What the ingestion indexes *)

Lemma index_unit_cases (options : Options) (path : string) (tm : textmap_t)
    (addr : nat) (unit : pounit) :
  (indexable unit = false /\ index_unit options path tm addr unit = tm) \/
  (indexable unit = true /\
   exists key tgt,
     entry_agrees options key (tgt, addr, path) unit /\
     index_unit options path tm addr unit =
     Dict.set key
       (match Dict.get key tm with Some l => l | None => [] end
        ++ [(tgt, addr, path)]) tm).
Proof.
  unfold index_unit, entry_agrees, indexable.
  destruct (isheader unit || negb (istranslated unit)); cbn [negb andb];
    [left; auto|].
  destruct (hasplural unit); cbn [negb andb]; [left; auto|].
  right. split; [reflexivity|].
  destruct (invert options); cbn [negb].
  - exists (clean (target unit) options), (clean (source unit) options).
    repeat split.
  - exists (clean (source unit) options), (clean (target unit) options).
    repeat split.
Qed.

Lemma nth_error_deref (h : heap) (addr : nat) (unit : pounit) :
  nth_error h addr = Some unit -> deref h addr = unit.
Proof. intros H. unfold deref. now apply nth_error_nth. Qed.

Lemma index_units_agrees (options : Options) (path : string) (h : heap)
    (addr : nat) (units : list pounit) (tm : textmap_t) :
  (forall i unit, nth_error units i = Some unit ->
                  nth_error h (addr + i) = Some unit) ->
  index_agrees options h tm ->
  index_agrees options h (index_units options path addr units tm).
Proof.
  revert addr tm; induction units as [|unit units IH]; intros addr tm Hat Htm;
    cbn [index_units]; auto.
  apply IH.
  - intros i u Hi. replace (S addr + i) with (addr + S i) by lia.
    now apply (Hat (S i)).
  - assert (Hunit : nth_error h addr = Some unit)
      by (rewrite <- (Nat.add_0_r addr); now apply (Hat 0)).
    destruct (index_unit_cases options path tm addr unit)
      as [[_ ->]|(_ & key & tgt & Hag & ->)]; auto.
    intros key' L e Hin He.
    apply DictFacts.in_set in Hin as [[-> ->]|Hin]; [|now apply (Htm key' L)].
    apply in_app_or in He as [He|[<-|[]]].
    + destruct (Dict.get key tm) as [l|] eqn:Hget; [|destruct He].
      apply (Htm key l); auto. now apply DictFacts.get_in.
    + change (entry_unit (tgt, addr, path)) with addr.
      rewrite (nth_error_deref h addr unit Hunit). split; auto.
      apply nth_error_Some. congruence.
Qed.

Lemma index_agrees_grow (options : Options) (h units : heap) (tm : textmap_t) :
  index_agrees options h tm -> index_agrees options (h ++ units) tm.
Proof.
  intros H key L e Hin He. destruct (H key L e Hin He) as [Hlt Hag].
  rewrite length_app, deref_app_old by assumption. split; [lia|assumption].
Qed.

Lemma process_inputs_agrees (parse : string -> result (list pounit))
    (getfullinputpath : string -> string)
    (options : Options) (paths : list string) (st st' : Ingested) :
  index_agrees options (units_heap st) (textmap st) ->
  process_inputs parse getfullinputpath options paths st = Ok st' ->
  index_agrees options (units_heap st') (textmap st').
Proof.
  revert st; induction paths as [|path paths IH]; intros st Hst;
    cbn [process_inputs].
  - now intros [= <-].
  - unfold processfile.
    destruct (parse (getfullinputpath path)) as [units|e]; cbn [bind].
    + apply IH. cbn [units_heap textmap].
      apply index_units_agrees; [|now apply index_agrees_grow].
      intros i unit Hi. rewrite nth_error_app2 by lia.
      now replace (List.length (units_heap st) + i - List.length (units_heap st))
        with i by lia.
    + destruct (isinstance_Exception e); [|discriminate].
      destruct (isinstance_KeyboardInterrupt e); [discriminate|].
      now apply IH.
Qed.

(** X5.  After an ingestion that ends normally, every entry of the index
    refers to a unit that is translated, is not a header and has no
    plural; the key of the entry is the cleaned source of that unit and
    its target the cleaned target, or the other way round with the invert
    flag. *)
Theorem index_entries_agree (parse : string -> result (list pounit))
    (getfullinputpath : string -> string)
    (options : Options) (inputfiles : list string) (st : Ingested)
    (key : string) (L : list entry) (e : entry) :
  ingest parse getfullinputpath options inputfiles = Ok st ->
  In (key, L) (textmap st) ->
  In e L ->
  entry_agrees options key e (deref (units_heap st) (entry_unit e)).
Proof.
  intros Hingest Hin He.
  eapply (process_inputs_agrees parse getfullinputpath options inputfiles
            nothing_ingested st);
    eauto.
  intros ? ? ? [].
Qed.

Lemma index_entries_agree_witness :
  entry_agrees default_options "Save as:" ("Salvar como:", 3, "B.po")
    (translated "Save as:" "Salvar como:").
Proof.
  apply (index_entries_agree (catalogs save_as_fs) same_path default_options
           ["A.po"; "B.po"] save_as_ingested "Save as:"
           save_as_colon_entries ("Salvar como:", 3, "B.po")).
  - reflexivity.
  - right. now left.
  - right. now left.
Defined.

(** ** The ingestion loop, file by file *)

Lemma indexable_from_app (addr : nat) (l1 l2 : list pounit) :
  indexable_from addr (l1 ++ l2) =
  indexable_from addr l1 ++ indexable_from (addr + List.length l1) l2.
Proof.
  revert addr; induction l1 as [|unit l1 IH]; intros addr; simpl.
  - now rewrite Nat.add_0_r.
  - rewrite IH, <- app_assoc. do 2 f_equal. f_equal. lia.
Qed.

Lemma index_units_addresses (options : Options) (path : string) (addr : nat)
    (units : list pounit) (tm : textmap_t) :
  Permutation (addresses (index_units options path addr units tm))
    (addresses tm ++ indexable_from addr units).
Proof.
  revert addr tm; induction units as [|unit units IH]; intros addr tm;
    cbn [index_units indexable_from].
  - now rewrite app_nil_r.
  - rewrite IH, app_assoc. apply Permutation_app_tail.
    destruct (index_unit_cases options path tm addr unit)
      as [[-> ->]|(-> & key & tgt & _ & ->)].
    + now rewrite app_nil_r.
    + unfold addresses. rewrite all_entries_extend, map_app. reflexivity.
Qed.

Lemma process_inputs_state (parse : string -> result (list pounit))
    (getfullinputpath : string -> string)
    (options : Options) (paths : list string) (st st' : Ingested) :
  process_inputs parse getfullinputpath options paths st = Ok st' ->
  units_heap st' =
    units_heap st ++
    List.concat (map (parsed_units parse) (map getfullinputpath paths)) /\
  progress st' =
    progress st ++ map (progress_report parse getfullinputpath) paths /\
  warnings st' =
    warnings st ++
    map warning_for
      (filter (parse_fails parse) (map getfullinputpath paths)).
Proof.
  revert st; induction paths as [|path paths IH]; intros st;
    cbn [process_inputs].
  - intros [= <-]. simpl. now rewrite !app_nil_r.
  - unfold processfile, progress_report, parsed_units, parse_fails.
    cbn [map filter List.concat].
    destruct (parse (getfullinputpath path)) as [units|e] eqn:E; cbn [bind].
    + intros H. apply IH in H as (H1 & H2 & H3). cbn in H1, H2, H3.
      rewrite H1, H2, H3, <- !app_assoc. auto.
    + destruct (isinstance_Exception e); [|discriminate].
      destruct (isinstance_KeyboardInterrupt e); [discriminate|].
      intros H. apply IH in H as (H1 & H2 & H3). cbn in H1, H2, H3.
      rewrite H1, H2, H3, <- !app_assoc. auto.
Qed.

Lemma process_inputs_addresses (parse : string -> result (list pounit))
    (getfullinputpath : string -> string)
    (options : Options) (paths : list string) (st st' : Ingested) :
  Permutation (addresses (textmap st)) (indexable_from 0 (units_heap st)) ->
  process_inputs parse getfullinputpath options paths st = Ok st' ->
  Permutation (addresses (textmap st')) (indexable_from 0 (units_heap st')).
Proof.
  revert st; induction paths as [|path paths IH]; intros st Hst;
    cbn [process_inputs].
  - now intros [= <-].
  - unfold processfile.
    destruct (parse (getfullinputpath path)) as [units|e]; cbn [bind].
    + apply IH. cbn [units_heap textmap].
      rewrite index_units_addresses, indexable_from_app, Hst. reflexivity.
    + destruct (isinstance_Exception e); [|discriminate].
      destruct (isinstance_KeyboardInterrupt e); [discriminate|].
      now apply IH.
Qed.

(** X6.  After an ingestion that ends normally, the units read are those
    of the catalogs that could be read, in the order of the input files,
    and the index refers to each translated unit that is not a header and
    has no plural exactly once, and to no other unit. *)
Theorem index_complete (parse : string -> result (list pounit))
    (getfullinputpath : string -> string)
    (options : Options) (inputfiles : list string) (st : Ingested) :
  ingest parse getfullinputpath options inputfiles = Ok st ->
  units_heap st =
    List.concat (map (parsed_units parse) (map getfullinputpath inputfiles)) /\
  Permutation (addresses (textmap st)) (indexable_from 0 (units_heap st)).
Proof.
  intros H. split.
  - now apply process_inputs_state in H as [H _].
  - apply (process_inputs_addresses parse getfullinputpath options inputfiles
             nothing_ingested);
      auto.
Qed.

Lemma index_complete_witness :
  units_heap save_as_ingested =
    List.concat (map (parsed_units (catalogs save_as_fs))
                   (map same_path ["A.po"; "B.po"])) /\
  Permutation (addresses (textmap save_as_ingested))
    (indexable_from 0 (units_heap save_as_ingested)).
Proof.
  apply (index_complete (catalogs save_as_fs) same_path default_options
           ["A.po"; "B.po"] save_as_ingested).
  reflexivity.
Defined.

(** X7.  An ingestion that ends normally reports every input file once,
    in order and under its input path, as failed exactly when reading the
    file at its full path raised, and logs one warning that names the full
    path for each failed file, in order. *)
Theorem ingest_reports (parse : string -> result (list pounit))
    (getfullinputpath : string -> string)
    (options : Options) (inputfiles : list string) (st : Ingested) :
  ingest parse getfullinputpath options inputfiles = Ok st ->
  progress st = map (progress_report parse getfullinputpath) inputfiles /\
  warnings st =
    map warning_for
      (filter (parse_fails parse) (map getfullinputpath inputfiles)).
Proof.
  intros H. now apply process_inputs_state in H as (_ & H2 & H3).
Qed.

Lemma ingest_reports_witness :
  exists st,
    ingest (catalogs po_directory_fs) (in_directory "po") default_options
      ["A.po"; "C.po"; "B.po"] = Ok st /\
    progress st = [("A.po", None); ("C.po", Some false); ("B.po", None)] /\
    warnings st = ["Error processing: input po/C.po"].
Proof.
  eexists. split; [reflexivity|].
  apply (ingest_reports (catalogs po_directory_fs) (in_directory "po")
           default_options ["A.po"; "C.po"; "B.po"]).
  reflexivity.
Defined.

Lemma process_inputs_raise (parse : string -> result (list pounit))
    (getfullinputpath : string -> string)
    (options : Options) (paths : list string) (st : Ingested)
    (e : exception) :
  process_inputs parse getfullinputpath options paths st = Raise e <->
  exists pre path rest,
    paths = pre ++ path :: rest /\
    parse (getfullinputpath path) = Raise e /\
    isinstance_Exception e = false /\
    forall p, In p pre -> parse_fatal parse (getfullinputpath p) = false.
Proof.
  revert st; induction paths as [|path paths IH]; intros st;
    cbn [process_inputs].
  - split; [discriminate|]. intros (pre & p & rest & H & _).
    now destruct pre.
  - unfold processfile.
    destruct (parse (getfullinputpath path)) as [units|e'] eqn:E; cbn [bind].
    + rewrite IH. split.
      * intros (pre & p & rest & -> & H1 & H2 & H3).
        exists (path :: pre), p, rest. repeat split; auto.
        intros q [<-|Hq]; auto. unfold parse_fatal. now rewrite E.
      * intros (pre & p & rest & Heq & H1 & H2 & H3).
        destruct pre as [|q pre]; simpl in Heq; injection Heq as <- ->;
          [congruence|].
        exists pre, p, rest. repeat split; auto.
        intros q Hq. apply H3. now right.
    + destruct (isinstance_Exception e') eqn:Ee.
      * assert (Ek : isinstance_KeyboardInterrupt e' = false)
          by (now destruct e').
        rewrite Ek, IH. split.
        -- intros (pre & p & rest & -> & H1 & H2 & H3).
           exists (path :: pre), p, rest. repeat split; auto.
           intros q [<-|Hq]; auto. unfold parse_fatal. now rewrite E, Ee.
        -- intros (pre & p & rest & Heq & H1 & H2 & H3).
           destruct pre as [|q pre]; simpl in Heq; injection Heq as <- ->;
             [congruence|].
           exists pre, p, rest. repeat split; auto.
           intros q Hq. apply H3. now right.
      * split.
        -- intros [= <-]. exists [], path, paths. repeat split; auto.
           intros ? [].
        -- intros (pre & p & rest & Heq & H1 & H2 & H3).
           destruct pre as [|q pre]; simpl in Heq; injection Heq as <- ->.
           ++ congruence.
           ++ specialize (H3 path (or_introl eq_refl)).
              unfold parse_fatal in H3. rewrite E, Ee in H3. discriminate.
Qed.

(** X8.  The ingestion raises an exception exactly when reading some input
    file raises one that does not derive from [Exception]; it is then the
    exception of the first such file. *)
Theorem ingest_raises (parse : string -> result (list pounit))
    (getfullinputpath : string -> string)
    (options : Options) (inputfiles : list string) (e : exception) :
  ingest parse getfullinputpath options inputfiles = Raise e <->
  exists pre path rest,
    inputfiles = pre ++ path :: rest /\
    parse (getfullinputpath path) = Raise e /\
    isinstance_Exception e = false /\
    forall p, In p pre -> parse_fatal parse (getfullinputpath p) = false.
Proof. apply process_inputs_raise. Qed.

(** ** More on the conflict map *)

Lemma fold_conflict_keys (items : list (string * list entry))
    (cm : textmap_t) :
  NoDup (Dict.keys cm) ->
  NoDup (Dict.keys (fold_left conflict_step items cm)) /\
  forall k, In k (Dict.keys (fold_left conflict_step items cm)) ->
            In k (Dict.keys cm) \/
            In k (map (fun item => flatten (fst item) " ") items).
Proof.
  revert cm; induction items as [|[s L] items IH]; intros cm Hnd;
    cbn [fold_left]; auto.
  assert (Hnd' : NoDup (Dict.keys (conflict_step cm (s, L)))).
  { rewrite conflict_step_eq. destruct (is_conflict s L); auto.
    now apply DictFacts.nodup_keys_set. }
  destruct (IH _ Hnd') as [H1 H2]. split; auto.
  intros k Hk. apply H2 in Hk as [Hk|Hk]; [|right; now right].
  rewrite conflict_step_eq in Hk. destruct (is_conflict s L); auto.
  apply DictFacts.keys_set in Hk as [->|Hk]; auto.
  right. now left.
Qed.

Lemma fold_hit_some (k : string) (items : list (string * list entry))
    (found : option (list entry)) :
  fold_left
    (fun found item => if conflict_hit k item then Some (snd item) else found)
    items found <> None <->
  found <> None \/ exists item, In item items /\ conflict_hit k item = true.
Proof.
  revert found; induction items as [|item items IH]; intros found;
    cbn [fold_left].
  - split; auto. intros [H|(item & [] & _)]; auto.
  - rewrite IH. destruct (conflict_hit k item) eqn:E; split.
    + intros _. right. exists item. split; [now left|assumption].
    + intros _. left. discriminate.
    + intros [H|(item' & Hin & Hhit)]; auto.
      right. exists item'. split; [now right|assumption].
    + intros [H|(item' & [<-|Hin] & Hhit)]; auto; [congruence|].
      right. exists item'. auto.
Qed.

Section ConflictMapMore.

Variable iteritems : forall V : Type, Dict.t V -> list (string * V).
Hypothesis iteritems_perm : forall V (d : Dict.t V), Permutation (iteritems V d) d.

(** X9.  The conflict map has pairwise different keys and at most as many
    keys as the index: in the line the tool prints, the number of strings
    with conflicts never exceeds the number of strings. *)
Theorem conflictmap_size (tm : textmap_t) :
  NoDup (Dict.keys (buildconflictmap iteritems tm)) /\
  List.length (buildconflictmap iteritems tm) <= List.length tm.
Proof.
  destruct (fold_conflict_keys (iteritems _ tm) [] (NoDup_nil _)) as [Hnd Hin].
  split; [exact Hnd|].
  rewrite <- (Permutation_length (iteritems_perm _ tm)).
  rewrite <- (length_map (fun item => flatten (fst item) " ") (iteritems _ tm)).
  rewrite <- (length_map fst (buildconflictmap iteritems tm)).
  apply NoDup_incl_length; [exact Hnd|].
  intros k Hk. apply Hin in Hk as [[]|Hk]. exact Hk.
Qed.

(** X10.  Whatever the order in which the index is visited, a string is a
    key of the conflict map exactly when it has more than one character
    and is the flattened form of a key of the index whose translation list
    has more than one entry and two different targets; the list the
    conflict map holds under it is the list of such a key. *)
Theorem conflictmap_keys (tm : textmap_t) (k : string) :
  (Dict.mem k (buildconflictmap iteritems tm) = true <->
   exists s L, In (s, L) tm /\ flatten s " " = k /\
               1 < String.length k /\ conflicting L) /\
  (forall L, Dict.get k (buildconflictmap iteritems tm) = Some L ->
   exists s, In (s, L) tm /\ flatten s " " = k /\ conflicting L).
Proof.
  split.
  - unfold Dict.mem, buildconflictmap. rewrite get_fold_conflict. simpl.
    pose proof (fold_hit_some k (iteritems _ tm) None) as H.
    destruct (fold_left _ (iteritems _ tm) None) as [L|].
    + split; [intros _|reflexivity].
      destruct H as [H _]. destruct H as [H|([s L'] & Hin & Hhit)];
        [discriminate|congruence|].
      unfold conflict_hit in Hhit. simpl in Hhit.
      apply andb_true_iff in Hhit as [Hc Hk].
      apply String.eqb_eq in Hk. apply is_conflict_spec in Hc as [Hlen Hc].
      exists s, L'. rewrite <- Hk.
      split; [|split; [reflexivity|split; assumption]].
      eapply Permutation_in; [apply iteritems_perm|exact Hin].
    + split; [discriminate|].
      intros (s & L & Hin & Hk & Hlen & Hc). exfalso.
      destruct H as [_ H]. apply H; [|reflexivity].
      right. exists (s, L). split.
      * eapply Permutation_in; [symmetry; apply iteritems_perm|exact Hin].
      * unfold conflict_hit. simpl. apply andb_true_iff. split.
        -- apply is_conflict_spec. rewrite Hk. auto.
        -- now apply String.eqb_eq.
  - intros L HL. apply DictFacts.get_in in HL.
    apply in_fold_conflict in HL as [[]|(s & Hin & -> & Hc)].
    exists s. apply is_conflict_spec in Hc as [_ Hc].
    split; [|split; [reflexivity|assumption]].
    eapply Permutation_in; [apply iteritems_perm|exact Hin].
Qed.

End ConflictMapMore.

Lemma conflictmap_size_witness :
  NoDup (Dict.keys (buildconflictmap insertion_order save_as_index)) /\
  List.length (buildconflictmap insertion_order save_as_index)
  <= List.length save_as_index.
Proof. exact (conflictmap_size insertion_order insertion_order_perm _). Defined.

Lemma conflictmap_keys_witness :
  Dict.mem "Save as" (buildconflictmap reverse_order save_as_index) = true <->
  exists s L, In (s, L) save_as_index /\ flatten s " " = "Save as" /\
              1 < String.length "Save as" /\ conflicting L.
Proof.
  exact (proj1 (conflictmap_keys reverse_order reverse_order_perm
                  save_as_index "Save as")).
Defined.

(** ** More on [flatten] *)

Lemma flatten_loop_alphabet (text flattext joinchar : string) :
  Str.all (fun c => Str.isalnum c || Str.mem c joinchar) flattext = true ->
  Str.all (fun c => Str.isalnum c || Str.mem c joinchar)
    (flatten_loop text flattext joinchar) = true.
Proof.
  revert flattext; induction text as [|c text IH]; intros flattext H; simpl;
    auto.
  destruct (Str.isalnum c) eqn:Ec.
  - apply IH. rewrite StrFacts.all_append, H. simpl. now rewrite Ec.
  - destruct (Str.str_isalnum (Str.last1 flattext)); [|now apply IH].
    apply IH. rewrite StrFacts.all_append, H. simpl.
    clear. induction joinchar as [|d j IHj]; simpl; auto.
    rewrite Ascii.eqb_refl, orb_true_r. simpl.
    eapply StrFacts.all_impl; [|exact IHj].
    intros c Hc. simpl. apply orb_true_iff in Hc as [-> | ->]; auto.
    now rewrite !orb_true_r.
Qed.

Lemma flatten_chars (text joinchar : string) :
  Str.all (fun c => Str.isalnum c || Str.mem c joinchar)
    (flatten text joinchar) = true.
Proof.
  unfold flatten, Str.rstrip. apply StrFacts.all_rstrip_by.
  now apply flatten_loop_alphabet.
Qed.

(** X11.  Whatever the join string, [flatten] returns only alphanumeric
    characters and characters of the join string: with ["-"], the stem of
    an output file has no path separator and no dot. *)
Theorem flatten_alphabet (text joinchar : string) :
  Str.all (fun c => Str.isalnum c || Str.mem c joinchar)
    (flatten text joinchar) = true.
Proof.
  unfold flatten, Str.rstrip. apply StrFacts.all_rstrip_by.
  apply flatten_loop_alphabet. reflexivity.
Qed.

Lemma runs_total_length (text : string) :
  list_sum (map String.length (spec_alnum_runs text)) = count_alnum text.
Proof.
  induction text as [|c text IH]; [reflexivity|].
  cbn [spec_alnum_runs count_alnum].
  destruct (Str.isalnum c) eqn:Ec; [|exact IH].
  destruct text as [|c' text']; [reflexivity|].
  destruct (Str.isalnum c') eqn:Ec'.
  - pose proof (spec_alnum_runs_starts (String c' text')) as Hne.
    simpl starts_alnum in Hne. specialize (Hne Ec').
    destruct (spec_alnum_runs (String c' text')) as [|run runs];
      [congruence|].
    simpl in IH |- *. now rewrite IH.
  - simpl in IH |- *. now rewrite IH.
Qed.

Lemma length_concat_runs (cj : ascii) (runs : list string) :
  String.length (String.concat (String cj "") runs) =
  list_sum (map String.length runs) + pred (List.length runs).
Proof.
  induction runs as [|run runs IH]; [reflexivity|].
  destruct runs as [|run' runs].
  - simpl. lia.
  - change (String.concat (String cj "") (run :: run' :: runs))
      with (run ++ String cj "" ++ String.concat (String cj "") (run' :: runs))%string.
    rewrite !StrFacts.length_append, IH. simpl. lia.
Qed.

Lemma runs_count (runs : list string) :
  Forall (fun run => run <> "" /\ Str.all Str.isalnum run = true) runs ->
  List.length runs <= list_sum (map String.length runs).
Proof.
  induction 1 as [|run runs [Hne _] _ IH]; simpl; auto.
  destruct run; [congruence|]. simpl. lia.
Qed.

(** X12.  The flattened form of a source has more than one character, the
    condition under which [buildconflictmap] considers the source, exactly
    when the source has two alphanumeric characters or more. *)
Theorem flatten_length_alnum (text : string) :
  1 < String.length (flatten text " ") <-> 2 <= count_alnum text.
Proof.
  rewrite (flatten_runs " " eq_refl), length_concat_runs.
  pose proof (runs_count _ (spec_alnum_runs_wf text)) as Hcount.
  rewrite runs_total_length in *.
  destruct (spec_alnum_runs text) as [|run [|run' runs]]; simpl in *; lia.
Qed.

Lemma runs_cons_alnum (c c' : ascii) (text : string) :
  Str.isalnum c = true -> Str.isalnum c' = true ->
  spec_alnum_runs (String c (String c' text)) =
  match spec_alnum_runs (String c' text) with
  | run :: runs => String c run :: runs
  | [] => [String c EmptyString]
  end.
Proof.
  intros Hc Hc'.
  change (spec_alnum_runs (String c (String c' text)))
    with (if Str.isalnum c then
            if Str.isalnum c' then
              match spec_alnum_runs (String c' text) with
              | run :: runs => String c run :: runs
              | [] => [String c EmptyString]
              end
            else String c EmptyString :: spec_alnum_runs (String c' text)
          else spec_alnum_runs (String c' text)).
  now rewrite Hc, Hc'.
Qed.

Lemma runs_app_alnum (w rest : string) :
  w <> "" -> Str.all Str.isalnum w = true ->
  starts_alnum rest = false ->
  spec_alnum_runs (w ++ rest) = w :: spec_alnum_runs rest.
Proof.
  induction w as [|c w IH]; [congruence|]. intros _ Hall Hrest.
  simpl in Hall. apply andb_true_iff in Hall as [Hc Hall].
  destruct w as [|c' w'].
  - simpl. rewrite Hc. destruct rest as [|d rest']; [reflexivity|].
    simpl in Hrest. now rewrite Hrest.
  - assert (Hc' : Str.isalnum c' = true)
      by (simpl in Hall; apply andb_true_iff in Hall; tauto).
    change ((String c (String c' w') ++ rest)%string)
      with (String c (String c' (w' ++ rest)%string)).
    rewrite (runs_cons_alnum c c' _ Hc Hc').
    change (String c' (w' ++ rest)%string) with ((String c' w') ++ rest)%string.
    rewrite IH; [reflexivity|discriminate|assumption|assumption].
Qed.

Lemma runs_of_concat (cj : ascii) (runs : list string) :
  Str.isalnum cj = false ->
  Forall (fun run => run <> "" /\ Str.all Str.isalnum run = true) runs ->
  spec_alnum_runs (String.concat (String cj "") runs) = runs.
Proof.
  intros Hcj. induction 1 as [|run runs [Hne Hall] Hwf IH]; [reflexivity|].
  destruct runs as [|run' runs].
  - simpl. rewrite <- (StrFacts.append_nil_r run) at 1.
    now rewrite runs_app_alnum.
  - change (String.concat (String cj "") (run :: run' :: runs))
      with (run ++ String cj (String.concat (String cj "") (run' :: runs)))%string.
    rewrite runs_app_alnum; auto.
    f_equal. cbn [spec_alnum_runs]. now rewrite Hcj.
Qed.

Lemma flatten_fixed_runs (cj : ascii) (text : string) :
  Str.isalnum cj = false ->
  flatten (flatten text (String cj "")) (String cj "") =
  flatten text (String cj "").
Proof.
  intros Hcj. rewrite !(flatten_runs cj Hcj).
  now rewrite runs_of_concat by (auto; apply spec_alnum_runs_wf).
Qed.

(** X13.  With a join character that is not alphanumeric, [flatten] is
    idempotent: a flattened text is its own flattened form, so the keys of
    the conflict map are in the form [flatten] gives. *)
Theorem flatten_idempotent (cj : ascii) (text : string) :
  Str.isalnum cj = false ->
  flatten (flatten text (String cj "")) (String cj "") =
  flatten text (String cj "").
Proof. apply flatten_fixed_runs. Qed.

Lemma flatten_idempotent_witness :
  flatten (flatten "  Save  as...: " " ") " " = flatten "  Save  as...: " " ".
Proof. apply (flatten_idempotent " " "  Save  as...: "). reflexivity. Defined.

(** An alphanumeric word is its own flattened form. *)
Lemma flatten_word (cj : ascii) (w : string) :
  Str.isalnum cj = false ->
  w <> "" -> Str.all Str.isalnum w = true ->
  flatten w (String cj "") = w.
Proof.
  intros Hcj Hne Hall. rewrite (flatten_runs cj Hcj).
  rewrite <- (StrFacts.append_nil_r w) at 1.
  now rewrite runs_app_alnum.
Qed.

(** ** More on [clean] *)

Lemma lstrip_by_head (p : ascii -> bool) (s : string) :
  match Str.lstrip_by p s with
  | EmptyString => True
  | String c _ => p c = false
  end.
Proof.
  induction s as [|c s IH]; simpl; auto.
  destruct (p c) eqn:E; auto.
Qed.

Lemma rstrip_by_last (p : ascii -> bool) (s : string) :
  match Str.last1 (Str.rstrip_by p s) with
  | EmptyString => True
  | String c _ => p c = false
  end.
Proof.
  induction s as [|c s IH]; simpl; auto.
  destruct (Str.rstrip_by p s) as [|d r] eqn:E.
  - destruct (p c) eqn:Ec; simpl; auto.
  - exact IH.
Qed.

Lemma last1_lstrip_by (p : ascii -> bool) (s : string) :
  Str.last1 (Str.lstrip_by p s) = "" \/
  Str.last1 (Str.lstrip_by p s) = Str.last1 s.
Proof.
  induction s as [|c s IH]; simpl; auto.
  destruct (p c); auto.
  destruct IH as [IH|IH]; auto.
  destruct s; auto.
Qed.

(** X14.  A cleaned string neither begins nor ends with whitespace and has
    none of the accelerator characters; with the ignore-case flag it is in
    lower case: [lower] leaves it as it is. *)
Theorem clean_output (s : string) (options : Options) :
  no_outer_space (clean s options) = true /\
  Str.all (fun c => negb (Str.mem c (accelchars options))) (clean s options)
    = true /\
  (ignorecase options = true ->
   Str.lower (clean s options) = clean s options).
Proof.
  unfold clean.
  set (s1 := if ignorecase options then Str.lower s else s).
  set (s2 := remove_accelerators (accelchars options) s1).
  split; [|split].
  - unfold no_outer_space, Str.strip. apply andb_true_iff. split.
    + pose proof (lstrip_by_head Str.isspace (Str.rstrip_by Str.isspace s2)) as H.
      destruct (Str.lstrip_by _ _); auto. now rewrite H.
    + pose proof (rstrip_by_last Str.isspace s2) as H.
      destruct (last1_lstrip_by Str.isspace (Str.rstrip_by Str.isspace s2))
        as [-> | ->]; auto.
      destruct (Str.last1 _); auto. now rewrite H.
  - apply StrFacts.all_strip, remove_accelerators_absent.
  - intros Hi. subst s2 s1. rewrite Hi.
    apply StrFacts.lower_fixed.
    apply StrFacts.all_strip, all_remove_accelerators.
    apply StrFacts.all_lowered_lower.
Qed.

Lemma clean_output_witness :
  Str.lower
    (clean "  &Save As  "
       {| ignorecase := true; invert := false; accelchars := "&";
          output := "out" |}) =
  clean "  &Save As  "
    {| ignorecase := true; invert := false; accelchars := "&";
       output := "out" |}.
Proof.
  apply (clean_output "  &Save As  "
           {| ignorecase := true; invert := false; accelchars := "&";
              output := "out" |}).
  reflexivity.
Defined.

(** ** More on the folding of plurals *)

Lemma append_s_inj (w w' : string) :
  (w ++ "s")%string = (w' ++ "s")%string -> w = w'.
Proof.
  revert w'; induction w as [|c w IH]; intros [|c' w']; simpl; auto.
  - intros [= <- H]. now destruct w'.
  - intros [= -> H]. now destruct w.
  - intros [= -> H]. f_equal. now apply IH.
Qed.

Lemma fold_plurals_facts (rm : textmap_t) (words : list string)
    (plurals : Dict.t string) :
  NoDup (Dict.keys plurals) ->
  let result := fold_left (plurals_step rm) words plurals in
  NoDup (Dict.keys result) /\
  (forall w p, In (w, p) result ->
     In (w, p) plurals \/
     (In w words /\ p = (w ++ "s")%string /\ Dict.mem p rm = true)) /\
  (forall w, (In w (Dict.keys plurals) \/
              (In w words /\ Dict.mem (w ++ "s")%string rm = true)) ->
             In w (Dict.keys result)).
Proof.
  revert plurals; induction words as [|x words IH]; intros plurals Hnd;
    cbn [fold_left].
  - split; [assumption|]. split; [auto|]. intros w [H|[[] _]]. exact H.
  - assert (Hnd' : NoDup (Dict.keys (plurals_step rm plurals x))).
    { unfold plurals_step. destruct (Dict.mem _ rm); auto.
      now apply DictFacts.nodup_keys_set. }
    destruct (IH _ Hnd') as (H1 & H2 & H3). split; [exact H1|]. split.
    + intros w p Hin. apply H2 in Hin as [Hin|(Hw & Hp & Hm)].
      * unfold plurals_step in Hin.
        destruct (Dict.mem (x ++ "s")%string rm) eqn:E; auto.
        apply DictFacts.in_set in Hin as [[-> ->]|Hin]; auto.
        right. repeat split; auto. now left.
      * right. repeat split; auto. now right.
    + intros w Hw. apply H3.
      destruct Hw as [Hw|[[<-|Hw] Hm]]; auto.
      * left. unfold plurals_step. destruct (Dict.mem _ rm); auto.
        apply DictFacts.keys_set. auto.
      * left. unfold plurals_step. rewrite Hm.
        apply DictFacts.keys_set. auto.
Qed.

Lemma in_keys_get {V : Type} (k : string) (d : Dict.t V) :
  In k (Dict.keys d) -> exists v, Dict.get k d = Some v.
Proof.
  intros H. destruct (Dict.get k d) as [v|] eqn:E; eauto.
  apply DictFacts.get_none in E. contradiction.
Qed.

Lemma mem_get {V : Type} (k : string) (d : Dict.t V) :
  Dict.mem k d = true <-> exists v, Dict.get k d = Some v.
Proof.
  unfold Dict.mem. destruct (Dict.get k d); split; eauto;
    [discriminate|intros [? [=]]].
Qed.

(** Merging the pairs of a list in which no plural is also a singular. *)
Lemma foreach_merge_all (items : list (string * string)) (cur : textmap_t) :
  NoDup (map fst items) ->
  (forall w p, In (w, p) items ->
     p = (w ++ "s")%string /\ Dict.mem w cur = true /\ Dict.mem p cur = true) ->
  (forall w p, In (w, p) items -> ~ In p (map fst items)) ->
  exists cur',
    foreach merge_plural items cur = Ok cur' /\
    (forall w p Lw Lp, In (w, p) items ->
       Dict.get w cur = Some Lw -> Dict.get p cur = Some Lp ->
       Dict.get w cur' = Some (Lw ++ Lp) /\ Dict.get p cur' = None) /\
    (forall k, ~ In k (map fst items) -> ~ In k (map snd items) ->
       Dict.get k cur' = Dict.get k cur).
Proof.
  revert cur; induction items as [|[w p] items IH]; intros cur Hnd Hitems Hchain.
  - exists cur. split; [reflexivity|]. split; [intros ? ? ? ? []|auto].
  - cbn [map fst] in Hnd. inversion Hnd as [|? ? Hw Hnd']; subst.
    destruct (Hitems w p (or_introl eq_refl)) as (Hp & Hmw & Hmp).
    apply mem_get in Hmw as [Lw HLw]. apply mem_get in Hmp as [Lp HLp].
    assert (Hwp : w <> p) by (rewrite Hp; apply append_s_neq).
    assert (Hpw : ~ In p (map fst items)).
    { intros H. apply (Hchain w p); [now left|now right]. }
    set (cur1 := Dict.set w (Lw ++ Lp) (Dict.remove p cur)).
    assert (Hother : forall k, k <> w -> k <> p ->
                               Dict.get k cur1 = Dict.get k cur).
    { intros k Hkw Hkp. unfold cur1.
      rewrite DictFacts.get_set_other by congruence.
      rewrite DictFacts.get_remove.
      destruct (String.eqb p k) eqn:E; auto.
      apply String.eqb_eq in E. congruence. }
    assert (Hitem : forall w' p', In (w', p') items ->
              p' = (w' ++ "s")%string /\ w' <> w /\ w' <> p /\
              p' <> w /\ p' <> p).
    { intros w' p' Hin.
      destruct (Hitems w' p' (or_intror Hin)) as (Hp' & _).
      assert (Hw' : w' <> w).
      { intros ->. apply Hw. change w with (fst (w, p')). now apply in_map. }
      repeat split; auto.
      - intros ->. apply Hpw. change p with (fst (p, p')). now apply in_map.
      - intros ->. apply (Hchain w' w); [now right|now left].
      - rewrite Hp, Hp'. intros H. apply append_s_inj in H. congruence. }
    destruct (IH cur1) as (cur' & Hrun & Hmerged & Hkept); auto.
    { intros w' p' Hin. destruct (Hitem w' p' Hin) as (Hp' & ? & ? & ? & ?).
      destruct (Hitems w' p' (or_intror Hin)) as (_ & Hm1 & Hm2).
      unfold Dict.mem in *. rewrite !Hother by assumption. auto. }
    { intros w' p' Hin H. apply (Hchain w' p'); [now right|now right]. }
    exists cur'. split; [|split].
    + cbn [foreach]. unfold merge_plural at 1. rewrite HLw, HLp. exact Hrun.
    + assert (Hpsnd : ~ In p (map snd items)).
      { intros H. apply in_map_iff in H as ([w' p'] & Hsnd & Hin).
        simpl in Hsnd. subst p'.
        destruct (Hitem w' p Hin) as (_ & _ & _ & _ & H). congruence. }
      assert (Hwsnd : ~ In w (map snd items)).
      { intros H. apply in_map_iff in H as ([w' p'] & Hsnd & Hin).
        simpl in Hsnd. subst p'.
        destruct (Hitem w' w Hin) as (_ & _ & _ & H & _). congruence. }
      intros w' p' Lw' Lp' [[= <- <-]|Hin] H1 H2.
      * rewrite HLw in H1. rewrite HLp in H2.
        injection H1 as <-. injection H2 as <-.
        rewrite !Hkept by assumption. unfold cur1. split.
        -- apply DictFacts.get_set_same.
        -- rewrite DictFacts.get_set_other by assumption.
           rewrite DictFacts.get_remove. now rewrite String.eqb_refl.
      * destruct (Hitem w' p' Hin) as (_ & ? & ? & ? & ?).
        apply (Hmerged w' p' Lw' Lp' Hin); now rewrite Hother.
    + intros k Hk1 Hk2. simpl in Hk1, Hk2.
      rewrite Hkept by tauto.
      apply Hother; intros ->; [apply Hk1|apply Hk2]; now left.
Qed.

Section PluralsMore.

Variable iteritems : forall V : Type, Dict.t V -> list (string * V).
Hypothesis iteritems_perm : forall V (d : Dict.t V), Permutation (iteritems V d) d.

Lemma find_plurals_facts (rm : textmap_t) :
  NoDup (Dict.keys (find_plurals iteritems rm)) /\
  (forall w p, In (w, p) (find_plurals iteritems rm) ->
     p = (w ++ "s")%string /\ Dict.mem w rm = true /\ Dict.mem p rm = true) /\
  (forall w, Dict.mem w rm = true -> Dict.mem (w ++ "s")%string rm = true ->
             In w (Dict.keys (find_plurals iteritems rm))).
Proof.
  unfold find_plurals.
  destruct (fold_plurals_facts rm (map fst (iteritems _ rm)) [] (NoDup_nil _))
    as (H1 & H2 & H3).
  assert (Hwords : forall w, In w (map fst (iteritems _ rm)) <->
                             Dict.mem w rm = true).
  { intros w. rewrite mem_keys. split; apply Permutation_in, Permutation_map.
    - apply iteritems_perm.
    - symmetry. apply iteritems_perm. }
  split; [exact H1|]. split.
  - intros w p Hin. apply H2 in Hin as [[]|(Hw & Hp & Hm)].
    repeat split; auto. now apply Hwords.
  - intros w Hw Hs. apply H3. right. split; auto. now apply Hwords.
Qed.

(** X15.  When no plural among the keys of the reduced map is itself the
    singular of another key, the folding ends normally whatever the order
    of the dictionaries: every key [w] with [w + "s"] present holds its
    list followed by the list of [w + "s"], every such [w + "s"] is gone,
    and the keys that are neither keep their lists. *)
Theorem plural_folding_without_chain (rm : textmap_t) :
  (forall w, Dict.mem w rm = true -> Dict.mem (w ++ "s")%string rm = true ->
             Dict.mem (w ++ "s" ++ "s")%string rm = false) ->
  exists rm',
    reduce_plurals iteritems rm = Ok rm' /\
    (forall w Lw Lp,
       Dict.get w rm = Some Lw -> Dict.get (w ++ "s")%string rm = Some Lp ->
       Dict.get w rm' = Some (Lw ++ Lp) /\
       Dict.get (w ++ "s")%string rm' = None) /\
    (forall k,
       Dict.mem (k ++ "s")%string rm = false ->
       (forall w, Dict.mem w rm = true -> k <> (w ++ "s")%string) ->
       Dict.get k rm' = Dict.get k rm).
Proof.
  intros Hfree.
  destruct (find_plurals_facts rm) as (Hnd & Hsound & Hcomplete).
  pose proof (iteritems_perm _ (find_plurals iteritems rm)) as Hperm.
  assert (Hin : forall w p, In (w, p) (iteritems _ (find_plurals iteritems rm))
                            -> In (w, p) (find_plurals iteritems rm)).
  { intros w p. apply Permutation_in. exact Hperm. }
  destruct (foreach_merge_all (iteritems _ (find_plurals iteritems rm)) rm)
    as (rm' & Hrun & Hmerged & Hkept).
  - eapply Permutation_NoDup; [|exact Hnd].
    symmetry. apply Permutation_map. exact Hperm.
  - intros w p Hwp. apply Hsound, Hin, Hwp.
  - intros w p Hwp Hp.
    apply in_map_iff in Hp as ([w' p'] & Heq & Hw'). simpl in Heq. subst w'.
    apply Hin, Hsound in Hwp as (-> & Hw & Hws).
    apply Hin, Hsound in Hw' as (-> & _ & Hwss).
    rewrite StrFacts.append_assoc in Hwss.
    rewrite (Hfree w Hw Hws) in Hwss. discriminate.
  - exists rm'. split; [exact Hrun|]. split.
    + intros w Lw Lp HLw HLp. apply (Hmerged w _ Lw Lp); auto.
      assert (Hkey : In w (Dict.keys (find_plurals iteritems rm))).
      { apply Hcomplete; apply mem_get; eauto. }
      apply in_map_iff in Hkey as ([w' p] & Heq & Hwp). simpl in Heq. subst w'.
      destruct (Hsound w p Hwp) as (-> & _).
      eapply Permutation_in; [symmetry; exact Hperm|exact Hwp].
    + intros k Hks Hplural. apply Hkept.
      * intros Hk. apply in_map_iff in Hk as ([w p] & Heq & Hwp).
        simpl in Heq. subst w.
        apply Hin, Hsound in Hwp as (-> & _ & Hm). congruence.
      * intros Hk. apply in_map_iff in Hk as ([w p] & Heq & Hwp).
        simpl in Heq. subst p.
        apply Hin, Hsound in Hwp as (-> & Hm & _).
        now apply (Hplural w).
Qed.

End PluralsMore.

Lemma plural_folding_without_chain_witness :
  exists rm',
    reduce_plurals reverse_order file_files_map = Ok rm' /\
    (forall w Lw Lp,
       Dict.get w file_files_map = Some Lw ->
       Dict.get (w ++ "s")%string file_files_map = Some Lp ->
       Dict.get w rm' = Some (Lw ++ Lp) /\
       Dict.get (w ++ "s")%string rm' = None) /\
    (forall k,
       Dict.mem (k ++ "s")%string file_files_map = false ->
       (forall w, Dict.mem w file_files_map = true -> k <> (w ++ "s")%string) ->
       Dict.get k rm' = Dict.get k file_files_map).
Proof.
  apply (plural_folding_without_chain reverse_order reverse_order_perm
           file_files_map).
  intros w Hw Hs. apply mem_keys in Hw.
  destruct Hw as [<-|[<-|[]]]; reflexivity.
Defined.



Section OutputFailure.

Variable iteritems : forall V : Type, Dict.t V -> list (string * V).
Hypothesis iteritems_perm : forall V (d : Dict.t V), Permutation (iteritems V d) d.



End OutputFailure.


(** ** The cluster keys and the output paths *)

Lemma split_from_words (cur s : string) :
  Str.all Str.isalnum cur = true ->
  Str.all (fun c => Str.isalnum c || Str.mem c " ") s = true ->
  Forall is_word (Str.split_from cur s).
Proof.
  revert cur; induction s as [|c s IH]; intros cur Hcur Hs; simpl.
  - destruct cur; constructor; [split; [discriminate|assumption]|constructor].
  - simpl in Hs. apply andb_true_iff in Hs as [Hc Hs].
    destruct (Str.isspace c) eqn:Esp.
    + destruct cur as [|d cur']; [now apply IH|].
      constructor; [split; [discriminate|assumption]|now apply IH].
    + apply IH; auto. rewrite StrFacts.all_append, Hcur. simpl.
      rewrite andb_true_r. apply orb_true_iff in Hc as [Hc|Hc]; auto.
      rewrite orb_false_r in Hc. apply Ascii.eqb_eq in Hc. subst c.
      discriminate Esp.
Qed.

Lemma last_item_in (words : list string) (w : string) :
  last_item words = Ok w -> In w words.
Proof.
  induction words as [|x words IH]; [discriminate|].
  destruct words as [|y words].
  - intros [= <-]. now left.
  - intros H. right. now apply IH.
Qed.

(** The cluster key of a flattened source is one of its words. *)
Lemma cluster_key_word (text w : string) :
  cluster_key (flatten text " ") = Ok w -> is_word w.
Proof.
  unfold cluster_key. intros H.
  apply last_item_in in H. rewrite sort_by_len_in in H.
  pose proof (split_from_words "" (flatten text " ") eq_refl
                (flatten_chars text " ")) as Hwords.
  rewrite Forall_forall in Hwords. now apply Hwords.
Qed.

Lemma foreach_recluster_keys (items : list (string * list entry))
    (rm rm' : textmap_t) :
  foreach recluster_step items rm = Ok rm' ->
  forall k, In k (Dict.keys rm') ->
    In k (Dict.keys rm) \/
    exists item, In item items /\ cluster_key (fst item) = Ok k.
Proof.
  revert rm; induction items as [|[source L] items IH]; intros rm;
    cbn [foreach].
  - intros [= <-]. auto.
  - unfold recluster_step at 1.
    destruct (cluster_key source) as [w|e] eqn:E; [|discriminate].
    cbn [bind]. intros H k Hk.
    destruct (IH _ H k Hk) as [Hk'|(item & Hin & Hkey)].
    + apply DictFacts.keys_set in Hk' as [->|Hk']; auto.
      right. exists (source, L). split; [now left|exact E].
    + right. exists item. split; [now right|exact Hkey].
Qed.

Lemma foreach_merge_keys (items : list (string * string))
    (rm rm' : textmap_t) :
  foreach merge_plural items rm = Ok rm' ->
  forall k, In k (Dict.keys rm') -> In k (Dict.keys rm).
Proof.
  revert rm; induction items as [|[w p] items IH]; intros rm; cbn [foreach].
  - now intros [= <-].
  - unfold merge_plural at 1.
    destruct (Dict.get w rm) as [Lw|] eqn:HLw; [|discriminate].
    destruct (Dict.get p rm) as [Lp|]; [|discriminate].
    cbn [bind]. intros H k Hk. apply (IH _ H) in Hk.
    apply DictFacts.keys_set in Hk as [->|Hk].
    + apply DictFacts.get_in in HLw.
      change w with (fst (w, Lw)). now apply in_map.
    + now apply DictFacts.keys_remove in Hk.
Qed.

Lemma append_inj_l (a b1 b2 : string) :
  (a ++ b1)%string = (a ++ b2)%string -> b1 = b2.
Proof. induction a as [|c a IH]; simpl; [auto|]. intros [= H]. auto. Qed.

Lemma append_inj_r (s1 s2 t : string) :
  (s1 ++ t)%string = (s2 ++ t)%string -> s1 = s2.
Proof.
  revert s2; induction s1 as [|c s1 IH]; intros [|c' s2]; simpl; auto.
  - intros H. apply (f_equal String.length) in H. simpl in H.
    rewrite StrFacts.length_append in H. lia.
  - intros H. apply (f_equal String.length) in H. simpl in H.
    rewrite StrFacts.length_append in H. lia.
  - intros [= -> H]. f_equal. now apply IH.
Qed.

(** The output path of a word is the directory joined with the word and
    the extension, and different words have different paths. *)
Lemma cluster_path_word (options : Options) :
  exists dir, forall w', is_word w' ->
    cluster_path options w' = (dir ++ w' ++ ".po")%string.
Proof.
  exists (if String.eqb (output options) "" || Str.endswith (output options) "/"
          then output options else (output options ++ "/")%string).
  intros w' [Hne Hall]. unfold cluster_path.
  rewrite (flatten_word "-" w' eq_refl Hne Hall).
  unfold os_path_join, Str.startswith.
  destruct w' as [|c w'']; [congruence|].
  simpl in Hall. apply andb_true_iff in Hall as [Hc _].
  assert (Hslash : String.prefix "/" (String c w'' ++ os_extsep ++ "po") = false).
  { cbn [String.append String.prefix].
    destruct (ascii_dec "/" c) as [<-|]; [discriminate Hc|reflexivity]. }
  rewrite Hslash.
  destruct (String.eqb (output options) "" || Str.endswith (output options) "/");
    [reflexivity|].
  now rewrite StrFacts.append_assoc.
Qed.

Lemma cluster_path_inj (options : Options) (w1 w2 : string) :
  is_word w1 -> is_word w2 ->
  cluster_path options w1 = cluster_path options w2 -> w1 = w2.
Proof.
  intros H1 H2. destruct (cluster_path_word options) as [dir Hdir].
  rewrite !Hdir by assumption. intros H.
  apply append_inj_l, append_inj_r in H. exact H.
Qed.

Lemma foreach_write_cluster_files (new_pofile : list pounit)
    (open_write : string -> result unit) (options : Options)
    (items : list (string * list entry)) (h h' : heap)
    (written written' : list (string * list pounit)) :
  foreach (write_cluster new_pofile open_write options) items (h, written)
    = Ok (h', written') ->
  exists bodies,
    written' =
      written ++ map (fun body => (fst body, new_pofile ++ snd body)) bodies /\
    map fst bodies = map (fun item => cluster_path options (fst item)) items /\
    map (fun body => List.length (snd body)) bodies =
      map (fun item => List.length (snd item)) items.
Proof.
  revert h written; induction items as [|[source L] items IH];
    intros h written; cbn [foreach].
  - intros [= <- <-]. exists []. simpl. now rewrite app_nil_r.
  - destruct (write_cluster new_pofile open_write options (h, written)
                (source, L)) as [[h1 written1]|e] eqn:E; cbn [bind];
      [|discriminate].
    apply write_cluster_ok in E as (_ & _ & ->).
    intros H. apply IH in H as (bodies & -> & H1 & H2).
    exists ((cluster_path options source,
             map (deref h1) (map entry_unit L)) :: bodies).
    cbn [map fst snd]. rewrite <- app_assoc, H1, H2, !length_map.
    repeat split; reflexivity.
Qed.

Section OutputFiles.

Variable iteritems : forall V : Type, Dict.t V -> list (string * V).
Hypothesis iteritems_perm : forall V (d : Dict.t V), Permutation (iteritems V d) d.

(** The folded reduced map of a run that ends normally. *)
Lemma run_reduced_map (parse : string -> result (list pounit))
    (getfullinputpath : string -> string) (new_pofile : list pounit)
    (open_write : string -> result unit)
    (options : Options) (inputfiles : list string) (out : Output) :
  recursiveprocess iteritems parse getfullinputpath new_pofile open_write
    options inputfiles = Ok out ->
  exists st rm rm' h,
    ingest parse getfullinputpath options inputfiles = Ok st /\
    recluster iteritems (buildconflictmap iteritems (textmap st)) = Ok rm /\
    reduce_plurals iteritems rm = Ok rm' /\
    foreach (write_cluster new_pofile open_write options) (iteritems _ rm')
      (units_heap st, []) = Ok (h, files out) /\
    final_heap out = h.
Proof.
  unfold recursiveprocess.
  destruct (ingest parse getfullinputpath options inputfiles) as [st|e];
    [|discriminate].
  cbn [bind]. unfold outputconflicts.
  destruct (recluster iteritems _) as [rm|e] eqn:E1; [|discriminate].
  cbn [bind].
  destruct (reduce_plurals iteritems rm) as [rm'|e] eqn:E2; [|discriminate].
  cbn [bind].
  destruct (foreach _ _ _) as [[h written]|e] eqn:E3; cbn [bind];
    [|discriminate].
  intros [= <-]. exists st, rm, rm', h. cbn [files final_heap]. auto.
Qed.

(** X17.  In a run that ends normally every output catalog has a path of
    its own, the output directory joined with a cluster key and the
    extension [.po], and every cluster key is a non-empty alphanumeric
    word: no catalog overwrites another. *)
Theorem output_paths_distinct (parse : string -> result (list pounit))
    (getfullinputpath : string -> string) (new_pofile : list pounit)
    (open_write : string -> result unit)
    (options : Options) (inputfiles : list string) (out : Output) :
  recursiveprocess iteritems parse getfullinputpath new_pofile open_write
    options inputfiles = Ok out ->
  NoDup (map fst (files out)) /\
  Forall (fun path =>
            exists w, is_word w /\
              path = os_path_join (output options) (w ++ ".po")%string)
    (map fst (files out)).
Proof.
  intros Hrun.
  destruct (run_reduced_map parse getfullinputpath new_pofile open_write
              options inputfiles out Hrun)
    as (st & rm & rm' & h & Hingest & Hrm & Hrm' & Hfold & _).
  apply foreach_write_cluster_files in Hfold as (bodies & Hfiles & Hpaths & _).
  assert (Hpaths' : map fst (files out) =
                    map (fun item => cluster_path options (fst item))
                      (iteritems _ rm')).
  { rewrite Hfiles. cbn [app]. rewrite map_map. cbn [fst]. exact Hpaths. }
  rewrite Hpaths'.
  assert (Hkeys : NoDup (Dict.keys rm')).
  { destruct (foreach_recluster_entries _ _ _ Hrm) as [_ Hnd].
    apply (reduce_plurals_entries iteritems iteritems_perm rm rm');
      [apply Hnd; constructor|exact Hrm']. }
  assert (Hwords : forall k, In k (Dict.keys rm') -> is_word k).
  { intros k Hk. apply (foreach_merge_keys _ _ _ Hrm') in Hk.
    apply (foreach_recluster_keys _ _ _ Hrm) in Hk
      as [[]|([source L] & Hin & Hkey)].
    eapply Permutation_in in Hin; [|apply iteritems_perm].
    apply in_fold_conflict in Hin as [[]|(s & _ & Hs & _)].
    simpl in Hkey. rewrite Hs in Hkey. now apply cluster_key_word in Hkey. }
  assert (Hperm : Permutation (map fst (iteritems _ rm')) (Dict.keys rm'))
    by apply Permutation_map, iteritems_perm.
  rewrite <- (map_map fst (cluster_path options)).
  split.
  - apply NoDup_map_NoDup_ForallPairs.
    + intros k1 k2 H1 H2. apply cluster_path_inj; apply Hwords.
      * eapply Permutation_in; [exact Hperm|exact H1].
      * eapply Permutation_in; [exact Hperm|exact H2].
    + eapply Permutation_NoDup; [symmetry; exact Hperm|exact Hkeys].
  - apply Forall_forall. intros path Hpath.
    apply in_map_iff in Hpath as (k & <- & Hk).
    assert (Hw : is_word k)
      by (apply Hwords; eapply Permutation_in; [exact Hperm|exact Hk]).
    exists k. split; [exact Hw|]. unfold cluster_path.
    destruct Hw as [Hne Hall].
    now rewrite (flatten_word "-" k eq_refl Hne Hall).
Qed.

(** X18.  In a run that ends normally every output catalog holds the units
    of a new catalog of the library followed by the units the tool adds,
    and the units added to the catalogs are as many, all together, as the
    conflict map has entries: every entry of the conflict map is written,
    once. *)
Theorem written_units_count (parse : string -> result (list pounit))
    (getfullinputpath : string -> string) (new_pofile : list pounit)
    (open_write : string -> result unit)
    (options : Options) (inputfiles : list string) (st : Ingested)
    (out : Output) :
  ingest parse getfullinputpath options inputfiles = Ok st ->
  recursiveprocess iteritems parse getfullinputpath new_pofile open_write
    options inputfiles = Ok out ->
  exists bodies,
    files out = map (fun body => (fst body, new_pofile ++ snd body)) bodies /\
    List.length (List.concat (map snd bodies)) =
    List.length (all_entries (buildconflictmap iteritems (textmap st))) /\
    List.length (List.concat (map snd (files out))) =
    List.length (files out) * List.length new_pofile +
    List.length (all_entries (buildconflictmap iteritems (textmap st))).
Proof.
  intros Hst Hrun.
  destruct (run_reduced_map parse getfullinputpath new_pofile open_write
              options inputfiles out Hrun)
    as (st' & rm & rm' & h & Hingest & Hrm & Hrm' & Hfold & _).
  rewrite Hst in Hingest. injection Hingest as <-.
  apply foreach_write_cluster_files in Hfold as (bodies & Hfiles & _ & Hlens).
  cbn [app] in Hfiles.
  assert (Hcount : List.length (List.concat (map snd bodies)) =
            List.length (all_entries (buildconflictmap iteritems (textmap st)))).
  { rewrite length_concat, map_map, Hlens.
    rewrite <- (map_map snd (@List.length entry)), <- length_concat.
    destruct (foreach_recluster_entries _ _ _ Hrm) as [Hperm Hnd].
    destruct (reduce_plurals_entries iteritems iteritems_perm rm rm')
      as [Hperm' _]; [apply Hnd; constructor|exact Hrm'|].
    rewrite (Permutation_length
               (all_entries_items (iteritems _ rm') rm' (iteritems_perm _ rm'))).
    rewrite (Permutation_length Hperm'), (Permutation_length Hperm).
    simpl. apply Permutation_length, all_entries_items, iteritems_perm. }
  exists bodies. split; [exact Hfiles|]. split; [exact Hcount|].
  rewrite <- Hcount, Hfiles, length_map. clear.
  induction bodies as [|body bodies IH]; [reflexivity|].
  cbn [map List.concat snd List.length]. rewrite !length_app, IH. lia.
Qed.

End OutputFiles.

Lemma output_paths_distinct_witness :
  exists out,
    recursiveprocess insertion_order (catalogs save_as_fs) same_path
      fresh_pofile writable default_options ["A.po"; "B.po"] = Ok out /\
    NoDup (map fst (files out)) /\
    Forall (fun path =>
              exists w, is_word w /\
                path = os_path_join (output default_options) (w ++ ".po")%string)
      (map fst (files out)).
Proof.
  eexists. split; [vm_compute; reflexivity|].
  apply (output_paths_distinct insertion_order insertion_order_perm
           (catalogs save_as_fs) same_path fresh_pofile writable
           default_options ["A.po"; "B.po"]).
  vm_compute. reflexivity.
Defined.

Lemma written_units_count_witness :
  exists out,
    recursiveprocess reverse_order (catalogs save_as_fs) same_path
      fresh_pofile writable default_options ["A.po"; "B.po"] = Ok out /\
    exists bodies,
      files out = map (fun body => (fst body, fresh_pofile ++ snd body)) bodies /\
      List.length (List.concat (map snd bodies)) =
      List.length (all_entries
                     (buildconflictmap reverse_order (textmap save_as_ingested)))
      /\
      List.length (List.concat (map snd (files out))) =
      List.length (files out) * List.length fresh_pofile +
      List.length (all_entries
                     (buildconflictmap reverse_order (textmap save_as_ingested))).
Proof.
  eexists. split; [vm_compute; reflexivity|].
  apply (written_units_count reverse_order reverse_order_perm
           (catalogs save_as_fs) same_path fresh_pofile writable
           default_options ["A.po"; "B.po"] save_as_ingested);
    vm_compute; reflexivity.
Defined.

(** ** The units after the run *)

Lemma foreach_write_cluster_heap (new_pofile : list pounit)
    (open_write : string -> result unit) (options : Options)
    (items : list (string * list entry)) (h h' : heap)
    (written written' : list (string * list pounit)) :
  NoDup (map entry_unit (List.concat (map snd items))) ->
  (forall e, In e (List.concat (map snd items)) ->
             entry_unit e < List.length h) ->
  foreach (write_cluster new_pofile open_write options) items (h, written)
    = Ok (h', written') ->
  List.length h' = List.length h /\
  (forall addr, ~ In addr (map entry_unit (List.concat (map snd items))) ->
                deref h' addr = deref h addr) /\
  (forall e, In e (List.concat (map snd items)) ->
     deref h' (entry_unit e) =
     append_comment (provenance (entry_filename e)) (deref h (entry_unit e))).
Proof.
  revert h written; induction items as [|[source L] items IH];
    intros h written Hnd Hlt; cbn [foreach].
  - intros [= <- <-]. simpl. repeat split; auto. intros ? [].
  - cbn [map List.concat snd] in Hnd, Hlt |- *.
    rewrite map_app in Hnd.
    destruct (write_cluster new_pofile open_write options (h, written)
                (source, L)) as [[h1 written1]|e] eqn:E; cbn [bind];
      [|discriminate].
    apply write_cluster_ok in E as (_ & Hh1 & _).
    pose proof (tag_units_length L h []) as Hlen.
    pose proof (tag_units_other L h []) as Hother.
    pose proof (tag_units_tagged L h []) as Htagged.
    rewrite <- Hh1 in Hlen, Hother, Htagged.
    intros Hrun. apply IH in Hrun as (H1 & H2 & H3).
    + split; [|split].
      * now rewrite H1.
      * intros addr Hnot. rewrite map_app in Hnot.
        rewrite H2 by (intros H; apply Hnot, in_or_app; now right).
        apply Hother. intros H. apply Hnot, in_or_app. now left.
      * intros e He. apply in_app_or in He as [He|He].
        -- rewrite H2.
           ++ apply Htagged; auto; [now apply NoDup_app_remove_r in Hnd|].
              apply Hlt, in_or_app. now left.
           ++ intros H.
              apply (nodup_app_disjoint _ _ (entry_unit e) Hnd); auto.
              now apply in_map.
        -- rewrite H3 by assumption. f_equal. apply Hother.
           intros H. apply (nodup_app_disjoint _ _ (entry_unit e) Hnd); auto.
           now apply in_map.
    + now apply NoDup_app_remove_l in Hnd.
    + intros e He. rewrite Hlen. apply Hlt, in_or_app. now right.
Qed.

Section FinalHeap.

Variable iteritems : forall V : Type, Dict.t V -> list (string * V).
Hypothesis iteritems_perm : forall V (d : Dict.t V), Permutation (iteritems V d) d.

(** X19.  A run that ends normally adds one comment to each unit an entry
    of the conflict map refers to, the comment that names the file of the
    entry, and leaves every other unit as it was read. *)
Theorem units_after_run (parse : string -> result (list pounit))
    (getfullinputpath : string -> string) (new_pofile : list pounit)
    (open_write : string -> result unit)
    (options : Options) (inputfiles : list string) (st : Ingested)
    (out : Output) :
  ingest parse getfullinputpath options inputfiles = Ok st ->
  recursiveprocess iteritems parse getfullinputpath new_pofile open_write
    options inputfiles = Ok out ->
  let cm := buildconflictmap iteritems (textmap st) in
  List.length (final_heap out) = List.length (units_heap st) /\
  (forall e, In e (all_entries cm) ->
     deref (final_heap out) (entry_unit e) =
     append_comment (provenance (entry_filename e))
       (deref (units_heap st) (entry_unit e))) /\
  (forall addr, ~ In addr (addresses cm) ->
     deref (final_heap out) addr = deref (units_heap st) addr).
Proof.
  intros Hst Hrun cm.
  destruct (run_reduced_map iteritems parse getfullinputpath new_pofile
              open_write options inputfiles out Hrun)
    as (st' & rm & rm' & h & Hingest & Hrm & Hrm' & Hfold & Hfinal).
  rewrite Hst in Hingest. injection Hingest as <-. fold cm in Hrm.
  destruct (ingest_wf parse getfullinputpath options inputfiles st Hst)
    as (_ & Haddr & Hent).
  destruct (conflictmap_entries iteritems iteritems_perm (textmap st))
    as [dropped Hcm]. fold cm in Hcm.
  destruct (foreach_recluster_entries _ _ _ Hrm) as [Hperm Hnd].
  destruct (reduce_plurals_entries iteritems iteritems_perm rm rm')
    as [Hperm' _]; [apply Hnd; constructor|exact Hrm'|].
  assert (Hitems : Permutation (List.concat (map snd (iteritems _ rm')))
                     (all_entries cm)).
  { rewrite (all_entries_items (iteritems _ rm') rm') by apply iteritems_perm.
    rewrite Hperm', Hperm. simpl.
    apply all_entries_items, iteritems_perm. }
  apply foreach_write_cluster_heap in Hfold as (H1 & H2 & H3).
  - rewrite Hfinal.
    split; [exact H1|]. split.
    + intros e He. apply H3.
      eapply Permutation_in; [symmetry; exact Hitems|exact He].
    + intros addr Hnot. apply H2. intros H. apply Hnot. unfold addresses.
      eapply Permutation_in; [apply Permutation_map; exact Hitems|exact H].
  - eapply Permutation_NoDup;
      [symmetry; apply Permutation_map; exact Hitems|].
    unfold addresses in Haddr.
    eapply Permutation_NoDup in Haddr;
      [|symmetry; apply Permutation_map; exact Hcm].
    rewrite map_app in Haddr. now apply NoDup_app_remove_l in Haddr.
  - intros e He. apply Hent.
    eapply Permutation_in; [exact Hcm|]. apply in_or_app. right.
    eapply Permutation_in; [exact Hitems|exact He].
Qed.

End FinalHeap.

Lemma units_after_run_witness :
  exists out,
    recursiveprocess insertion_order (catalogs save_as_fs) same_path
      fresh_pofile writable default_options ["A.po"; "B.po"] = Ok out /\
    let cm := buildconflictmap insertion_order (textmap save_as_ingested) in
    List.length (final_heap out) = List.length (units_heap save_as_ingested) /\
    (forall e, In e (all_entries cm) ->
       deref (final_heap out) (entry_unit e) =
       append_comment (provenance (entry_filename e))
         (deref (units_heap save_as_ingested) (entry_unit e))) /\
    (forall addr, ~ In addr (addresses cm) ->
       deref (final_heap out) addr =
       deref (units_heap save_as_ingested) addr).
Proof.
  eexists. split; [vm_compute; reflexivity|].
  apply (units_after_run insertion_order insertion_order_perm
           (catalogs save_as_fs) same_path fresh_pofile writable
           default_options ["A.po"; "B.po"] save_as_ingested);
    vm_compute; reflexivity.
Defined.

(** ** How the re-clustering groups the conflicts *)

Lemma foreach_recluster_get (k : string) (items : list (string * list entry))
    (rm rm' : textmap_t) :
  foreach recluster_step items rm = Ok rm' ->
  Dict.get k rm' =
  match filter (has_cluster_key k) items with
  | [] => Dict.get k rm
  | _ => Some (match Dict.get k rm with Some l => l | None => [] end
               ++ cluster_entries k items)
  end.
Proof.
  revert rm; induction items as [|[source L] items IH]; intros rm;
    cbn [foreach].
  - now intros [= <-].
  - unfold recluster_step at 1.
    destruct (cluster_key source) as [w|e] eqn:Ekey; [|discriminate].
    cbn [bind]. intros H. rewrite (IH _ H), DictFacts.get_set.
    assert (Hh : has_cluster_key k (source, L) = String.eqb w k)
      by (unfold has_cluster_key; cbn [fst]; now rewrite Ekey).
    unfold cluster_entries. cbn [filter]. rewrite Hh.
    destruct (String.eqb w k) eqn:E.
    + apply String.eqb_eq in E. subst w. cbn [map List.concat snd].
      destruct (filter (has_cluster_key k) items) as [|item group].
      * simpl. now rewrite app_nil_r.
      * now rewrite <- app_assoc.
    + reflexivity.
Qed.

(** X20.  The re-clustering puts under a cluster key the translation lists
    of all the conflicting sources that have this cluster key, one after
    the other in the order in which the conflict map is visited, and has
    no key without such a source. *)
Theorem recluster_groups
    (iteritems : forall V : Type, Dict.t V -> list (string * V))
    (cm rm : textmap_t) (k : string) :
  recluster iteritems cm = Ok rm ->
  Dict.get k rm =
  match filter (has_cluster_key k) (iteritems _ cm) with
  | [] => None
  | _ => Some (cluster_entries k (iteritems _ cm))
  end.
Proof.
  intros H. unfold recluster in H.
  rewrite (foreach_recluster_get k _ _ _ H). reflexivity.
Qed.

Lemma recluster_groups_witness :
  Dict.get "Save"
    [("Save", save_as_colon_entries)] =
  match filter (has_cluster_key "Save")
          (insertion_order _
             (buildconflictmap insertion_order save_as_index))
  with
  | [] => None
  | _ => Some (cluster_entries "Save"
                 (insertion_order _
                    (buildconflictmap insertion_order save_as_index)))
  end.
Proof.
  apply (recluster_groups insertion_order
           (buildconflictmap insertion_order save_as_index)
           [("Save", save_as_colon_entries)] "Save").
  reflexivity.
Defined.

(** ** The order of the entries of the index *)

Lemma increasing_weaken (bound bound' : nat) (addrs : list nat) :
  bound' <= bound -> increasing bound addrs = true ->
  increasing bound' addrs = true.
Proof.
  destruct addrs as [|a addrs]; simpl; auto.
  intros Hle H. apply andb_true_iff in H as [Ha H].
  apply Nat.leb_le in Ha. rewrite H, andb_true_r. apply Nat.leb_le. lia.
Qed.

Lemma increasing_snoc (bound addr : nat) (addrs : list nat) :
  increasing bound addrs = true ->
  (forall a, In a addrs -> a < addr) -> bound <= addr ->
  increasing bound (addrs ++ [addr]) = true.
Proof.
  revert bound; induction addrs as [|a addrs IH]; intros bound H Hlt Hb; simpl.
  - rewrite andb_true_r. now apply Nat.leb_le.
  - simpl in H. apply andb_true_iff in H as [Ha H]. rewrite Ha. simpl.
    apply IH; auto.
    + intros a' Ha'. apply Hlt. now right.
    + assert (a < addr) by (apply Hlt; now left). lia.
Qed.

Lemma index_units_ordered (options : Options) (path : string) (addr : nat)
    (units : list pounit) (tm : textmap_t) :
  index_ordered addr tm ->
  index_ordered (addr + List.length units)
    (index_units options path addr units tm).
Proof.
  revert addr tm; induction units as [|unit units IH]; intros addr tm Htm;
    cbn [index_units List.length].
  - now rewrite Nat.add_0_r.
  - replace (addr + S (List.length units)) with (S addr + List.length units)
      by lia.
    apply IH.
    destruct (index_unit_cases options path tm addr unit)
      as [[_ ->]|(_ & key & tgt & _ & ->)].
    + intros key L Hin. destruct (Htm key L Hin) as (H1 & H2 & H3).
      repeat split; auto. intros e He. apply H3 in He. lia.
    + intros key' L Hin.
      apply DictFacts.in_set in Hin as [[-> ->]|Hin].
      * assert (Hold : forall e,
                  In e (match Dict.get key tm with Some l => l | None => [] end)
                  -> entry_unit e < addr).
        { destruct (Dict.get key tm) as [l|] eqn:Hget; [|intros ? []].
          apply DictFacts.get_in in Hget. apply (Htm key l Hget). }
        split; [|split].
        -- intros H. apply app_eq_nil in H as [_ H]. discriminate.
        -- rewrite map_app. apply increasing_snoc; [| |lia].
           ++ destruct (Dict.get key tm) as [l|] eqn:Hget; [|reflexivity].
              apply DictFacts.get_in in Hget. apply (Htm key l Hget).
           ++ intros a Ha. apply in_map_iff in Ha as (e & <- & He). auto.
        -- intros e He. apply in_app_or in He as [He|[<-|[]]].
           ++ apply Hold in He. lia.
           ++ unfold entry_unit. simpl. lia.
      * destruct (Htm key' L Hin) as (H1 & H2 & H3).
        repeat split; auto. intros e He. apply H3 in He. lia.
Qed.

Lemma process_inputs_ordered (parse : string -> result (list pounit))
    (getfullinputpath : string -> string)
    (options : Options) (paths : list string) (st st' : Ingested) :
  index_ordered (List.length (units_heap st)) (textmap st) ->
  process_inputs parse getfullinputpath options paths st = Ok st' ->
  index_ordered (List.length (units_heap st')) (textmap st').
Proof.
  revert st; induction paths as [|path paths IH]; intros st Hst;
    cbn [process_inputs].
  - now intros [= <-].
  - unfold processfile.
    destruct (parse (getfullinputpath path)) as [units|e]; cbn [bind].
    + apply IH. cbn [units_heap textmap]. rewrite length_app.
      now apply index_units_ordered.
    + destruct (isinstance_Exception e); [|discriminate].
      destruct (isinstance_KeyboardInterrupt e); [discriminate|].
      now apply IH.
Qed.

(** X21.  After an ingestion that ends normally every key of the index
    has at least one entry, and the entries of a key are in the order in
    which their units were read: their addresses increase strictly. *)
Theorem index_entries_ordered (parse : string -> result (list pounit))
    (getfullinputpath : string -> string)
    (options : Options) (inputfiles : list string) (st : Ingested)
    (key : string) (L : list entry) :
  ingest parse getfullinputpath options inputfiles = Ok st ->
  In (key, L) (textmap st) ->
  L <> [] /\ increasing 0 (map entry_unit L) = true.
Proof.
  intros Hingest Hin.
  assert (H : index_ordered (List.length (units_heap st)) (textmap st)).
  { apply (process_inputs_ordered parse getfullinputpath options inputfiles
             nothing_ingested st);
      auto.
    intros ? ? []. }
  destruct (H key L Hin) as (H1 & H2 & _). auto.
Qed.

Lemma index_entries_ordered_witness :
  save_as_colon_entries <> [] /\
  increasing 0 (map entry_unit save_as_colon_entries) = true.
Proof.
  apply (index_entries_ordered (catalogs save_as_fs) same_path default_options
           ["A.po"; "B.po"] save_as_ingested "Save as:").
  - reflexivity.
  - right. now left.
Defined.
